(** * Tag taxonomy engine of utopia_flask: a shallow embedding

    The development follows [app/models/tag.py] (the [Tag] row and its
    methods), [app/services/tag_tree_service.py] (the [TagTreeService]
    operations) and [app/utils/ai_mapping.py] ([AITagMapper._score_candidates]).

    Modelling conventions.
    - The [tags] table is a list of rows in storage order; the [entry_tags]
      table is a list of (entry, tag) pairs.  A query is a [filter] over the
      rows, [.first()] is [find], [.order_by] is a stable sort and [.limit]
      is [firstn].
    - Python [str] is [string]; one [ascii] stands for one character.
    - Python [int] is [Z].  The [Numeric(3,2)] and [Numeric(5,2)] columns are
      fixed-point numbers counted in hundredths ([500] is [5.00]); what they
      load as is a [decimal.Decimal].
    - A Python [while] loop or an unbounded recursion takes a [fuel] argument
      and answers [None] when the fuel runs out.
    - The tables are the committed rows.  Three checks of the database are
      part of the model: the primary keys of both tables, the foreign key
      [parent_id] and the width of [name]; a statement that trips one of them
      raises, and the operation ends in its [except] branch after a rollback.
      The other widths and ranges ([name_en], [category], [domain], [path],
      the [Numeric] columns) and the [users] table behind [created_by] are
      outside the model: there the program can fail and roll back where the
      model goes on, and [user_id] stands for the id of a stored user.
    - A write to a session object that no caller commits (as in
      [_get_tag_stats]) is threaded through the call and dropped at its end; a
      write that the session does not detect (a dictionary of a [JSONB] column
      changed in place) never reaches the table.
    - A listing answers the rows it selected; their serialisation by
      [to_dict] is not modelled.  In the classifier a [float] and a [Decimal]
      are exact rationals that keep their Python type.
    - The audit rows written by [_record_history], the timestamps and the
      columns that no modelled operation reads or writes ([description_en],
      [related_tags], [external_links], [applicable_content_types],
      [approved_by], [approved_at]) are left out of the row. *)

From Stdlib Require Import List String Ascii ZArith QArith Bool Lia Arith.
From Stdlib Require Import Sorting.Sorted Sorting.Permutation.
Import ListNotations.

Set Warnings "-register-all".

Local Open Scope Z_scope.
Local Open Scope string_scope.
Local Open Scope list_scope.

(** ** The data model ([app/models/tag.py]) *)

(** [Tag.status]: the column comment and the services use these four values. *)
Inductive Status : Type := active | deprecated | merged | deleted.

Definition Status_eqb (a b : Status) : bool :=
  match a, b with
  | active, active | deprecated, deprecated
  | merged, merged | deleted, deleted => true
  | _, _ => false
  end.

Record Tag : Type := mkTag {
  id : string;
  name : string;
  name_en : option string;
  description : option string;
  parent_id : option string;
  level : Z;
  path : option string;
  category : string;
  domain : string;
  is_abstract : bool;
  is_system : bool;
  status : Status;
  quality_score : Z;      (* Numeric(3,2), in hundredths *)
  usage_count : Z;
  popularity_score : Z;   (* Numeric(5,2), in hundredths *)
  aliases : list string;
  properties : list (string * string);
  created_by : string
}.

Record EntryTag : Type := mkEntryTag {
  entry_id : string;
  tag_id : string
}.

Record DB : Type := mkDB {
  tags : list Tag;
  entry_tags : list EntryTag
}.

(** Attribute assignments [tag.field = v]. *)
Definition set_parent_id (v : option string) (t : Tag) : Tag :=
  mkTag (id t) (name t) (name_en t) (description t) v (level t) (path t)
        (category t) (domain t) (is_abstract t) (is_system t) (status t)
        (quality_score t) (usage_count t) (popularity_score t) (aliases t)
        (properties t) (created_by t).

Definition set_level (v : Z) (t : Tag) : Tag :=
  mkTag (id t) (name t) (name_en t) (description t) (parent_id t) v (path t)
        (category t) (domain t) (is_abstract t) (is_system t) (status t)
        (quality_score t) (usage_count t) (popularity_score t) (aliases t)
        (properties t) (created_by t).

Definition set_path (v : option string) (t : Tag) : Tag :=
  mkTag (id t) (name t) (name_en t) (description t) (parent_id t) (level t) v
        (category t) (domain t) (is_abstract t) (is_system t) (status t)
        (quality_score t) (usage_count t) (popularity_score t) (aliases t)
        (properties t) (created_by t).

Definition set_status (v : Status) (t : Tag) : Tag :=
  mkTag (id t) (name t) (name_en t) (description t) (parent_id t) (level t)
        (path t) (category t) (domain t) (is_abstract t) (is_system t) v
        (quality_score t) (usage_count t) (popularity_score t) (aliases t)
        (properties t) (created_by t).

Definition set_usage_count (v : Z) (t : Tag) : Tag :=
  mkTag (id t) (name t) (name_en t) (description t) (parent_id t) (level t)
        (path t) (category t) (domain t) (is_abstract t) (is_system t)
        (status t) (quality_score t) v (popularity_score t) (aliases t)
        (properties t) (created_by t).

Definition set_popularity_score (v : Z) (t : Tag) : Tag :=
  mkTag (id t) (name t) (name_en t) (description t) (parent_id t) (level t)
        (path t) (category t) (domain t) (is_abstract t) (is_system t)
        (status t) (quality_score t) (usage_count t) v (aliases t)
        (properties t) (created_by t).

Definition set_aliases (v : list string) (t : Tag) : Tag :=
  mkTag (id t) (name t) (name_en t) (description t) (parent_id t) (level t)
        (path t) (category t) (domain t) (is_abstract t) (is_system t)
        (status t) (quality_score t) (usage_count t) (popularity_score t) v
        (properties t) (created_by t).

Definition set_properties (v : list (string * string)) (t : Tag) : Tag :=
  mkTag (id t) (name t) (name_en t) (description t) (parent_id t) (level t)
        (path t) (category t) (domain t) (is_abstract t) (is_system t)
        (status t) (quality_score t) (usage_count t) (popularity_score t)
        (aliases t) v (created_by t).

(** ** Queries on the [tags] table *)

(** Python truthiness of an [Optional[str]]: [None] and [''] are false. *)
Definition truthy (o : option string) : bool :=
  match o with
  | Some s => negb (s =? "")
  | None => false
  end.

(** The value tested by [if x:], when it is true. *)
Definition truthy_value (o : option string) : option string :=
  if truthy o then o else None.

Definition is_active (t : Tag) : bool := Status_eqb (status t) active.

(** Loading a row by primary key, as the [parent] relationship does. *)
Definition get (db : DB) (i : string) : option Tag :=
  find (fun t => id t =? i) (tags db).

(** [Tag.query.filter_by(id=i, status='active').first()] *)
Definition get_active (db : DB) (i : string) : option Tag :=
  find (fun t => (id t =? i) && is_active t) (tags db).

(** [Tag.query.filter_by(name=n, status='active').first()] *)
Definition get_active_by_name (db : DB) (n : string) : option Tag :=
  find (fun t => (name t =? n) && is_active t) (tags db).

(** [self.parent]: the row the foreign key points at, if any. *)
Definition parent (db : DB) (t : Tag) : option Tag :=
  match parent_id t with
  | Some p => get db p
  | None => None
  end.

(** [self.children]: the backref of [parent], every row whose foreign key is
    this row's id, whatever its status. *)
Definition option_string_eqb (a : option string) (b : string) : bool :=
  match a with
  | Some s => s =? b
  | None => false
  end.

Definition children (db : DB) (t : Tag) : list Tag :=
  filter (fun c => option_string_eqb (parent_id c) (id t)) (tags db).

(** Writing the attributes of the row with primary key [i]. *)
Definition update_tag (i : string) (f : Tag -> Tag) (db : DB) : DB :=
  mkDB (map (fun t => if id t =? i then f t else t) (tags db)) (entry_tags db).

(** ** [Tag.increment_usage] *)

(** [self.usage_count += 1; self.popularity_score = float(self.usage_count) * 0.1]
    (one tenth of the count is ten hundredths per use). *)
Definition increment_usage (t : Tag) : Tag :=
  let t1 := set_usage_count (usage_count t + 1) t in
  set_popularity_score (usage_count t1 * 10) t1.

(** ** [TagTreeService.merge_tags] *)

Inductive MergeMsg : Type :=
| MergeTagMissing        (* "tag does not exist" *)
| MergeSameTag           (* "cannot merge a tag with itself" *)
| MergeFailed            (* the [except Exception] branch, after rollback *)
| MergedInto (target_name : string).

(** [dict[key] = value] on an insertion-ordered dictionary. *)
Fixpoint dict_set (k v : string) (d : list (string * string)) : list (string * string) :=
  match d with
  | [] => [(k, v)]
  | (k', v') :: d' => if k' =? k then (k, v) :: d' else (k', v') :: dict_set k v d'
  end.

(** [list(set(a).union(set(b)))]: the elements of both lists, each once.  The
    iteration order of a Python set is not specified; the model keeps the last
    occurrence of each element. *)
Definition set_union (a b : list string) : list string :=
  nodup string_dec (a ++ b).

(** [EntryTag.query.filter_by(tag_id=source).update({'tag_id': target})] *)
Definition retag (source target : string) (e : EntryTag) : EntryTag :=
  if tag_id e =? source then mkEntryTag (entry_id e) target else e.

(** The update violates the primary key [(entry_id, tag_id)] of [entry_tags]
    when some entry carries both tags; the statement then raises and the
    operation ends in its [except] branch. *)
Definition retag_conflict (source target : string) (es : list EntryTag) : bool :=
  existsb (fun e => (tag_id e =? source) &&
                    existsb (fun e' => (entry_id e' =? entry_id e) && (tag_id e' =? target)) es) es.

Definition merge_target (source_tag : Tag) (target_tag : Tag) : Tag :=
  let t1 := set_usage_count (usage_count target_tag + usage_count source_tag) target_tag in
  let t2 := increment_usage t1 in
  match aliases source_tag with
  | [] => t2
  | _ :: _ => set_aliases (set_union (aliases t2) (aliases source_tag)) t2
  end.

(** [source_tag.status = 'merged'], then
    [source_tag.properties = source_tag.properties or {}] and
    [source_tag.properties['merged_to'] = target_tag_id].  For an empty (or
    absent) dictionary [or] gives a new one, and the assignment is saved with
    the key in it.  A dictionary that is not empty is assigned to itself and
    then changed in place, which the [JSONB] column does not track: the
    [UPDATE] leaves [properties] out and the stored dictionary is the old
    one. *)
Definition merge_source (target_tag_id : string) (source_tag : Tag) : Tag :=
  let s1 := set_status merged source_tag in
  match properties s1 with
  | [] => set_properties (dict_set "merged_to" target_tag_id []) s1
  | _ :: _ => s1
  end.

Definition merge_tags (db : DB) (source_tag_id target_tag_id user_id : string)
  : bool * MergeMsg * DB :=
  match get_active db source_tag_id, get_active db target_tag_id with
  | Some source_tag, Some target_tag =>
      if id source_tag =? id target_tag then (false, MergeSameTag, db)
      else if retag_conflict source_tag_id target_tag_id (entry_tags db)
      then (false, MergeFailed, db)
      else
        let db1 := mkDB (tags db) (map (retag source_tag_id target_tag_id) (entry_tags db)) in
        let db2 := update_tag (id target_tag) (merge_target source_tag) db1 in
        let db3 := update_tag (id source_tag) (merge_source target_tag_id) db2 in
        (true, MergedInto (name target_tag), db3)
  | _, _ => (false, MergeTagMissing, db)
  end.

(** ** Loops *)

(** [for x in xs: body] over a threaded state; [None] when an iteration does
    not return. *)
Fixpoint for_each {A S : Type} (body : S -> A -> option S) (xs : list A) (s : S)
  : option S :=
  match xs with
  | [] => Some s
  | x :: xs' =>
      match body s x with
      | Some s' => for_each body xs' s'
      | None => None
      end
  end.

(** [result = []; for x in xs: result.append(body(x))] over a threaded state. *)
Fixpoint collect {A B S : Type} (body : S -> A -> option (B * S)) (xs : list A) (s : S)
  : option (list B * S) :=
  match xs with
  | [] => Some ([], s)
  | x :: xs' =>
      match body s x with
      | Some (b, s1) =>
          match collect body xs' s1 with
          | Some (bs, s2) => Some (b :: bs, s2)
          | None => None
          end
      | None => None
      end
  end.

(** ** [Tag.update_path], [Tag.get_ancestors], [Tag.can_be_parent_of] *)

(** What an f-string prints for a nullable column. *)
Definition path_str (p : option string) : string :=
  match p with
  | Some s => s
  | None => "None"
  end.

(** The current state of the session object of a row. *)
Definition refresh (db : DB) (t : Tag) : Tag :=
  match get db (id t) with
  | Some t' => t'
  | None => t
  end.

(** [update_path]: writes the path of [self] from its parent's path, then
    recurses into [self.children]. *)
Fixpoint update_path (fuel : nat) (db : DB) (self : Tag) : option DB :=
  match fuel with
  | O => None
  | S fuel' =>
      let p := match parent db self with
               | None => name self
               | Some par => (path_str (path par) ++ "/" ++ name self)%string
               end in
      let db1 := update_tag (id self) (set_path (Some p)) db in
      for_each (update_path fuel') (children db1 self) db1
  end.

(** The [while current:] loop of [get_ancestors], started at [current]. *)
Fixpoint ancestors_from (fuel : nat) (db : DB) (current : option Tag) : option (list Tag) :=
  match current with
  | None => Some []
  | Some c =>
      match fuel with
      | O => None
      | S fuel' =>
          match ancestors_from fuel' db (parent db c) with
          | Some l => Some (c :: l)
          | None => None
          end
      end
  end.

Definition get_ancestors (fuel : nat) (db : DB) (self : Tag) : option (list Tag) :=
  ancestors_from fuel db (parent db self).

(** [other_tag in ancestors]: session objects are equal when they are the
    same row. *)
Definition tag_in (other : Tag) (l : list Tag) : bool :=
  existsb (fun a => id a =? id other) l.

Definition can_be_parent_of (fuel : nat) (db : DB) (self other_tag : Tag) : option bool :=
  if id self =? id other_tag then Some false
  else match get_ancestors fuel db self with
       | Some ancestors => Some (negb (tag_in other_tag ancestors))
       | None => None
       end.

(** [get_descendants(max_depth)] with its inner [_collect_descendants]. *)
Definition depth_reached (max_depth : option Z) (current_depth : Z) : bool :=
  match max_depth with
  | Some m => negb (m =? 0)%Z && (m <=? current_depth)%Z
  | None => false
  end.

Fixpoint collect_descendants (fuel : nat) (db : DB) (max_depth : option Z)
    (tag : Tag) (current_depth : Z) (descendants : list Tag) : option (list Tag) :=
  match fuel with
  | O => None
  | S fuel' =>
      if depth_reached max_depth current_depth then Some descendants
      else for_each (fun ds child =>
                       collect_descendants fuel' db max_depth child
                                           (current_depth + 1) (ds ++ [child]))
                    (children db tag) descendants
  end.

Definition get_descendants (fuel : nat) (db : DB) (self : Tag) (max_depth : option Z)
  : option (list Tag) :=
  collect_descendants fuel db max_depth self 0 [].

(** ** [TagTreeService.move_tag] *)

Inductive MoveMsg : Type :=
| MoveTagMissing      (* "tag does not exist" *)
| MoveParentMissing   (* "new parent tag does not exist" *)
| MoveCycle           (* "cannot move here, it would create a circular reference" *)
| MoveFailed          (* the [except Exception] branch, after rollback *)
| Moved.              (* "tag moved" *)

(** The foreign key [tags.parent_id -> tags.id]: a parent key that is not
    [NULL] names a stored row.  The empty string is not [NULL]. *)
Definition references_ok (db : DB) (t : Tag) : bool :=
  match parent_id t with
  | Some p => match get db p with Some _ => true | None => false end
  | None => true
  end.

Definition move_tag (fuel : nat) (db : DB) (tag_id : string)
    (new_parent_id : option string) (user_id : string) : option (bool * MoveMsg * DB) :=
  match get_active db tag_id with
  | None => Some (false, MoveTagMissing, db)
  | Some tag =>
      let commit (new_parent : option Tag) :=
        let new_level := match new_parent with
                         | Some np => level np + 1
                         | None => 0
                         end in
        let tag' := set_level new_level (set_parent_id new_parent_id tag) in
        let db1 := update_tag (id tag) (fun t => set_level new_level (set_parent_id new_parent_id t)) db in
        (* the session flushes the row before [update_path] loads [self.parent] *)
        if references_ok db1 tag' then
          match update_path fuel db1 tag' with
          | Some db2 => Some (true, Moved, db2)
          | None => None
          end
        else Some (false, MoveFailed, db) in
      match truthy_value new_parent_id with
      | Some pid =>
          match get_active db pid with
          | None => Some (false, MoveParentMissing, db)
          | Some new_parent =>
              match can_be_parent_of fuel db new_parent tag with
              | None => None
              | Some false => Some (false, MoveCycle, db)
              | Some true => commit (Some new_parent)
              end
          end
      | None => commit None
      end
  end.

(** ** [TagTreeService.create_tag] *)

(** [str.strip()]: the characters below 256 for which [str.isspace] holds
    (tab to carriage return, the four separators, the space, NEL and the
    no-break space). *)
Definition is_space (c : ascii) : bool :=
  let n := nat_of_ascii c in
  (((9 <=? n) && (n <=? 13)) || ((28 <=? n) && (n <=? 32))
   || (n =? 133) || (n =? 160))%nat.

Fixpoint lstrip (s : list ascii) : list ascii :=
  match s with
  | c :: s' => if is_space c then lstrip s' else s
  | [] => []
  end.

Definition strip (s : string) : string :=
  string_of_list_ascii (rev (lstrip (rev (lstrip (list_ascii_of_string s))))).

Inductive CreateMsg : Type :=
| CreateNameEmpty            (* "tag name must not be empty" *)
| CreateNameExists (n : string)  (* "tag 'n' already exists" *)
| CreateParentMissing        (* "parent tag does not exist" *)
| CreateIntegrityError       (* the [except IntegrityError] branch *)
| CreateFailed               (* the [except Exception] branch *)
| Created.                   (* "tag created" *)

(** [new_id] is the value drawn by the column default [str(uuid.uuid4())] when
    the row is flushed.  The [INSERT] of the flush raises [IntegrityError] on
    a primary key already present and on a [parent_id] that names no row, and
    a [DataError], caught by [except Exception], on a name longer than the
    100 characters of its column (a stripped name does not end in a space, so
    nothing is cut off silently).  Every failure rolls back.  A row in
    breach of both the key and the width is reported as the former; the two
    answers differ in their message only. *)
Definition create_tag (fuel : nat) (db : DB) (new_id : string)
    (name0 : string) (user_id : string) (parent_id0 : option string)
    (description0 name_en0 category0 domain0 : string) (is_abstract0 : bool)
    (aliases0 : list string) (properties0 : list (string * string))
  : option (bool * CreateMsg * option Tag * DB) :=
  if (name0 =? "") || (String.length (strip name0) =? 0)%nat
  then Some (false, CreateNameEmpty, None, db)
  else
    let name1 := strip name0 in
    match get_active_by_name db name1 with
    | Some _ => Some (false, CreateNameExists name1, None, db)
    | None =>
        let insert (level0 : Z) :=
          let tag := mkTag new_id name1 (Some name_en0) (Some description0) parent_id0
                           level0 None category0 domain0 is_abstract0 false active
                           500 0 0 aliases0 properties0 user_id in
          match get db new_id with
          | Some _ => Some (false, CreateIntegrityError, None, db)
          | None =>
              let db1 := mkDB (tags db ++ [tag]) (entry_tags db) in
              if (100 <? String.length name1)%nat
              then Some (false, CreateFailed, None, db)
              else if references_ok db1 tag then
                match update_path fuel db1 tag with
                | Some db2 => Some (true, Created, Some (refresh db2 tag), db2)
                | None => None
                end
              else Some (false, CreateIntegrityError, None, db)
          end in
        match truthy_value parent_id0 with
        | Some pid =>
            match get_active db pid with
            | None => Some (false, CreateParentMissing, None, db)
            | Some parent_tag => insert (level parent_tag + 1)
            end
        | None => insert 0
        end
    end.

(** ** Ordering and limiting query results *)

Section Sort.
Context {A : Type} (leb : A -> A -> bool).

Fixpoint insert_sorted (x : A) (l : list A) : list A :=
  match l with
  | [] => [x]
  | y :: l' => if leb x y then x :: l else y :: insert_sorted x l'
  end.

(** [ORDER BY]: a stable sort for the order [leb]. *)
Fixpoint sort_by (l : list A) : list A :=
  match l with
  | [] => []
  | x :: l' => insert_sorted x (sort_by l')
  end.
End Sort.

(** [.limit(n)]: PostgreSQL rejects a negative [LIMIT], and the service then
    answers the empty list from its [except] branch. *)
Definition limit_rows {A : Type} (limit : Z) (rows : list A) : list A :=
  if (limit <? 0)%Z then [] else firstn (Z.to_nat limit) rows.

(** [ORDER BY name] *)
Definition name_leb (a b : Tag) : bool := String.leb (name a) (name b).

(** [ORDER BY usage_count DESC, quality_score DESC, name] *)
Definition search_leb (a b : Tag) : bool :=
  if (usage_count b <? usage_count a)%Z then true
  else if (usage_count a <? usage_count b)%Z then false
  else if (quality_score b <? quality_score a)%Z then true
  else if (quality_score a <? quality_score b)%Z then false
  else String.leb (name a) (name b).

(** [ORDER BY usage_count DESC, quality_score DESC] *)
Definition suggestion_leb (a b : Tag) : bool :=
  if (usage_count b <? usage_count a)%Z then true
  else if (usage_count a <? usage_count b)%Z then false
  else (quality_score b <=? quality_score a)%Z.

(** [ORDER BY usage_count DESC, popularity_score DESC] *)
Definition popular_leb (a b : Tag) : bool :=
  if (usage_count b <? usage_count a)%Z then true
  else if (usage_count a <? usage_count b)%Z then false
  else (popularity_score b <=? popularity_score a)%Z.

(** ** [ILIKE] patterns *)

Definition lower (c : ascii) : ascii :=
  let n := nat_of_ascii c in
  if ((65 <=? n) && (n <=? 90))%nat then ascii_of_nat (n + 32) else c.

(** [LIKE]: [%] matches any run of characters, [_] any one character and a
    backslash quotes the character after it. *)
Fixpoint like (pattern : list ascii) : list ascii -> bool :=
  match pattern with
  | [] => fun s => match s with [] => true | _ :: _ => false end
  | c :: pattern' =>
      if Ascii.eqb c "%" then
        fix any (s : list ascii) : bool :=
          like pattern' s || match s with [] => false | _ :: s' => any s' end
      else if Ascii.eqb c "_" then
        fun s => match s with [] => false | _ :: s' => like pattern' s' end
      else if Ascii.eqb c "\" then
        match pattern' with
        | [] => fun _ => false
        | q :: pattern'' =>
            fun s => match s with
                     | [] => false
                     | x :: s' => Ascii.eqb q x && like pattern'' s'
                     end
        end
      else
        fun s => match s with
                 | [] => false
                 | x :: s' => Ascii.eqb c x && like pattern' s'
                 end
  end.

(** [column.ilike(pattern)]; [NULL ILIKE p] is not true. *)
Definition ilike (column : option string) (pattern : string) : bool :=
  match column with
  | Some s => like (map lower (list_ascii_of_string pattern))
                   (map lower (list_ascii_of_string s))
  | None => false
  end.

(** [s.strip('%')] *)
Fixpoint lstrip_percent (s : list ascii) : list ascii :=
  match s with
  | c :: s' => if Ascii.eqb c "%" then lstrip_percent s' else s
  | [] => []
  end.

Definition strip_percent (s : string) : string :=
  string_of_list_ascii
    (rev (lstrip_percent (rev (lstrip_percent (list_ascii_of_string s))))).

(** ** [TagTreeService.search_tags] and the other listings *)

(** The [or_(...)] clause of [search_tags] for the pattern [%keyword%]. *)
Definition keyword_match (keyword : string) (t : Tag) : bool :=
  let pattern := ("%" ++ keyword ++ "%")%string in
  ilike (Some (name t)) pattern
  || ilike (name_en t) pattern
  || ilike (description t) pattern
  || existsb (String.eqb (strip_percent pattern)) (aliases t).

Definition search_filter (keyword category0 domain0 : option string) (t : Tag) : bool :=
  is_active t
  && match truthy_value keyword with
     | Some k => keyword_match k t
     | None => true
     end
  && match truthy_value category0 with
     | Some c => category t =? c
     | None => true
     end
  && match truthy_value domain0 with
     | Some d => domain t =? d
     | None => true
     end.

(** The rows stand for their [to_dict()] serialisations. *)
Definition search_tags (db : DB) (keyword category0 domain0 : option string) (limit : Z)
  : list Tag :=
  limit_rows limit
    (sort_by search_leb (filter (search_filter keyword category0 domain0) (tags db))).

Definition get_tag_suggestions (db : DB) (partial_name : string) (limit : Z) : list Tag :=
  limit_rows limit
    (sort_by suggestion_leb
       (filter (fun t => is_active t && ilike (Some (name t)) (partial_name ++ "%")%string)
               (tags db))).

Definition get_popular_tags (db : DB) (limit : Z) : list Tag :=
  limit_rows limit (sort_by popular_leb (filter is_active (tags db))).

(** [GROUP BY category] with [count(id)], [ORDER BY count DESC]. *)
Definition count_category (c : string) (rows : list Tag) : Z :=
  Z.of_nat (List.length (filter (fun t => category t =? c) rows)).

Definition get_categories (db : DB) : list (string * Z) :=
  let rows := filter is_active (tags db) in
  sort_by (fun a b => (snd b <=? snd a)%Z)
          (map (fun c => (c, count_category c rows))
               (nodup string_dec (map category rows))).

(** ** [TagTreeService.get_tag_tree] *)

Record TagStats : Type := mkTagStats {
  children_count : Z;
  stats_usage_count : Z;
  total_descendants : Z
}.

(** A tree node: the row, its ['stats'] entry and its ['children'] entry,
    each absent when the key is absent. *)
Inductive TreeNode : Type :=
| Node (data : Tag) (stats : option TagStats) (node_children : option (list TreeNode)).

Definition node_data (n : TreeNode) : Tag :=
  match n with Node d _ _ => d end.

Definition node_children_of (n : TreeNode) : option (list TreeNode) :=
  match n with Node _ _ c => c end.

Definition active_children (db : DB) (t : Tag) : list Tag :=
  sort_by name_leb
    (filter (fun c => option_string_eqb (parent_id c) (id t) && is_active c) (tags db)).

(** [_get_tag_stats]: counts the taggings and, when the counter of the tag
    differs, overwrites it and calls [increment_usage].  The [DB] it is given
    and the one it answers are states of the session: the write is pending,
    and neither this function nor its callers commit it. *)
Definition get_tag_stats (fuel : nat) (db : DB) (tag : Tag) : option (TagStats * DB) :=
  let children_count0 :=
    Z.of_nat (List.length (filter (fun c => option_string_eqb (parent_id c) (id tag)
                                             && is_active c) (tags db))) in
  let usage := Z.of_nat (List.length (filter (fun e => tag_id e =? id tag) (entry_tags db))) in
  let db1 := if (usage_count tag =? usage)%Z then db
             else update_tag (id tag) (fun t => increment_usage (set_usage_count usage t)) db in
  match get_descendants fuel db1 (refresh db1 tag) None with
  | Some ds => Some (mkTagStats children_count0 usage (Z.of_nat (List.length ds)), db1)
  | None => None
  end.

(** [_build_tag_tree]: the node of [tag], with the nodes of its active
    children below it while [max_depth] is positive. *)
Fixpoint build_tag_tree (fuel : nat) (max_depth : nat) (db : DB) (tag : Tag)
    (include_stats : bool) : option (TreeNode * DB) :=
  let tag := refresh db tag in
  let with_children (st : option TagStats) (db1 : DB) :=
    match max_depth with
    | O => Some (Node tag st None, db1)
    | S depth' =>
        match collect (fun d child => build_tag_tree fuel depth' d child include_stats)
                      (active_children db1 tag) db1 with
        | Some (nodes, db2) => Some (Node tag st (Some nodes), db2)
        | None => None
        end
    end in
  if include_stats then
    match get_tag_stats fuel db tag with
    | Some (st, db1) => with_children (Some st) db1
    | None => None
    end
  else with_children None db.

(** The root query: the active tag [root_id] when one is given, and otherwise
    the active tags without a parent, by name. *)
Definition root_tags (db : DB) (root_id : option string) : list Tag :=
  match truthy_value root_id with
  | Some r => filter (fun t => (id t =? r) && is_active t) (tags db)
  | None => sort_by name_leb
              (filter (fun t => match parent_id t with None => true | Some _ => false end
                                && is_active t) (tags db))
  end.

(** [get_tag_tree] answers the nodes.  It does not commit: what
    [_get_tag_stats] wrote to the session is dropped with it, and the table
    after the call is the table before. *)
Definition get_tag_tree (fuel : nat) (db : DB) (root_id : option string) (max_depth : Z)
    (include_stats : bool) : option (list TreeNode * DB) :=
  match collect (fun d tag => build_tag_tree fuel (Z.to_nat max_depth) d tag include_stats)
                (root_tags db root_id) db with
  | Some (result, _) => Some (result, db)
  | None => None
  end.

(** ** [AITagMapper._score_candidates] *)

(** The exceptions that the modelled expressions raise. *)
Inductive PyError : Type := TypeError | ZeroDivisionError.

(** The numbers of the scoring: a Python [float], and the [decimal.Decimal]
    that a [Numeric] column loads as. *)
Inductive PyNum : Type :=
| PyFloat (q : Q)
| PyDecimal (q : Q).

(** [a / b].  A [Decimal] and a [float] do not mix: [Decimal.__truediv__] and
    [float.__rtruediv__] both answer [NotImplemented], and the division raises
    [TypeError]. *)
Definition py_truediv (a b : PyNum) : PyNum + PyError :=
  match a, b with
  | PyFloat x, PyFloat y =>
      if Qeq_bool y 0 then inr ZeroDivisionError else inl (PyFloat (x / y))
  | PyDecimal x, PyDecimal y =>
      if Qeq_bool y 0 then inr ZeroDivisionError else inl (PyDecimal (x / y))
  | PyFloat _, PyDecimal _ | PyDecimal _, PyFloat _ => inr TypeError
  end.

(** Python [min(a, b)] and [max(a, b)]: the first argument unless the second
    is strictly smaller (greater). *)
Definition py_min (a b : Q) : Q := if Qlt_le_dec b a then b else a.
Definition py_max (a b : Q) : Q := if Qlt_le_dec a b then b else a.

(** The score of one candidate: its confidence (a [float]), scaled by the
    usage of the resolved tag (capped at 1.2), and then
    [score *= (parent_tag.quality_score / 10.0)], where [quality_score] is the
    [Decimal] of a [Numeric(3,2)] column and [10.0] a [float]. *)
Definition candidate_score (confidence : Q) (parent_tag : Tag) : Q + PyError :=
  let score := confidence in
  let score := if (0 <? usage_count parent_tag)%Z
               then (score * py_min (12 # 10) (1 + inject_Z (usage_count parent_tag) / 100))%Q
               else score in
  match py_truediv (PyDecimal (inject_Z (quality_score parent_tag) / 100)) (PyFloat 10) with
  | inl (PyFloat factor) => inl (score * factor)%Q
  | inl (PyDecimal _) => inr TypeError   (* [float *= Decimal] does not mix either *)
  | inr e => inr e
  end.

(** The dictionary [scored], keyed by the resolved tag, in insertion order. *)
Fixpoint scored_put (parent_tag : Tag) (score : Q) (scored : list (Tag * Q))
  : list (Tag * Q) :=
  match scored with
  | [] => [(parent_tag, score)]
  | (t, s) :: scored' =>
      if id t =? id parent_tag then (t, py_max s score) :: scored'
      else (t, s) :: scored_put parent_tag score scored'
  end.

(** The [for parent_name, confidence in candidates:] loop; an exception
    raised in its body leaves the loop and the function. *)
Fixpoint score_loop (db : DB) (candidates : list (string * Q)) (scored : list (Tag * Q))
  : list (Tag * Q) + PyError :=
  match candidates with
  | [] => inl scored
  | (parent_name, confidence) :: candidates' =>
      match get_active_by_name db parent_name with
      | None => score_loop db candidates' scored
      | Some parent_tag =>
          match candidate_score confidence parent_tag with
          | inl score => score_loop db candidates' (scored_put parent_tag score scored)
          | inr e => inr e
          end
      end
  end.

(** [sorted(scored.items(), key=lambda x: x[1], reverse=True)] when the loop
    ends; [_score_candidates] has no [try] of its own. *)
Definition score_candidates (db : DB) (candidates : list (string * Q))
    (tag_name description0 : string) : list (Tag * Q) + PyError :=
  match score_loop db candidates [] with
  | inl scored =>
      inl (sort_by (fun a b => if Qlt_le_dec (snd a) (snd b) then false else true) scored)
  | inr e => inr e
  end.

(** ** Sample rows used in the worked examples *)

(** A row as [create_tag] leaves it, with the given id, name, parent, level,
    path, status and usage count. *)
Definition sample_tag (i n : string) (p : option string) (lv : Z) (pth : string)
    (st : Status) (usage : Z) : Tag :=
  mkTag i n (Some "") (Some "") p lv (Some pth) "general" "general" false false st
        500 usage (usage * 10) [] [] "u1".

(** Two active roots used twice and three times, and a child of the first. *)
Definition merge_db : DB :=
  mkDB [ sample_tag "s" "Feline" None 0 "Feline" active 2;
         sample_tag "t" "Cat" None 0 "Cat" active 3;
         sample_tag "c" "Kitten" (Some "s") 1 "Feline/Kitten" active 0 ]
       [ mkEntryTag "e1" "s"; mkEntryTag "e2" "s"; mkEntryTag "e3" "t" ].

(** Two active roots, the first with a custom property. *)
Definition merge_props_db : DB :=
  mkDB [ set_properties [("origin", "import")]
                        (sample_tag "s" "Feline" None 0 "Feline" active 2);
         sample_tag "t" "Cat" None 0 "Cat" active 3 ]
       [ mkEntryTag "e1" "s" ].

(** ** The orders named by the specification *)

(** "usage_count descending, then quality_score descending, then name
    ascending", read as a lexicographic order on rows. *)
Definition search_order (a b : Tag) : Prop :=
  (usage_count a > usage_count b)%Z \/
  (usage_count a = usage_count b /\
   ((quality_score a > quality_score b)%Z \/
    (quality_score a = quality_score b /\ String.leb (name a) (name b) = true))).

(** "An active tag that satisfies the optional category and domain filters". *)
Definition active_in_category_domain (category0 domain0 : option string) (t : Tag) : bool :=
  Status_eqb (status t) active
  && match category0 with
     | Some c => (c =? "") || (category t =? c)
     | None => true
     end
  && match domain0 with
     | Some d => (d =? "") || (domain t =? d)
     | None => true
     end.

(** Three tags whose names contain "cat", with equal counters, stored out of
    name order, and a deprecated tag that matches as well. *)
Definition search_db : DB :=
  mkDB [ sample_tag "3" "Category" None 0 "Category" active 0;
         sample_tag "2" "Catfish" None 0 "Catfish" active 0;
         sample_tag "4" "Catalog" None 0 "Catalog" deprecated 9;
         sample_tag "1" "Cat" None 0 "Cat" active 0 ]
       [].

(** One existing parent "Animal" (quality 8.00, used 10 times) and a merged
    tag of the same name. *)
Definition animal_tag : Tag :=
  mkTag "a" "Animal" None None None 0 (Some "Animal") "biological" "general"
        false true active 800 10 100 [] [] "u1".

Definition scoring_db : DB :=
  mkDB [ mkTag "m" "Animal" None None None 0 (Some "Animal") "biological" "general"
               false false merged 500 0 0 [] [("merged_to", "a")] "u1";
         animal_tag;
         mkTag "p" "Plant" None None None 0 (Some "Plant") "biological" "general"
               false true active 500 0 0 [] [] "u1" ]
       [].

(** ** Reading a tree answer *)

(** Every row that appears in a node or below it. *)
Fixpoint node_tags (n : TreeNode) : list Tag :=
  match n with
  | Node d _ ch =>
      d :: match ch with
           | Some l => flat_map node_tags l
           | None => []
           end
  end.

(** A node expanded to [depth] levels: at depth 0 it has no ['children'] key,
    and otherwise its children are its active child tags in name order, each
    expanded to [depth - 1] levels. *)
Fixpoint expanded (db : DB) (depth : nat) (n : TreeNode) : Prop :=
  match depth with
  | O => node_children_of n = None
  | S depth' =>
      exists l, node_children_of n = Some l /\
                map (fun c => id (node_data c)) l
                = map id (active_children db (node_data n)) /\
                Forall (expanded db depth') l
  end.

(** Primary keys are unique. *)
Definition pk_unique (db : DB) : Prop := NoDup (map id (tags db)).

(** A root "Animal" with a child "Cat" and a grandchild "Kitten", a second
    root "Plant", and a deprecated root "Mineral". *)
Definition tree_db : DB :=
  mkDB [ sample_tag "p" "Plant" None 0 "Plant" active 0;
         sample_tag "a" "Animal" None 0 "Animal" active 0;
         sample_tag "c" "Cat" (Some "a") 1 "Animal/Cat" active 0;
         sample_tag "k" "Kitten" (Some "c") 2 "Animal/Cat/Kitten" active 0;
         sample_tag "m" "Mineral" None 0 "Mineral" deprecated 0 ]
       [].

(** Two states of a row, or of the table, that agree on identity, name,
    parent and status. *)
Definition same_row (t t' : Tag) : Prop :=
  id t' = id t /\ name t' = name t /\ parent_id t' = parent_id t /\ status t' = status t.

Definition same_skeleton (d d' : DB) : Prop := Forall2 same_row (tags d) (tags d').

(** ** Ancestors *)

(** The id of the row that [self.parent] loads for the tag [i]. *)
Definition parent_ref (db : DB) (i : string) : option string :=
  match get db i with
  | Some t => option_map id (parent db t)
  | None => None
  end.

(** [ancestor par a i]: [a] is reached from [i] by one or more parent steps. *)
Inductive ancestor (par : string -> option string) : string -> string -> Prop :=
| ancestor_parent i p : par i = Some p -> ancestor par p i
| ancestor_step i p a : par i = Some p -> ancestor par a p -> ancestor par a i.

(** [a] is an ancestor of [i] in the table; [i] is then a descendant of [a]. *)
Definition is_ancestor (db : DB) (a i : string) : Prop := ancestor (parent_ref db) a i.

(** The parent function after the tag [i0] is given the parent [v]. *)
Definition repoint (par : string -> option string) (i0 : string) (v : option string)
  : string -> option string :=
  fun i => if i =? i0 then v else par i.

(** ** Histories of create and move operations *)

(** What [str(uuid.uuid4())] returns has 36 characters. *)
Definition is_uuid (s : string) : Prop := String.length s = 36%nat.

(** The tables reached from the empty [tags] table by calls of [create_tag]
    and [move_tag] that return. *)
Inductive reachable : DB -> Prop :=
| reach_empty es : reachable (mkDB [] es)
| reach_create db fuel new_id name0 user_id parent_id0 description0 name_en0
    category0 domain0 is_abstract0 aliases0 properties0 ok msg tag db' :
    reachable db -> is_uuid new_id ->
    create_tag fuel db new_id name0 user_id parent_id0 description0 name_en0
               category0 domain0 is_abstract0 aliases0 properties0
    = Some (ok, msg, tag, db') ->
    reachable db'
| reach_move db fuel tag_id0 new_parent_id user_id ok msg db' :
    reachable db ->
    move_tag fuel db tag_id0 new_parent_id user_id = Some (ok, msg, db') ->
    reachable db'.

(** What every reachable table satisfies. *)
Record well_formed (db : DB) : Prop := mk_well_formed {
  wf_pk : pk_unique db;
  wf_ids : forall t, In t (tags db) -> id t <> "";
  wf_active : forall t, In t (tags db) -> status t = active;
  wf_refs : forall t p, In t (tags db) -> parent_id t = Some p ->
                        p = "" \/ get db p <> None;
  wf_acyclic : forall i, ~ is_ancestor db i i
}.

(** The scenario of the specification: a root "Animal" and its child "Cat",
    created in this order with the keys drawn for them. *)
Definition animal_id : string := "0a0a0a0a-0000-4000-8000-000000000001".
Definition cat_id : string := "0c0c0c0c-0000-4000-8000-000000000002".

Definition animal_row : Tag :=
  mkTag animal_id "Animal" (Some "") (Some "") None 0 (Some "Animal")
        "biological" "general" false false active 500 0 0 [] [] "u1".

Definition cat_row : Tag :=
  mkTag cat_id "Cat" (Some "") (Some "") (Some animal_id) 1 (Some "Animal/Cat")
        "biological" "general" false false active 500 0 0 [] [] "u1".

Definition scenario_db : DB := mkDB [animal_row; cat_row] [].

(** The same table after "Kitten" has been created under "Cat". *)
Definition kitten_id : string := "0d0d0d0d-0000-4000-8000-000000000003".

Definition kitten_row : Tag :=
  mkTag kitten_id "Kitten" (Some "") (Some "") (Some cat_id) 2 (Some "Animal/Cat/Kitten")
        "biological" "general" false false active 500 0 0 [] [] "u1".

Definition family_db : DB := mkDB [animal_row; cat_row; kitten_row] [].



(** ** Counting taggings *)

(** [EntryTag.query.filter_by(tag_id=i).count()] *)
Definition taggings (db : DB) (i : string) : nat :=
  List.length (filter (fun e => tag_id e =? i) (entry_tags db)).

(** The primary key of an [entry_tags] row. *)
Definition entry_key (e : EntryTag) : string * string := (entry_id e, tag_id e).

(** ** Levels and paths as the parent gives them *)

(** [parent.level + 1], or 0 without a parent. *)
Definition expected_level (db : DB) (t : Tag) : Z :=
  match parent db t with
  | Some p => level p + 1
  | None => 0
  end.

(** [parent.path + "/" + name], or the name without a parent. *)
Definition expected_path (db : DB) (t : Tag) : string :=
  match parent db t with
  | Some p => (path_str (path p) ++ "/" ++ name t)%string
  | None => name t
  end.

Definition level_path_consistent (db : DB) (t : Tag) : Prop :=
  level t = expected_level db t /\ path t = Some (expected_path db t).

(** Keys are unique and not empty, and a parent key that is not empty names a
    stored row. *)
Definition keys_ok (db : DB) : Prop :=
  pk_unique db /\
  (forall t, In t (tags db) -> id t <> "") /\
  (forall t p, In t (tags db) -> parent_id t = Some p -> p = "" \/ get db p <> None).

(** The tables built from the empty one by calls of [create_tag] alone. *)
Inductive created : DB -> Prop :=
| created_empty es : created (mkDB [] es)
| created_step db fuel new_id name0 user_id parent_id0 description0 name_en0
    category0 domain0 is_abstract0 aliases0 properties0 ok msg tag db' :
    created db -> is_uuid new_id ->
    create_tag fuel db new_id name0 user_id parent_id0 description0 name_en0
               category0 domain0 is_abstract0 aliases0 properties0
    = Some (ok, msg, tag, db') ->
    created db'.

(** ** Subtrees *)

(** [x] is the tag [r] or one of its descendants. *)
Definition in_subtree (db : DB) (r x : string) : Prop := x = r \/ is_ancestor db r x.

(** ** [Tag.get_full_path] *)

(** The [while current:] loop of [get_full_path], started at [current]: the
    names met on the way up, the nearest first. *)
Fixpoint path_parts_from (fuel : nat) (db : DB) (current : option Tag)
  : option (list string) :=
  match current with
  | None => Some []
  | Some c =>
      match fuel with
      | O => None
      | S fuel' =>
          match path_parts_from fuel' db (parent db c) with
          | Some l => Some (name c :: l)
          | None => None
          end
      end
  end.

(** ['/'.join(reversed(path_parts))] *)
Definition full_path_loop (fuel : nat) (db : DB) (self : Tag) : option string :=
  option_map (fun parts => String.concat "/" (rev parts))
             (path_parts_from fuel db (Some self)).

(** [get_full_path]: the stored path when it is not empty, and the path built
    by the loop otherwise. *)
Definition get_full_path (fuel : nat) (db : DB) (self : Tag) : option string :=
  if truthy (path self) then path self else full_path_loop fuel db self.

(** * Properties *)

Lemma Status_eqb_eq a b : Status_eqb a b = true <-> a = b.
Proof. destruct a, b; simpl; split; intro H; try reflexivity; discriminate H. Qed.

(** ** Rows and updates *)

Lemma get_active_In db i t :
  get_active db i = Some t -> In t (tags db) /\ id t = i /\ status t = active.
Proof.
  unfold get_active. intro H. apply find_some in H. destruct H as [Hin Hb].
  apply andb_true_iff in Hb. destruct Hb as [Hi Ha].
  apply String.eqb_eq in Hi. apply Status_eqb_eq in Ha. auto.
Qed.

Lemma get_In db i t : get db i = Some t -> In t (tags db) /\ id t = i.
Proof.
  unfold get. intro H. apply find_some in H. destruct H as [Hin Hb].
  apply String.eqb_eq in Hb. auto.
Qed.

Lemma get_active_by_name_In db n t :
  get_active_by_name db n = Some t -> In t (tags db) /\ name t = n /\ status t = active.
Proof.
  unfold get_active_by_name. intro H. apply find_some in H. destruct H as [Hin Hb].
  apply andb_true_iff in Hb. destruct Hb as [Hi Ha].
  apply String.eqb_eq in Hi. apply Status_eqb_eq in Ha. auto.
Qed.

(** ** Merging ([merge_tags]) *)

Lemma merge_target_usage_count s t :
  usage_count (merge_target s t) = usage_count t + usage_count s + 1.
Proof. unfold merge_target. destruct (aliases s); reflexivity. Qed.

Lemma merge_target_fields s t :
  id (merge_target s t) = id t /\ parent_id (merge_target s t) = parent_id t /\
  level (merge_target s t) = level t /\ path (merge_target s t) = path t /\
  name (merge_target s t) = name t /\ status (merge_target s t) = status t.
Proof. unfold merge_target. destruct (aliases s); repeat split; reflexivity. Qed.

Lemma merge_target_shape s t :
  exists u p a,
    merge_target s t = set_aliases a (set_popularity_score p (set_usage_count u t)).
Proof.
  exists (usage_count t + usage_count s + 1),
         ((usage_count t + usage_count s + 1) * 10).
  unfold merge_target. destruct (aliases s) as [|x xs].
  - exists (aliases t). reflexivity.
  - exists (set_union (aliases t) (x :: xs)). reflexivity.
Qed.

(** What a successful merge does, row by row. *)
Definition merged_row (source_tag target_tag : Tag) (t : Tag) : Tag :=
  if id t =? id source_tag then merge_source (id target_tag) t
  else if id t =? id target_tag then merge_target source_tag t
  else t.

Lemma merge_tags_success db src tgt uid m db' :
  merge_tags db src tgt uid = (true, m, db') ->
  exists source_tag target_tag,
    get_active db src = Some source_tag /\
    get_active db tgt = Some target_tag /\
    id source_tag <> id target_tag /\
    m = MergedInto (name target_tag) /\
    tags db' = map (merged_row source_tag target_tag) (tags db) /\
    entry_tags db' = map (retag src tgt) (entry_tags db).
Proof.
  unfold merge_tags.
  destruct (get_active db src) as [s|] eqn:Hs; [|discriminate].
  destruct (get_active db tgt) as [t|] eqn:Ht; [|discriminate].
  destruct (id s =? id t) eqn:Hst; [discriminate|].
  destruct (retag_conflict src tgt (entry_tags db)); [discriminate|].
  intro H. inversion H; subst; clear H.
  exists s, t. apply String.eqb_neq in Hst.
  destruct (get_active_In _ _ _ Ht) as (_ & Hit & _).
  repeat split; auto.
  simpl. rewrite map_map. apply map_ext. intro a. unfold merged_row.
  destruct (id a =? id t) eqn:Hat.
  - apply String.eqb_eq in Hat.
    assert (Hm : id (merge_target s a) = id a)
      by (unfold merge_target; destruct (aliases s); reflexivity).
    rewrite Hm, Hat.
    assert (Hne : (id t =? id s) = false)
      by (apply String.eqb_neq; congruence).
    rewrite Hne. reflexivity.
  - destruct (id a =? id s); [rewrite Hit|]; reflexivity.
Qed.

(** After a successful merge the stored counter of the target is the sum of
    the two counters plus the one added by [increment_usage]. *)
Lemma merge_tags_usage_count db src tgt uid m db' :
  merge_tags db src tgt uid = (true, m, db') ->
  exists source_tag,
    get_active db src = Some source_tag /\
    Forall2 (fun t t' => id t = tgt ->
               usage_count t' = usage_count t + usage_count source_tag + 1)
            (tags db) (tags db').
Proof.
  intro H. apply merge_tags_success in H.
  destruct H as (s & t & Hs & Ht & Hne & _ & Htags & _).
  exists s. split; [exact Hs|]. rewrite Htags.
  destruct (get_active_In _ _ _ Ht) as (_ & Hit & _).
  clear Htags. induction (tags db) as [|a l IH]; simpl; constructor; auto.
  intro Ha. unfold merged_row.
  assert (E1 : (id a =? id s) = false) by (apply String.eqb_neq; congruence).
  assert (E2 : (id a =? id t) = true) by (apply String.eqb_eq; congruence).
  rewrite E1, E2. apply merge_target_usage_count.
Qed.

(** C1 (code defect). Merging a source used twice into a target used three
    times succeeds and leaves the target's [usage_count] at 6, not at the sum
    5: [merge_tags] adds the source's count and then calls
    [increment_usage], which adds one more. *)
Theorem merge_tags_usage_count_off_by_one :
  exists m db' target',
    merge_tags merge_db "s" "t" "u1" = (true, m, db') /\
    option_map usage_count (get_active merge_db "s") = Some 2 /\
    option_map usage_count (get_active merge_db "t") = Some 3 /\
    get db' "t" = Some target' /\
    usage_count target' = 6 /\
    usage_count target' <> 3 + 2.
Proof.
  eexists _, _, _. repeat split; try reflexivity. discriminate.
Qed.

(** C9. A successful merge leaves every row in place; no row changes its
    [parent_id], [level], [path] or [name] (so a child of the source still
    points at the source); only the source changes its [status]; the target
    differs from its old state in [usage_count], [popularity_score] and
    [aliases] at most; and every other row is untouched. *)
Theorem merge_tags_frame db src tgt uid m db' :
  merge_tags db src tgt uid = (true, m, db') ->
  Forall2 (fun t t' =>
             id t' = id t /\
             parent_id t' = parent_id t /\ level t' = level t /\
             path t' = path t /\ name t' = name t /\
             (id t <> src -> status t' = status t) /\
             (id t = tgt ->
              exists u p a,
                t' = set_aliases a (set_popularity_score p (set_usage_count u t))) /\
             (id t <> src -> id t <> tgt -> t' = t))
          (tags db) (tags db').
Proof.
  intro H. apply merge_tags_success in H.
  destruct H as (s & t & Hs & Ht & Hne & _ & Htags & _).
  rewrite Htags. clear Htags.
  destruct (get_active_In _ _ _ Hs) as (_ & His & _).
  destruct (get_active_In _ _ _ Ht) as (_ & Hit & _).
  induction (tags db) as [|a l IH]; simpl; constructor; auto.
  unfold merged_row.
  destruct (id a =? id s) eqn:E1; [|destruct (id a =? id t) eqn:E2].
  - apply String.eqb_eq in E1. unfold merge_source. simpl.
    destruct (properties a); repeat split; try reflexivity; intros; congruence.
  - apply String.eqb_eq in E2.
    destruct (merge_target_fields s a) as (F1 & F2 & F3 & F4 & F5 & F6).
    repeat split; auto.
    + intros _. apply merge_target_shape.
    + intros _ Hn. congruence.
  - apply String.eqb_neq in E1. apply String.eqb_neq in E2.
    repeat split; try reflexivity; intros; congruence.
Qed.

Lemma merge_tags_frame_witness :
  exists m db', merge_tags merge_db "s" "t" "u1" = (true, m, db') /\
  Forall2 (fun t t' =>
             id t' = id t /\
             parent_id t' = parent_id t /\ level t' = level t /\
             path t' = path t /\ name t' = name t /\
             (id t <> "s" -> status t' = status t) /\
             (id t = "t" ->
              exists u p a,
                t' = set_aliases a (set_popularity_score p (set_usage_count u t))) /\
             (id t <> "s" -> id t <> "t" -> t' = t))
          (tags merge_db) (tags db').
Proof.
  eexists _, _. split; [reflexivity|].
  eapply (merge_tags_frame merge_db "s" "t" "u1"). reflexivity.
Defined.

(** ** Sorting *)

Section SortFacts.
Context {A : Type} (leb : A -> A -> bool).
Hypothesis leb_total : forall a b, leb a b = true \/ leb b a = true.
Hypothesis leb_trans : forall a b c, leb a b = true -> leb b c = true -> leb a c = true.

Lemma insert_sorted_perm x l : Permutation (insert_sorted leb x l) (x :: l).
Proof.
  induction l as [|y l IH]; simpl.
  - apply Permutation_refl.
  - destruct (leb x y).
    + apply Permutation_refl.
    + eapply Permutation_trans; [apply perm_skip, IH | apply perm_swap].
Qed.

Lemma sort_by_perm l : Permutation (sort_by leb l) l.
Proof.
  induction l as [|x l IH]; simpl.
  - apply perm_nil.
  - eapply Permutation_trans; [apply insert_sorted_perm | apply perm_skip, IH].
Qed.

Lemma insert_sorted_sorted x l :
  StronglySorted (fun a b => leb a b = true) l ->
  StronglySorted (fun a b => leb a b = true) (insert_sorted leb x l).
Proof.
  induction 1 as [|y l Hs IH Hy]; simpl.
  - constructor; constructor.
  - destruct (leb x y) eqn:E.
    + constructor; [constructor; assumption|].
      constructor; [exact E|].
      rewrite Forall_forall in *. intros z Hz. eapply leb_trans; eauto.
    + constructor; [exact IH|].
      rewrite Forall_forall in *. intros z Hz.
      apply (Permutation_in _ (insert_sorted_perm x l)) in Hz.
      destruct Hz as [<-|Hz]; [|auto].
      destruct (leb_total x y) as [H|H]; congruence.
Qed.

Lemma sort_by_sorted l : StronglySorted (fun a b => leb a b = true) (sort_by leb l).
Proof.
  induction l as [|x l IH]; simpl.
  - constructor.
  - apply insert_sorted_sorted, IH.
Qed.
End SortFacts.

Lemma StronglySorted_firstn {A} (R : A -> A -> Prop) n l :
  StronglySorted R l -> StronglySorted R (firstn n l).
Proof.
  intro H. revert n. induction H as [|x l Hs IH Hx]; intro n.
  - rewrite firstn_nil. constructor.
  - destruct n; simpl; constructor; auto.
    rewrite Forall_forall in *. intros y Hy. apply Hx.
    eapply (In_nth_error) in Hy. destruct Hy as [k Hk].
    clear - Hk. revert k n Hk. induction l as [|z l IHl]; intros k n Hk.
    + rewrite firstn_nil in Hk. destruct k; discriminate.
    + destruct n; [destruct k; discriminate|]. destruct k; simpl in *.
      * left. congruence.
      * right. eauto.
Qed.

Lemma StronglySorted_impl {A} (R S : A -> A -> Prop) l :
  (forall a b, R a b -> S a b) -> StronglySorted R l -> StronglySorted S l.
Proof.
  intros HRS H. induction H; constructor; auto.
  eapply Forall_impl; [|eassumption]. auto.
Qed.

Lemma limit_rows_firstn {A} limit (rows : list A) :
  limit_rows limit rows = firstn (Z.to_nat limit) rows.
Proof.
  unfold limit_rows. destruct (limit <? 0)%Z eqn:E; [|reflexivity].
  apply Z.ltb_lt in E. replace (Z.to_nat limit) with 0%nat by lia. reflexivity.
Qed.

Lemma limit_rows_length {A} limit (rows : list A) :
  (Z.of_nat (List.length (limit_rows limit rows)) <= Z.max 0 limit)%Z.
Proof.
  rewrite limit_rows_firstn, length_firstn. lia.
Qed.

Lemma limit_rows_incl {A} limit (rows : list A) x :
  In x (limit_rows limit rows) -> In x rows.
Proof.
  rewrite limit_rows_firstn. rewrite <- (firstn_skipn (Z.to_nat limit) rows) at 2.
  intro H. apply in_or_app. now left.
Qed.

(** ** The order of names and the search order *)

Lemma string_leb_trans a b c :
  String.leb a b = true -> String.leb b c = true -> String.leb a c = true.
Proof.
  unfold String.leb. revert b c.
  induction a as [|x a IH]; intros [|y b] [|z c]; simpl; try easy.
  unfold Ascii.compare.
  destruct (N.compare_spec (N_of_ascii x) (N_of_ascii y)) as [E1|E1|E1];
    destruct (N.compare_spec (N_of_ascii y) (N_of_ascii z)) as [E2|E2|E2];
    destruct (N.compare_spec (N_of_ascii x) (N_of_ascii z)) as [E3|E3|E3];
    try lia; try easy; intros; eauto.
Qed.

Lemma search_leb_order a b : search_leb a b = true <-> search_order a b.
Proof.
  unfold search_leb, search_order.
  destruct (usage_count b <? usage_count a)%Z eqn:E1;
    [apply Z.ltb_lt in E1; split; [intros _; left; lia | reflexivity]|].
  apply Z.ltb_ge in E1.
  destruct (usage_count a <? usage_count b)%Z eqn:E2;
    [apply Z.ltb_lt in E2; split; [discriminate | intros [H|[H _]]; lia]|].
  apply Z.ltb_ge in E2.
  destruct (quality_score b <? quality_score a)%Z eqn:E3;
    [apply Z.ltb_lt in E3; split; [intros _; right; split; [lia|left; lia] | reflexivity]|].
  apply Z.ltb_ge in E3.
  destruct (quality_score a <? quality_score b)%Z eqn:E4;
    [apply Z.ltb_lt in E4; split; [discriminate | intros [H|[_ [H|[H _]]]]; lia]|].
  apply Z.ltb_ge in E4.
  split.
  - intro H. right. split; [lia|]. right. split; [lia|exact H].
  - intros [H|[_ [H|[_ H]]]]; try lia. exact H.
Qed.

Lemma search_leb_total a b : search_leb a b = true \/ search_leb b a = true.
Proof.
  rewrite !search_leb_order. unfold search_order.
  destruct (Z.lt_trichotomy (usage_count a) (usage_count b)) as [H|[H|H]];
    [right; left; lia| |left; left; lia].
  destruct (Z.lt_trichotomy (quality_score a) (quality_score b)) as [H'|[H'|H']];
    [right; right; split; [lia|left; lia]| |left; right; split; [lia|left; lia]].
  destruct (String.leb_total (name a) (name b)) as [L|L];
    [left|right]; right; (split; [lia|]); right; (split; [lia|exact L]).
Qed.

Lemma search_leb_trans a b c :
  search_leb a b = true -> search_leb b c = true -> search_leb a c = true.
Proof.
  rewrite !search_leb_order. unfold search_order.
  intros [H1|[H1 [H1'|[H1' L1]]]] [H2|[H2 [H2'|[H2' L2]]]];
    try (left; lia); try (right; split; [lia|]; left; lia).
  right. split; [lia|]. right. split; [lia|]. eapply string_leb_trans; eauto.
Qed.

(** ** Searching ([search_tags]) *)


Example search_cat_scenario :
  map name (search_tags search_db (Some "cat") None None 5) = ["Cat"; "Category"; "Catfish"].
Proof. reflexivity. Qed.

Lemma search_filter_no_keyword keyword category0 domain0 t :
  truthy keyword = false ->
  search_filter keyword category0 domain0 t = active_in_category_domain category0 domain0 t.
Proof.
  intro Hk. unfold search_filter, active_in_category_domain, truthy_value, is_active.
  rewrite Hk, andb_true_r.
  destruct category0 as [c|], domain0 as [d|]; simpl;
    try destruct (c =? ""); try destruct (d =? ""); reflexivity.
Qed.

(** C10. With an empty or absent keyword [search_tags] answers as for any
    other call: the keyword clause is skipped, and the answer is the first
    [limit] rows of the active tags that pass the category and domain filters,
    arranged in the search order. *)
Theorem search_tags_empty_keyword db category0 domain0 limit :
  search_tags db (Some "") category0 domain0 limit
    = search_tags db None category0 domain0 limit /\
  exists rows,
    search_tags db None category0 domain0 limit = firstn (Z.to_nat limit) rows /\
    StronglySorted search_order rows /\
    Permutation rows (filter (active_in_category_domain category0 domain0) (tags db)).
Proof.
  assert (E : forall k, truthy k = false ->
            filter (search_filter k category0 domain0) (tags db)
            = filter (active_in_category_domain category0 domain0) (tags db)).
  { intros k Hk. apply filter_ext. intro t. now apply search_filter_no_keyword. }
  unfold search_tags. rewrite !E by reflexivity. split; [reflexivity|].
  exists (sort_by search_leb (filter (active_in_category_domain category0 domain0) (tags db))).
  split; [apply limit_rows_firstn|]. split.
  - eapply StronglySorted_impl; [intros a b; apply search_leb_order|].
    apply sort_by_sorted; [apply search_leb_total | apply search_leb_trans].
  - apply sort_by_perm.
Qed.

Example search_without_keyword :
  map name (search_tags search_db None (Some "general") None 2) = ["Cat"; "Category"].
Proof. reflexivity. Qed.

(** ** Scoring candidates ([_score_candidates]) *)

(** The quality score of a stored tag is a [Decimal], the divisor a [float]:
    no candidate that resolves gets a score. *)
Lemma candidate_score_raises confidence parent_tag :
  candidate_score confidence parent_tag = inr TypeError.
Proof. reflexivity. Qed.

Lemma score_loop_unresolved db candidates scored :
  Forall (fun c => get_active_by_name db (fst c) = None) candidates ->
  score_loop db candidates scored = inl scored.
Proof.
  induction 1 as [|[n c] cs Hc _ IH]; simpl; [reflexivity|].
  simpl in Hc. now rewrite Hc.
Qed.

Lemma score_loop_resolved db candidates scored :
  Exists (fun c => get_active_by_name db (fst c) <> None) candidates ->
  score_loop db candidates scored = inr TypeError.
Proof.
  induction 1 as [[n c] cs Hc|[n c] cs _ IH]; simpl in *.
  - destruct (get_active_by_name db n) as [t|]; [reflexivity|congruence].
  - destruct (get_active_by_name db n) as [t|]; [reflexivity|exact IH].
Qed.

(** C4 (code defect). "Animal" is an active tag of [scoring_db].  Given two
    nominations of it, at confidences 0.9 and 0.3, [_score_candidates] returns
    no score at all, neither the maximum nor the sum: the first nomination
    already raises [TypeError] at [parent_tag.quality_score / 10.0], before
    the line that would keep the maximum is reached, and so does a single
    nomination. *)
Theorem score_candidates_raises_type_error :
  get_active_by_name scoring_db "Animal" = Some animal_tag /\
  score_candidates scoring_db [("Animal", 9 # 10); ("Animal", 3 # 10)] "Cat" ""
    = inr TypeError /\
  score_candidates scoring_db [("Animal", 9 # 10)] "Cat" "" = inr TypeError /\
  forall scored,
    score_candidates scoring_db [("Animal", 9 # 10); ("Animal", 3 # 10)] "Cat" ""
    <> inl scored.
Proof.
  repeat split; try reflexivity. intros scored H. discriminate H.
Qed.

(** ** Loops with an invariant *)

Lemma for_each_inv {A S} (body : S -> A -> option S) (I : S -> Prop) xs :
  forall s s',
    I s ->
    (forall x s0 s1, In x xs -> I s0 -> body s0 x = Some s1 -> I s1) ->
    for_each body xs s = Some s' -> I s'.
Proof.
  induction xs as [|x xs IH]; simpl; intros s s' Hs Hstep H.
  - now injection H as <-.
  - destruct (body s x) as [s1|] eqn:E; [|discriminate].
    apply (IH s1 s'); eauto.
Qed.

Lemma collect_inv {A B S} (body : S -> A -> option (B * S))
    (I : S -> Prop) (R : A -> B -> Prop) xs :
  forall s bs s',
    I s ->
    (forall x s0 b s1, In x xs -> I s0 -> body s0 x = Some (b, s1) -> R x b /\ I s1) ->
    collect body xs s = Some (bs, s') -> Forall2 R xs bs /\ I s'.
Proof.
  induction xs as [|x xs IH]; simpl; intros s bs s' Hs Hstep H.
  - injection H as <- <-. split; [constructor|exact Hs].
  - destruct (body s x) as [[b s1]|] eqn:E; [|discriminate].
    destruct (collect body xs s1) as [[bs' s2]|] eqn:E'; [|discriminate].
    injection H as <- <-.
    destruct (Hstep x s b s1 (or_introl eq_refl) Hs E) as [HR Hs1].
    assert (Hstep' : forall y s0 b0 s3, In y xs -> I s0 -> body s0 y = Some (b0, s3) ->
                                         R y b0 /\ I s3)
      by (intros y s0 b0 s3 Hy; apply Hstep; now right).
    destruct (IH s1 bs' s2 Hs1 Hstep' E') as [HF Hs2].
    split; [constructor|]; auto.
Qed.

(** ** Tables that differ in counters only *)

Lemma same_row_refl t : same_row t t.
Proof. repeat split. Qed.

Lemma same_row_trans a b c : same_row a b -> same_row b c -> same_row a c.
Proof. unfold same_row. intuition congruence. Qed.

Lemma same_skeleton_refl d : same_skeleton d d.
Proof. unfold same_skeleton. induction (tags d); constructor; auto using same_row_refl. Qed.

Lemma same_skeleton_trans d1 d2 d3 :
  same_skeleton d1 d2 -> same_skeleton d2 d3 -> same_skeleton d1 d3.
Proof.
  unfold same_skeleton. generalize (tags d1), (tags d2), (tags d3).
  intros l1 l2 l3 H. revert l3.
  induction H; intros l3 H3; inversion H3; subst; constructor; eauto using same_row_trans.
Qed.

Lemma update_tag_skeleton i f d :
  (forall t, same_row t (f t)) -> same_skeleton d (update_tag i f d).
Proof.
  intro Hf. unfold same_skeleton, update_tag. simpl.
  induction (tags d) as [|a l IH]; simpl; constructor; auto.
  destruct (id a =? i); auto using same_row_refl.
Qed.

Lemma same_skeleton_ids d d' : same_skeleton d d' -> map id (tags d') = map id (tags d).
Proof.
  unfold same_skeleton. induction 1 as [|a b l l' Hab _ IH]; simpl; [reflexivity|].
  destruct Hab as [-> _]. now rewrite IH.
Qed.

Lemma same_skeleton_pk d d' : same_skeleton d d' -> pk_unique d -> pk_unique d'.
Proof. unfold pk_unique. intro H. now rewrite (same_skeleton_ids _ _ H). Qed.

Lemma same_skeleton_get d d' i t :
  same_skeleton d d' -> get d i = Some t ->
  exists t', get d' i = Some t' /\ same_row t t'.
Proof.
  unfold same_skeleton, get. induction 1 as [|a b l l' Hab _ IH]; simpl; [discriminate|].
  destruct Hab as (Hid & Hrest). rewrite Hid.
  destruct (id a =? i).
  - intro H. injection H as <-. exists b. split; [reflexivity|]. split; auto.
  - exact IH.
Qed.

Lemma pk_unique_get d t : pk_unique d -> In t (tags d) -> get d (id t) = Some t.
Proof.
  unfold pk_unique, get. induction (tags d) as [|a l IH]; simpl; intros Hnd Hin.
  - contradiction.
  - inversion Hnd as [|? ? Hnotin Hnd']; subst. destruct Hin as [->|Hin].
    + now rewrite String.eqb_refl.
    + destruct (id a =? id t) eqn:E; [|auto].
      apply String.eqb_eq in E. exfalso. apply Hnotin. rewrite E. now apply in_map.
Qed.

Lemma Forall2_filter {A} (R : A -> A -> Prop) p p' l l' :
  Forall2 R l l' -> (forall a b, R a b -> p a = p' b) ->
  Forall2 R (filter p l) (filter p' l').
Proof.
  intros H Hp. induction H as [|a b l l' Hab _ IH]; simpl; [constructor|].
  rewrite (Hp a b Hab). destruct (p' b); [constructor|]; auto.
Qed.

Lemma Forall2_insert_sorted {A} (R : A -> A -> Prop) leb x x' l l' :
  (forall a a' b b', R a a' -> R b b' -> leb a b = leb a' b') ->
  R x x' -> Forall2 R l l' ->
  Forall2 R (insert_sorted leb x l) (insert_sorted leb x' l').
Proof.
  intros Hleb Hx H. induction H as [|a b l l' Hab Hl IH]; simpl.
  - constructor; [exact Hx|constructor].
  - rewrite (Hleb x x' a b Hx Hab). destruct (leb x' b); repeat constructor; auto.
Qed.

Lemma Forall2_sort_by {A} (R : A -> A -> Prop) leb l l' :
  (forall a a' b b', R a a' -> R b b' -> leb a b = leb a' b') ->
  Forall2 R l l' -> Forall2 R (sort_by leb l) (sort_by leb l').
Proof.
  intros Hleb H. induction H; simpl; [constructor|].
  apply Forall2_insert_sorted; auto.
Qed.

Lemma active_children_skeleton d d' t t' :
  same_skeleton d d' -> id t' = id t ->
  map id (active_children d' t') = map id (active_children d t).
Proof.
  intros H Hid. unfold active_children.
  assert (F : Forall2 same_row
                (sort_by name_leb (filter (fun c => option_string_eqb (parent_id c) (id t)
                                                    && is_active c) (tags d)))
                (sort_by name_leb (filter (fun c => option_string_eqb (parent_id c) (id t')
                                                    && is_active c) (tags d')))).
  { apply Forall2_sort_by.
    - intros a a' b b' (_ & Ha & _) (_ & Hb & _). unfold name_leb. now rewrite Ha, Hb.
    - apply Forall2_filter; [exact H|].
      intros a b (_ & _ & Hp & Hs). unfold is_active. now rewrite Hp, Hs, Hid. }
  induction F as [|a b l l' Hab _ IH]; simpl; [reflexivity|].
  destruct Hab as [-> _]. now rewrite IH.
Qed.

Lemma expanded_skeleton d d' depth n :
  same_skeleton d d' -> expanded d' depth n -> expanded d depth n.
Proof.
  intro H. revert n. induction depth as [|k IH]; simpl; intros n Hn; [exact Hn|].
  destruct Hn as (l & Hc & Hids & Hl). exists l. split; [exact Hc|]. split.
  - rewrite Hids. now apply active_children_skeleton.
  - eapply Forall_impl; [|exact Hl]. auto.
Qed.

Lemma get_tag_stats_skeleton fuel d tag st d1 :
  get_tag_stats fuel d tag = Some (st, d1) -> same_skeleton d d1.
Proof.
  unfold get_tag_stats.
  match goal with |- context [if ?c then d else ?u] => destruct c end;
    match goal with |- context [get_descendants ?f ?a ?b ?c] =>
      destruct (get_descendants f a b c) end; try discriminate;
    intro H; injection H as _ <-.
  - apply same_skeleton_refl.
  - apply update_tag_skeleton. intro t. repeat split.
Qed.

Lemma refresh_get d tag t0 : get d (id tag) = Some t0 -> refresh d tag = t0.
Proof. unfold refresh. now intros ->. Qed.

(** ** Trees ([get_tag_tree], [_build_tag_tree]) *)

Lemma active_children_In d t c :
  In c (active_children d t) ->
  In c (tags d) /\ parent_id c = Some (id t) /\ status c = active.
Proof.
  unfold active_children. intro H.
  apply (Permutation_in _ (sort_by_perm _ _)) in H.
  apply filter_In in H. destruct H as [Hin Hb].
  apply andb_true_iff in Hb. destruct Hb as [Hp Ha].
  apply Status_eqb_eq in Ha. split; [exact Hin|]. split; [|exact Ha].
  unfold option_string_eqb in Hp. destruct (parent_id c); [|discriminate].
  apply String.eqb_eq in Hp. now subst.
Qed.

Lemma Forall2_flat_map_Forall {A B C} (R : A -> B -> Prop) (P : C -> Prop)
    (f : B -> list C) xs bs :
  Forall2 R xs bs -> (forall x b, R x b -> Forall P (f b)) ->
  Forall P (flat_map f bs).
Proof.
  intros H HR. induction H; simpl; [constructor|].
  apply Forall_app. split; eauto.
Qed.

Lemma build_tag_tree_spec fuel stats depth :
  forall d tag n d',
    pk_unique d ->
    (exists t0, get d (id tag) = Some t0 /\ status t0 = active) ->
    build_tag_tree fuel depth d tag stats = Some (n, d') ->
    same_skeleton d d' /\ id (node_data n) = id tag /\
    Forall (fun t => status t = active) (node_tags n) /\
    expanded d depth n.
Proof.
  induction depth as [|depth IH]; intros d tag n d' Hpk (t0 & Hg & Ha) H;
    simpl in H; rewrite (refresh_get _ _ _ Hg) in H;
    destruct (get_In _ _ _ Hg) as [_ Hid].
  - assert (exists st, n = Node t0 st None /\ same_skeleton d d') as (st & -> & Hsk).
    { destruct stats.
      - destruct (get_tag_stats fuel d t0) as [[st d1]|] eqn:E; [|discriminate].
        injection H as <- <-. eauto using get_tag_stats_skeleton.
      - injection H as <- <-. eauto using same_skeleton_refl. }
    simpl. repeat split; auto.
  - assert (exists st d1, same_skeleton d d1 /\
              match collect (fun d0 child => build_tag_tree fuel depth d0 child stats)
                            (active_children d1 t0) d1 with
              | Some (nodes, db2) => Some (Node t0 st (Some nodes), db2)
              | None => None
              end = Some (n, d')) as (st & d1 & Hsk1 & H1).
    { destruct stats.
      - destruct (get_tag_stats fuel d t0) as [[st d1]|] eqn:E; [|discriminate].
        eauto using get_tag_stats_skeleton.
      - eauto using same_skeleton_refl. }
    clear H.
    destruct (collect _ (active_children d1 t0) d1) as [[nodes d2]|] eqn:E; [|discriminate].
    injection H1 as <- <-.
    pose proof (same_skeleton_pk _ _ Hsk1 Hpk) as Hpk1.
    apply (collect_inv _ (fun dk => same_skeleton d1 dk)
             (fun child node => id (node_data node) = id child /\
                                Forall (fun t => status t = active) (node_tags node) /\
                                expanded d1 depth node)) in E.
    + destruct E as [HF Hsk2]. split; [eapply same_skeleton_trans; eauto|].
      split; [exact Hid|]. split.
      * simpl. constructor; [exact Ha|].
        eapply Forall2_flat_map_Forall; [exact HF|]. intros x b (_ & Hb & _). exact Hb.
      * simpl. exists nodes. split; [reflexivity|]. split.
        -- rewrite <- (active_children_skeleton d d1 t0 t0 Hsk1 eq_refl).
           clear - HF. induction HF as [|x b xs bs (Hx & _) _ IHF]; simpl; [reflexivity|].
           now rewrite Hx, IHF.
        -- clear - HF Hsk1. induction HF as [|x b xs bs (_ & _ & Hx) _ IHF]; constructor; auto.
           eapply expanded_skeleton; eauto.
    + apply same_skeleton_refl.
    + intros x dk b dk' Hx Hskk Hb.
      apply active_children_In in Hx. destruct Hx as (Hin & _ & Hax).
      pose proof (pk_unique_get _ _ Hpk1 Hin) as Hgx.
      destruct (same_skeleton_get _ _ _ _ Hskk Hgx) as (x' & Hgx' & (_ & _ & _ & Hs')).
      destruct (IH dk x b dk' (same_skeleton_pk _ _ Hskk Hpk1)) as (Hk & Hi & Hact & Hexp); auto.
      { exists x'. split; [exact Hgx'|congruence]. }
      split; [|eapply same_skeleton_trans; eauto].
      split; [exact Hi|]. split; [exact Hact|]. eapply expanded_skeleton; eauto.
Qed.

Lemma root_tags_In db root_id t :
  In t (root_tags db root_id) -> In t (tags db) /\ status t = active.
Proof.
  unfold root_tags. destruct (truthy_value root_id); intro H.
  - apply filter_In in H. destruct H as [Hin Hb].
    apply andb_true_iff in Hb. destruct Hb as [_ Ha]. now apply Status_eqb_eq in Ha.
  - apply (Permutation_in _ (sort_by_perm _ _)) in H.
    apply filter_In in H. destruct H as [Hin Hb].
    apply andb_true_iff in Hb. destruct Hb as [_ Ha]. now apply Status_eqb_eq in Ha.
Qed.

(** The answer of [get_tag_tree] is that of its loop, and the table is the
    one it was given. *)
Lemma get_tag_tree_loop fuel db root_id max_depth stats nodes db' :
  get_tag_tree fuel db root_id max_depth stats = Some (nodes, db') ->
  db' = db /\
  exists session,
    collect (fun d tag => build_tag_tree fuel (Z.to_nat max_depth) d tag stats)
            (root_tags db root_id) db = Some (nodes, session).
Proof.
  unfold get_tag_tree.
  destruct (collect _ (root_tags db root_id) db) as [[result session]|]; [|discriminate].
  intro H. injection H as <- <-. eauto.
Qed.

Lemma get_tag_tree_spec fuel db root_id max_depth stats nodes db' :
  pk_unique db ->
  get_tag_tree fuel db root_id max_depth stats = Some (nodes, db') ->
  Forall2 (fun tag n => id (node_data n) = id tag /\
                        Forall (fun t => status t = active) (node_tags n) /\
                        expanded db (Z.to_nat max_depth) n)
          (root_tags db root_id) nodes.
Proof.
  intros Hpk H. apply get_tag_tree_loop in H. destruct H as (_ & session & H).
  apply (collect_inv _ (fun dk => same_skeleton db dk)
           (fun tag n => id (node_data n) = id tag /\
                         Forall (fun t => status t = active) (node_tags n) /\
                         expanded db (Z.to_nat max_depth) n)) in H.
  - apply H.
  - apply same_skeleton_refl.
  - intros x dk b dk' Hx Hsk Hb.
    apply root_tags_In in Hx. destruct Hx as [Hin Hax].
    pose proof (pk_unique_get _ _ Hpk Hin) as Hgx.
    destruct (same_skeleton_get _ _ _ _ Hsk Hgx) as (x' & Hgx' & (_ & _ & _ & Hs')).
    destruct (build_tag_tree_spec fuel stats (Z.to_nat max_depth) dk x b dk')
      as (Hk & Hi & Hact & Hexp); auto.
    { eapply same_skeleton_pk; eauto. }
    { exists x'. split; [exact Hgx'|congruence]. }
    split; [|eapply same_skeleton_trans; eauto].
    split; [exact Hi|]. split; [exact Hact|]. eapply expanded_skeleton; eauto.
Qed.

Lemma collect_pure {A B S} (body : S -> A -> option (B * S)) xs s :
  (forall x, In x xs -> exists b, body s x = Some (b, s)) ->
  exists bs, collect body xs s = Some (bs, s).
Proof.
  induction xs as [|x xs IH]; simpl; intro H.
  - eauto.
  - destruct (H x (or_introl eq_refl)) as [b ->].
    destruct IH as [bs ->]; [intros y Hy; apply H; now right|]. eauto.
Qed.

(** Without statistics the tree is built without touching the table and
    without any unbounded loop. *)
Lemma build_tag_tree_no_stats fuel depth :
  forall d tag, exists n, build_tag_tree fuel depth d tag false = Some (n, d).
Proof.
  induction depth as [|depth IH]; intros d tag; simpl.
  - eauto.
  - destruct (collect_pure (fun d0 child => build_tag_tree fuel depth d0 child false)
                (active_children d (refresh d tag)) d) as [bs ->]; eauto.
Qed.

Lemma get_tag_tree_no_stats fuel db root_id max_depth :
  exists nodes, get_tag_tree fuel db root_id max_depth false = Some (nodes, db).
Proof.
  unfold get_tag_tree.
  destruct (collect_pure (fun d tag => build_tag_tree fuel (Z.to_nat max_depth) d tag false)
              (root_tags db root_id) db) as [bs ->]; [|eauto].
  intros x _. apply build_tag_tree_no_stats.
Qed.

(** The call without a root on [tree_db]: "Animal" comes back with its child
    "Cat" and grandchild "Kitten" below it. *)
Lemma get_tag_tree_without_root_descends :
  get_tag_tree 0 tree_db None 3 false
  = Some ([ Node (sample_tag "a" "Animal" None 0 "Animal" active 0) None
              (Some [ Node (sample_tag "c" "Cat" (Some "a") 1 "Animal/Cat" active 0) None
                        (Some [ Node (sample_tag "k" "Kitten" (Some "c") 2
                                                 "Animal/Cat/Kitten" active 0) None
                                  (Some []) ]) ]);
            Node (sample_tag "p" "Plant" None 0 "Plant" active 0) None (Some []) ],
          tree_db) /\
  ~ (forall nodes db', get_tag_tree 0 tree_db None 3 false = Some (nodes, db') ->
       Forall (fun n => node_children_of n = None \/ node_children_of n = Some []) nodes).
Proof.
  split; [reflexivity|].
  intro H. specialize (H _ _ eq_refl). inversion H as [|? ? [Hn|Hn] _]; discriminate Hn.
Qed.

(** C6 (as amended). Called without a root, [get_tag_tree] answers one node
    per active root tag, in name order, and every node is expanded to
    [max_depth] levels of active children, as the node of a selected root is;
    a node is shallow only when [max_depth] is not positive.  Without
    statistics the call always returns and leaves the table as it was. *)
Theorem get_tag_tree_roots_expanded fuel db max_depth :
  pk_unique db ->
  (exists nodes, get_tag_tree fuel db None max_depth false = Some (nodes, db)) /\
  (forall include_stats nodes db',
      get_tag_tree fuel db None max_depth include_stats = Some (nodes, db') ->
      map (fun n => id (node_data n)) nodes
      = map id (sort_by name_leb
                  (filter (fun t => match parent_id t with None => true | Some _ => false end
                                    && is_active t) (tags db))) /\
      Forall (expanded db (Z.to_nat max_depth)) nodes) /\
  (forall root_id include_stats nodes db',
      get_tag_tree fuel db (Some root_id) max_depth include_stats = Some (nodes, db') ->
      Forall (expanded db (Z.to_nat max_depth)) nodes) /\
  (forall n, (max_depth <= 0)%Z -> expanded db (Z.to_nat max_depth) n ->
             node_children_of n = None).
Proof.
  intro Hpk. split; [apply get_tag_tree_no_stats|]. split; [|split].
  - intros stats nodes db' H. apply get_tag_tree_spec in H; [|exact Hpk].
    change (sort_by name_leb _) with (root_tags db None).
    induction H as [|x b xs bs (Hx & _ & He) _ IH]; simpl.
    + split; [reflexivity|constructor].
    + destruct IH as [IH1 IH2]. split; [now rewrite Hx, IH1|constructor; auto].
  - intros root_id stats nodes db' H. apply get_tag_tree_spec in H; [|exact Hpk].
    induction H as [|x b xs bs (_ & _ & He) _ IH]; constructor; auto.
  - intros n Hd. replace (Z.to_nat max_depth) with 0%nat by lia. auto.
Qed.

Lemma get_tag_tree_roots_expanded_witness :
  pk_unique tree_db /\
  (exists nodes, get_tag_tree 0 tree_db None 3 false = Some (nodes, tree_db)) /\
  (forall include_stats nodes db',
      get_tag_tree 0 tree_db None 3 include_stats = Some (nodes, db') ->
      map (fun n => id (node_data n)) nodes
      = map id (sort_by name_leb
                  (filter (fun t => match parent_id t with None => true | Some _ => false end
                                    && is_active t) (tags tree_db))) /\
      Forall (expanded tree_db (Z.to_nat 3)) nodes) /\
  (forall root_id include_stats nodes db',
      get_tag_tree 0 tree_db (Some root_id) 3 include_stats = Some (nodes, db') ->
      Forall (expanded tree_db (Z.to_nat 3)) nodes) /\
  (forall n, (3 <= 0)%Z -> expanded tree_db (Z.to_nat 3) n ->
             node_children_of n = None).
Proof.
  assert (Hpk : pk_unique tree_db).
  { unfold pk_unique. simpl.
    repeat (constructor; [simpl; intuition discriminate|]). constructor. }
  split; [exact Hpk|]. apply (get_tag_tree_roots_expanded 0 tree_db 3 Hpk).
Defined.

(** ** Listings return active tags only *)

Lemma filter_filter {A} (p q : A -> bool) l :
  filter p (filter q l) = filter (fun x => q x && p x) l.
Proof.
  induction l as [|a l IH]; simpl; [reflexivity|].
  destruct (q a); simpl; [destruct (p a)|]; now rewrite IH.
Qed.

Lemma sorted_limited_active (leb : Tag -> Tag -> bool) (p : Tag -> bool) limit l :
  (forall t, p t = true -> status t = active) ->
  Forall (fun t => status t = active) (limit_rows limit (sort_by leb (filter p l))).
Proof.
  intro Hp. rewrite Forall_forall. intros t Ht. apply limit_rows_incl in Ht.
  apply (Permutation_in _ (sort_by_perm _ _)) in Ht.
  apply filter_In in Ht. now apply Hp.
Qed.

(** The deprecated tag "Catalog" of [search_db] matches the keyword "cat" and
    is the most used tag, yet no listing includes it. *)
Lemma deprecated_tag_not_listed :
  let catalog := sample_tag "4" "Catalog" None 0 "Catalog" deprecated 9 in
  In catalog (tags search_db) /\ status catalog = deprecated /\
  keyword_match "cat" catalog = true /\
  ~ In catalog (search_tags search_db (Some "cat") None None 20) /\
  ~ In catalog (get_tag_suggestions search_db "Cat" 20) /\
  ~ In catalog (get_popular_tags search_db 20) /\
  get_categories search_db = [("general", 3%Z)] /\
  option_map (fun r => map (fun n => name (node_data n)) (fst r))
             (get_tag_tree 0 search_db None 3 false)
  = Some ["Cat"; "Category"; "Catfish"].
Proof.
  cbv zeta. repeat split; try reflexivity.
  - simpl. tauto.
  - vm_compute. intuition discriminate.
  - vm_compute. intuition discriminate.
  - vm_compute. intuition discriminate.
Qed.

(** C5 (as amended). Every listing answers active tags only: the rows of
    [search_tags], [get_tag_suggestions] and [get_popular_tags] are active,
    [get_categories] counts the active rows of each category (and lists a
    category only when it has one), and every node of a [get_tag_tree] answer
    is an active tag.  Deprecated tags are left out like merged and deleted
    ones. *)
Theorem read_operations_only_active db :
  (forall keyword category0 domain0 limit,
      Forall (fun t => status t = active)
             (search_tags db keyword category0 domain0 limit)) /\
  (forall partial_name limit,
      Forall (fun t => status t = active) (get_tag_suggestions db partial_name limit)) /\
  (forall limit, Forall (fun t => status t = active) (get_popular_tags db limit)) /\
  (forall c n, In (c, n) (get_categories db) ->
      (0 < n)%Z /\
      n = Z.of_nat (List.length
                      (filter (fun t => Status_eqb (status t) active && (category t =? c))
                              (tags db)))) /\
  (pk_unique db ->
   forall fuel root_id max_depth include_stats nodes db',
     get_tag_tree fuel db root_id max_depth include_stats = Some (nodes, db') ->
     Forall (fun n => Forall (fun t => status t = active) (node_tags n)) nodes).
Proof.
  split; [|split; [|split; [|split]]].
  - intros. apply sorted_limited_active. intros t Ht.
    unfold search_filter in Ht. rewrite !andb_true_iff in Ht.
    destruct Ht as [[[Ha _] _] _]. now apply Status_eqb_eq.
  - intros. apply sorted_limited_active. intros t Ht.
    apply andb_true_iff in Ht. destruct Ht as [Ha _]. now apply Status_eqb_eq.
  - intros. apply sorted_limited_active. intros t Ht. now apply Status_eqb_eq.
  - intros c n Hin. unfold get_categories in Hin.
    apply (Permutation_in _ (sort_by_perm _ _)) in Hin.
    apply in_map_iff in Hin. destruct Hin as (c' & E & Hc). injection E as -> <-.
    apply nodup_In in Hc. unfold count_category. rewrite filter_filter. split; [|reflexivity].
    apply in_map_iff in Hc. destruct Hc as (t & Hcat & Ht). apply filter_In in Ht.
    destruct Ht as [Hin Ha].
    assert (Hf : In t (filter (fun x => is_active x && (category x =? c)) (tags db))).
    { apply filter_In. split; [exact Hin|]. rewrite Ha. simpl. now apply String.eqb_eq. }
    destruct (filter _ (tags db)); [contradiction|]. simpl. lia.
  - intros Hpk fuel root_id max_depth stats nodes db' H.
    apply get_tag_tree_spec in H; [|exact Hpk].
    induction H as [|x b xs bs (_ & Hb & _) _ IH]; constructor; auto.
Qed.

Lemma read_operations_only_active_witness :
  pk_unique tree_db /\
  In ("general", 4%Z) (get_categories tree_db) /\
  get_tag_tree 0 tree_db (Some "a") 1 false
  = Some ([ Node (sample_tag "a" "Animal" None 0 "Animal" active 0) None
              (Some [ Node (sample_tag "c" "Cat" (Some "a") 1 "Animal/Cat" active 0)
                        None None ]) ], tree_db) /\
  (0 < 4)%Z /\
  Forall (fun n => Forall (fun t => status t = active) (node_tags n))
         [ Node (sample_tag "a" "Animal" None 0 "Animal" active 0) None
             (Some [ Node (sample_tag "c" "Cat" (Some "a") 1 "Animal/Cat" active 0)
                       None None ]) ].
Proof.
  assert (Hpk : pk_unique tree_db).
  { unfold pk_unique. simpl.
    repeat (constructor; [simpl; intuition discriminate|]). constructor. }
  assert (Hc : In ("general", 4%Z) (get_categories tree_db)) by (left; reflexivity).
  destruct (read_operations_only_active tree_db) as (_ & _ & _ & Hcat & Htree).
  split; [exact Hpk|]. split; [exact Hc|]. split; [reflexivity|].
  split; [exact (proj1 (Hcat _ _ Hc))|].
  exact (Htree Hpk 0%nat (Some "a") 1%Z false _ tree_db eq_refl).
Defined.

(** ** Parent chains *)

Lemma ancestor_trans par a b c :
  ancestor par a b -> ancestor par b c -> ancestor par a c.
Proof.
  intros Hab Hbc. induction Hbc as [i p Hp|i p b' Hp Hbc IH].
  - eapply ancestor_step; eauto.
  - eapply ancestor_step; eauto.
Qed.

(** One more step at the top of a chain. *)
Lemma ancestor_top par a a' i :
  ancestor par a i -> par a = Some a' -> ancestor par a' i.
Proof.
  intros H Ha. eapply ancestor_trans; [|exact H]. now apply ancestor_parent.
Qed.

Lemma ancestor_ext par par' a i :
  (forall j, par j = par' j) -> ancestor par a i -> ancestor par' a i.
Proof.
  intros E H. induction H as [i p Hp|i p a Hp H IH].
  - apply ancestor_parent. now rewrite <- E.
  - eapply ancestor_step; [rewrite <- E|]; eauto.
Qed.

Section ParentChains.
Variable par : string -> option string.
Hypothesis acyclic : forall i, ~ ancestor par i i.
Variable i0 : string.
Variable v : option string.
Hypothesis v_ok : forall p, v = Some p -> p <> i0 /\ ~ ancestor par i0 p.

(** The first arrival at [i0] uses old edges only. *)
Lemma repoint_first_arrival_gen top i :
  ancestor (repoint par i0 v) top i -> top = i0 -> i <> i0 -> ancestor par i0 i.
Proof.
  induction 1 as [i p Hp|i p a Hp H IH]; intros Etop Hne.
  - subst p. unfold repoint in Hp. apply String.eqb_neq in Hne. rewrite Hne in Hp.
    now apply ancestor_parent.
  - subst a. unfold repoint in Hp. pose proof Hne as Hne'.
    apply String.eqb_neq in Hne'. rewrite Hne' in Hp.
    destruct (string_dec p i0) as [Ep|Hp0].
    + subst p. now apply ancestor_parent.
    + eapply ancestor_step; eauto.
Qed.

Lemma repoint_first_arrival i :
  ancestor (repoint par i0 v) i0 i -> i <> i0 -> ancestor par i0 i.
Proof. intros H Hne. now apply (repoint_first_arrival_gen i0 i). Qed.

Lemma repoint_through i a :
  ancestor (repoint par i0 v) a i ->
  ancestor par a i \/
  ((i = i0 \/ ancestor par i0 i) /\ ancestor (repoint par i0 v) a i0).
Proof.
  induction 1 as [i p Hp|i p a Hp H IH].
  - destruct (string_dec i i0) as [->|Hne].
    + right. split; [now left|]. now apply ancestor_parent.
    + left. unfold repoint in Hp. apply String.eqb_neq in Hne. rewrite Hne in Hp.
      now apply ancestor_parent.
  - destruct (string_dec i i0) as [->|Hne].
    + right. split; [now left|]. eapply ancestor_step; eauto.
    + assert (Hp' : par i = Some p).
      { unfold repoint in Hp. apply String.eqb_neq in Hne. now rewrite Hne in Hp. }
      destruct IH as [IH|[[->|IH] IH']].
      * left. eapply ancestor_step; eauto.
      * right. split; [right; now apply ancestor_parent|exact IH'].
      * right. split; [right; eapply ancestor_step; eauto|exact IH'].
Qed.

Lemma repoint_keeps_chain_gen top i :
  ancestor par top i -> top = i0 -> ancestor (repoint par i0 v) i0 i.
Proof.
  induction 1 as [i p Hp|i p a Hp H IH]; intro Etop.
  - subst p. apply ancestor_parent. unfold repoint.
    destruct (i =? i0) eqn:E; [|exact Hp].
    apply String.eqb_eq in E. subst i. exfalso. apply (acyclic i0).
    now apply ancestor_parent.
  - subst a. eapply ancestor_step; [|apply IH; reflexivity]. unfold repoint.
    destruct (i =? i0) eqn:E; [|exact Hp].
    apply String.eqb_eq in E. subst i. exfalso. apply (acyclic i0).
    eapply ancestor_step; eauto.
Qed.

Lemma repoint_keeps_chain i : ancestor par i0 i -> ancestor (repoint par i0 v) i0 i.
Proof. intro H. now apply (repoint_keeps_chain_gen i0 i). Qed.

Lemma repoint_no_self : ~ ancestor (repoint par i0 v) i0 i0.
Proof.
  intro H. inversion H as [i p Hp|i p a Hp H']; subst.
  - unfold repoint in Hp. rewrite String.eqb_refl in Hp.
    destruct (v_ok _ Hp) as [Hne _]. now apply Hne.
  - unfold repoint in Hp. rewrite String.eqb_refl in Hp.
    destruct (v_ok _ Hp) as [Hne Hanc]. apply Hanc.
    now apply repoint_first_arrival.
Qed.

(** Giving [i0] a parent outside its own descendants creates no cycle. *)
Lemma repoint_acyclic i : ~ ancestor (repoint par i0 v) i i.
Proof.
  intro H. destruct (repoint_through _ _ H) as [H'|[[->|Hd] Hu]].
  - exact (acyclic _ H').
  - exact (repoint_no_self H).
  - apply repoint_no_self. eapply ancestor_trans; [|exact Hu].
    now apply repoint_keeps_chain.
Qed.
End ParentChains.

(** ** Parent references in a table *)

Lemma parent_ref_unfold db i :
  parent_ref db i
  = match get db i with
    | Some t => match parent_id t with
                | Some p => option_map id (get db p)
                | None => None
                end
    | None => None
    end.
Proof. unfold parent_ref, parent. destruct (get db i) as [t|]; [|reflexivity].
       destruct (parent_id t); reflexivity. Qed.

Lemma get_id db i t : get db i = Some t -> id t = i.
Proof. intro H. now destruct (get_In _ _ _ H). Qed.

Lemma get_exists_id db p :
  option_map id (get db p) = match get db p with Some _ => Some p | None => None end.
Proof. destruct (get db p) as [t|] eqn:E; simpl; [|reflexivity]. now rewrite (get_id _ _ _ E). Qed.

Lemma parent_ref_exists db i a : parent_ref db i = Some a -> get db a <> None.
Proof.
  rewrite parent_ref_unfold. destruct (get db i) as [t|]; [|discriminate].
  destruct (parent_id t) as [p|]; [|discriminate].
  rewrite get_exists_id. destruct (get db p) eqn:E; [|discriminate].
  intro H. injection H as <-. congruence.
Qed.

Lemma ancestor_exists db a i : is_ancestor db a i -> get db a <> None.
Proof. induction 1; eauto using parent_ref_exists. Qed.

Lemma get_None_not_In db i : get db i = None -> ~ In i (map id (tags db)).
Proof.
  unfold get. intros H Hin. apply in_map_iff in Hin. destruct Hin as (t & <- & Hin).
  pose proof (find_none _ _ H _ Hin) as Hf. simpl in Hf.
  now rewrite String.eqb_refl in Hf.
Qed.

Lemma get_update_tag i f db j :
  (forall t, id (f t) = id t) ->
  get (update_tag i f db) j = if j =? i then option_map f (get db j) else get db j.
Proof.
  intro Hf. unfold get, update_tag. simpl.
  induction (tags db) as [|a l IH]; simpl.
  - now destruct (j =? i).
  - assert (E : id (if id a =? i then f a else a) = id a)
      by (destruct (id a =? i); [apply Hf|reflexivity]).
    rewrite E. destruct (id a =? j) eqn:Ej; [|exact IH].
    apply String.eqb_eq in Ej. subst j. destruct (id a =? i); reflexivity.
Qed.

Lemma get_update_tag_exists i f db p :
  (forall t, id (f t) = id t) ->
  option_map id (get (update_tag i f db) p) = option_map id (get db p).
Proof.
  intro Hf. rewrite get_update_tag by exact Hf.
  destruct (p =? i); [|reflexivity].
  destruct (get db p); simpl; [now rewrite Hf|reflexivity].
Qed.

(** ** Well-formed tables that differ in counters, levels and paths only *)

Lemma same_row_sym a b : same_row a b -> same_row b a.
Proof. unfold same_row. intuition congruence. Qed.

Lemma same_skeleton_sym d d' : same_skeleton d d' -> same_skeleton d' d.
Proof.
  unfold same_skeleton. induction 1; constructor; auto using same_row_sym.
Qed.

Lemma same_skeleton_In d d' t' :
  same_skeleton d d' -> In t' (tags d') -> exists t, In t (tags d) /\ same_row t t'.
Proof.
  unfold same_skeleton. induction 1 as [|a b l l' Hab _ IH]; simpl; [contradiction|].
  intros [<-|Hin]; [eauto|]. destruct (IH Hin) as (t & Ht & Hr). eauto.
Qed.

Lemma same_skeleton_get_exists d d' p :
  same_skeleton d d' -> option_map id (get d' p) = option_map id (get d p).
Proof.
  intro H. destruct (get d p) as [t|] eqn:E.
  - destruct (same_skeleton_get _ _ _ _ H E) as (t' & -> & (Hid & _)). simpl. now rewrite Hid.
  - destruct (get d' p) as [t'|] eqn:E'; [|reflexivity].
    destruct (same_skeleton_get _ _ _ _ (same_skeleton_sym _ _ H) E') as (t & Ht & _).
    congruence.
Qed.

Lemma parent_ref_skeleton d d' i :
  same_skeleton d d' -> parent_ref d' i = parent_ref d i.
Proof.
  intro H. rewrite !parent_ref_unfold.
  destruct (get d i) as [t|] eqn:E.
  - destruct (same_skeleton_get _ _ _ _ H E) as (t' & -> & (_ & _ & Hp & _)).
    rewrite Hp. destruct (parent_id t); [|reflexivity].
    now apply same_skeleton_get_exists.
  - destruct (get d' i) as [t'|] eqn:E'; [|reflexivity].
    destruct (same_skeleton_get _ _ _ _ (same_skeleton_sym _ _ H) E') as (t & Ht & _).
    congruence.
Qed.

Lemma well_formed_skeleton d d' : same_skeleton d d' -> well_formed d -> well_formed d'.
Proof.
  intros H [Hpk Hids Hact Hrefs Hacy]. constructor.
  - eapply same_skeleton_pk; eauto.
  - intros t' Hin. destruct (same_skeleton_In _ _ _ H Hin) as (t & Ht & (Hid & _)).
    rewrite Hid. auto.
  - intros t' Hin. destruct (same_skeleton_In _ _ _ H Hin) as (t & Ht & (_ & _ & _ & Hs)).
    rewrite Hs. auto.
  - intros t' p Hin Hp.
    destruct (same_skeleton_In _ _ _ H Hin) as (t & Ht & (_ & _ & Hpp & _)).
    rewrite Hpp in Hp. destruct (Hrefs t p Ht Hp) as [->|Hg]; [now left|right].
    pose proof (same_skeleton_get_exists _ _ p H) as E.
    destruct (get d p); [|congruence]. destruct (get d' p); [discriminate|discriminate E].
  - intros i Hi. apply (Hacy i). unfold is_ancestor in *.
    eapply ancestor_ext; [|exact Hi]. intro j. now apply parent_ref_skeleton.
Qed.

Lemma update_path_skeleton fuel :
  forall db self db', update_path fuel db self = Some db' -> same_skeleton db db'.
Proof.
  induction fuel as [|fuel IH]; intros db self db' H; simpl in H; [discriminate|].
  match type of H with for_each _ _ ?d1 = _ =>
    assert (H1 : same_skeleton db d1) by (apply update_tag_skeleton; intro t; repeat split)
  end.
  eapply (for_each_inv _ (fun d => same_skeleton db d)); [exact H1| |exact H].
  intros x s0 s1 _ Hs0 Hx. eapply same_skeleton_trans; eauto.
Qed.

(** ** The ancestor walk of [can_be_parent_of] *)

Lemma ancestors_from_complete db :
  pk_unique db ->
  forall fuel c l,
    In c (tags db) ->
    ancestors_from fuel db (Some c) = Some l ->
    forall a, a = id c \/ is_ancestor db a (id c) ->
              existsb (fun x => id x =? a) l = true.
Proof.
  intros Hpk. induction fuel as [|fuel IH]; intros c l Hc H a Ha; simpl in H; [discriminate|].
  destruct (ancestors_from fuel db (parent db c)) as [l'|] eqn:E; [|discriminate].
  injection H as <-. simpl. destruct Ha as [->|Ha]; [now rewrite String.eqb_refl|].
  apply orb_true_iff. right.
  assert (Hpar : forall p, parent_ref db (id c) = Some p ->
                           exists pr, parent db c = Some pr /\ id pr = p /\ In pr (tags db)).
  { intros p Hp. unfold parent_ref in Hp. rewrite (pk_unique_get _ _ Hpk Hc) in Hp.
    destruct (parent db c) as [pr|] eqn:Epr; [|discriminate].
    injection Hp as <-. exists pr. repeat split.
    unfold parent in Epr. destruct (parent_id c); [|discriminate].
    now destruct (get_In _ _ _ Epr). }
  unfold is_ancestor in Ha.
  inversion Ha as [i p Hp|i p a' Hp Ha']; subst;
    destruct (Hpar _ Hp) as (pr & Epr & Hid & Hin); rewrite Epr in E;
    apply (IH pr l' Hin E).
  - left. now symmetry.
  - right. unfold is_ancestor. now rewrite Hid.
Qed.

Lemma ancestors_from_terminates db :
  pk_unique db -> (forall i, ~ is_ancestor db i i) ->
  forall fuel c visited,
    In c (tags db) ->
    NoDup visited ->
    (forall x, In x visited -> is_ancestor db (id c) x) ->
    incl visited (map id (tags db)) ->
    (List.length (tags db) <= List.length visited + fuel)%nat ->
    ancestors_from fuel db (Some c) <> None.
Proof.
  intros Hpk Hacy.
  assert (Hfresh : forall c visited,
             (forall x, In x visited -> is_ancestor db (id c) x) -> ~ In (id c) visited).
  { intros c visited Hv Hin. exact (Hacy _ (Hv _ Hin)). }
  induction fuel as [|fuel IH]; intros c visited Hc Hnd Hv Hincl Hlen; simpl.
  - exfalso.
    assert (Hnd' : NoDup (id c :: visited)) by (constructor; eauto).
    assert (Hincl' : incl (id c :: visited) (map id (tags db))).
    { intros x [<-|Hx]; [now apply in_map|auto]. }
    pose proof (NoDup_incl_length Hnd' Hincl') as Hle.
    rewrite length_map in Hle. simpl in Hle. lia.
  - destruct (parent db c) as [pr|] eqn:Epr.
    + assert (Hpr : In pr (tags db) /\ parent_ref db (id c) = Some (id pr)).
      { unfold parent_ref. rewrite (pk_unique_get _ _ Hpk Hc), Epr. split; [|reflexivity].
        unfold parent in Epr. destruct (parent_id c); [|discriminate].
        now destruct (get_In _ _ _ Epr). }
      destruct Hpr as [Hin Href].
      specialize (IH pr (id c :: visited) Hin).
      destruct (ancestors_from fuel db (Some pr)); [discriminate|].
      exfalso. apply IH; auto.
      * constructor; eauto.
      * intros x [<-|Hx]; [now apply ancestor_parent|].
        eapply ancestor_top; [apply Hv, Hx|exact Href].
      * intros x [<-|Hx]; [now apply in_map|auto].
      * simpl. lia.
    + destruct fuel; simpl; discriminate.
Qed.

Lemma get_ancestors_terminates db fuel c :
  pk_unique db -> (forall i, ~ is_ancestor db i i) ->
  In c (tags db) -> (List.length (tags db) <= fuel)%nat ->
  get_ancestors fuel db c <> None.
Proof.
  intros Hpk Hacy Hc Hlen. unfold get_ancestors.
  destruct (parent db c) as [pr|] eqn:Epr.
  - apply (ancestors_from_terminates db Hpk Hacy fuel pr []); auto.
    + unfold parent in Epr. destruct (parent_id c); [|discriminate].
      now destruct (get_In _ _ _ Epr).
    + constructor.
    + intros x [].
    + intros x [].
  - destruct fuel; simpl; discriminate.
Qed.

(** The answer of [can_be_parent_of] in a table with unique keys. *)
Lemma can_be_parent_of_true db fuel np tag :
  pk_unique db -> In np (tags db) ->
  can_be_parent_of fuel db np tag = Some true ->
  id np <> id tag /\ ~ is_ancestor db (id tag) (id np).
Proof.
  intros Hpk Hnp. unfold can_be_parent_of.
  destruct (id np =? id tag) eqn:E; [discriminate|]. apply String.eqb_neq in E.
  destruct (get_ancestors fuel db np) as [l|] eqn:El; [|discriminate].
  intro H. injection H as H. apply negb_true_iff in H. split; [exact E|].
  intro Ha. unfold get_ancestors in El.
  assert (Hpar : exists pr, parent db np = Some pr /\ In pr (tags db) /\
                            (id tag = id pr \/ is_ancestor db (id tag) (id pr))).
  { unfold is_ancestor in Ha.
    inversion Ha as [i p Hp|i p a' Hp Ha']; subst;
      unfold parent_ref in Hp; rewrite (pk_unique_get _ _ Hpk Hnp) in Hp;
      destruct (parent db np) as [pr|] eqn:Epr; try discriminate;
      injection Hp as <-; exists pr; (split; [reflexivity|]);
      (split; [unfold parent in Epr; destruct (parent_id np); [|discriminate];
               now destruct (get_In _ _ _ Epr)|]); auto. }
  destruct Hpar as (pr & Epr & Hin & Hor). rewrite Epr in El.
  pose proof (ancestors_from_complete db Hpk fuel pr l Hin El (id tag) Hor) as Hex.
  unfold tag_in in H. congruence.
Qed.

(** ** Re-pointing a tag and inserting a tag keep the table well formed *)

Lemma update_tag_ids i f db :
  (forall t, id (f t) = id t) -> map id (tags (update_tag i f db)) = map id (tags db).
Proof.
  intro Hf. unfold update_tag. simpl. rewrite map_map. apply map_ext.
  intro a. destruct (id a =? i); [apply Hf|reflexivity].
Qed.

Lemma update_tag_In i f db t' :
  In t' (tags (update_tag i f db)) ->
  exists t, In t (tags db) /\ ((id t <> i /\ t' = t) \/ (id t = i /\ t' = f t)).
Proof.
  unfold update_tag. simpl. intro H. apply in_map_iff in H.
  destruct H as (t & E & Hin). exists t. split; [exact Hin|].
  destruct (id t =? i) eqn:Ei.
  - right. apply String.eqb_eq in Ei. auto.
  - left. apply String.eqb_neq in Ei. auto.
Qed.

Lemma parent_ref_update db tag npid lv j :
  pk_unique db -> In tag (tags db) ->
  parent_ref (update_tag (id tag) (fun t => set_level lv (set_parent_id npid t)) db) j
  = repoint (parent_ref db) (id tag)
            (match npid with
             | Some p => option_map id (get db p)
             | None => None
             end) j.
Proof.
  intros Hpk Hin. rewrite parent_ref_unfold, get_update_tag by reflexivity.
  unfold repoint. destruct (j =? id tag) eqn:E.
  - apply String.eqb_eq in E. subst j. rewrite (pk_unique_get _ _ Hpk Hin). simpl.
    destruct npid as [p|]; [|reflexivity].
    now apply get_update_tag_exists.
  - rewrite parent_ref_unfold. destruct (get db j) as [t|]; [|reflexivity].
    destruct (parent_id t) as [p|]; [|reflexivity].
    now apply get_update_tag_exists.
Qed.

Lemma get_empty_id db : (forall t, In t (tags db) -> id t <> "") -> get db "" = None.
Proof.
  intro H. destruct (get db "") as [t|] eqn:E; [|reflexivity].
  destruct (get_In _ _ _ E) as [Hin Hid]. now destruct (H t Hin).
Qed.

Lemma repoint_well_formed db tag npid lv :
  well_formed db -> In tag (tags db) ->
  (npid = None \/ npid = Some "" \/
   exists np, npid = Some (id np) /\ In np (tags db) /\ id np <> id tag /\
              ~ is_ancestor db (id tag) (id np)) ->
  well_formed (update_tag (id tag) (fun t => set_level lv (set_parent_id npid t)) db).
Proof.
  intros [Hpk Hids Hact Hrefs Hacy] Hin Hnp. constructor.
  - unfold pk_unique. now rewrite update_tag_ids.
  - intros t' Ht'. destruct (update_tag_In _ _ _ _ Ht') as (t & Ht & [[_ ->]|[_ ->]]);
      simpl; auto.
  - intros t' Ht'. destruct (update_tag_In _ _ _ _ Ht') as (t & Ht & [[_ ->]|[_ ->]]);
      simpl; auto.
  - intros t' p Ht' Hp.
    assert (Hex : forall q, get db q <> None ->
                    get (update_tag (id tag) (fun t => set_level lv (set_parent_id npid t)) db) q
                    <> None).
    { intros q Hq E.
      pose proof (get_update_tag_exists (id tag)
                    (fun t => set_level lv (set_parent_id npid t)) db q (fun _ => eq_refl)) as X.
      rewrite E in X. destruct (get db q); [discriminate X|congruence]. }
    destruct (update_tag_In _ _ _ _ Ht') as (t & Ht & [[_ ->]|[_ ->]]).
    + destruct (Hrefs t p Ht Hp) as [->|Hg]; [now left|right; auto].
    + simpl in Hp. destruct Hnp as [->|[->|(np & -> & Hnp & _)]].
      * discriminate.
      * injection Hp as <-. now left.
      * injection Hp as <-. right. apply Hex.
        rewrite (pk_unique_get _ _ Hpk Hnp). discriminate.
  - intros i Hi. unfold is_ancestor in Hi.
    apply (ancestor_ext _ _ _ _ (fun j => parent_ref_update db tag npid lv j Hpk Hin)) in Hi.
    revert Hi. apply repoint_acyclic; [exact Hacy|].
    intros p Hv. destruct Hnp as [->|[->|(np & -> & Hnp & Hne & Hna)]].
    + discriminate.
    + rewrite (get_empty_id db Hids) in Hv. discriminate.
    + rewrite (pk_unique_get _ _ Hpk Hnp) in Hv. injection Hv as <-. auto.
Qed.

Lemma get_insert db tag j :
  get (mkDB (tags db ++ [tag]) (entry_tags db)) j
  = match get db j with
    | Some t => Some t
    | None => if id tag =? j then Some tag else None
    end.
Proof.
  unfold get. simpl. induction (tags db) as [|a l IH]; simpl.
  - reflexivity.
  - destruct (id a =? j); [reflexivity|exact IH].
Qed.

Lemma insert_well_formed db tag :
  well_formed db -> get db (id tag) = None -> id tag <> "" -> status tag = active ->
  (parent_id tag = None \/ parent_id tag = Some "" \/
   exists p, parent_id tag = Some p /\ get db p <> None) ->
  well_formed (mkDB (tags db ++ [tag]) (entry_tags db)).
Proof.
  intros [Hpk Hids Hact Hrefs Hacy] Hnew Hid Hst Hpar.
  set (db1 := mkDB (tags db ++ [tag]) (entry_tags db)).
  assert (Hex : forall q, get db q <> None -> get db1 q = get db q).
  { intros q Hq. unfold db1. rewrite get_insert. destruct (get db q); congruence. }
  assert (Hempty : get db1 "" = None).
  { unfold db1. rewrite get_insert, (get_empty_id db Hids).
    destruct (id tag =? "") eqn:E; [|reflexivity]. apply String.eqb_eq in E. congruence. }
  assert (Hold : forall t p, In t (tags db) -> parent_id t = Some p ->
                             option_map id (get db1 p) = option_map id (get db p)).
  { intros t p Ht Hp. destruct (Hrefs t p Ht Hp) as [->|Hg].
    - now rewrite Hempty, (get_empty_id db Hids).
    - now rewrite Hex. }
  constructor.
  - unfold pk_unique. simpl. rewrite map_app. simpl.
    apply NoDup_rev in Hpk. rewrite <- (rev_involutive (_ ++ _)).
    apply NoDup_rev. rewrite rev_app_distr. simpl. constructor; [|exact Hpk].
    rewrite <- in_rev. now apply get_None_not_In.
  - intros t Ht. simpl in Ht. apply in_app_or in Ht. destruct Ht as [Ht|[<-|[]]]; auto.
  - intros t Ht. simpl in Ht. apply in_app_or in Ht. destruct Ht as [Ht|[<-|[]]]; auto.
  - intros t p Ht Hp. simpl in Ht. apply in_app_or in Ht. destruct Ht as [Ht|[<-|[]]].
    + destruct (Hrefs t p Ht Hp) as [->|Hg]; [now left|right].
      fold db1. rewrite Hex; auto.
    + destruct Hpar as [E|[E|(q & E & Hq)]]; rewrite E in Hp.
      * discriminate.
      * injection Hp as <-. now left.
      * injection Hp as <-. right. fold db1. rewrite Hex; auto.
  - assert (Href : forall j, parent_ref db1 j
                   = repoint (parent_ref db) (id tag)
                             (match parent_id tag with
                              | Some p => option_map id (get db1 p)
                              | None => None
                              end) j).
    { intro j. rewrite parent_ref_unfold. unfold repoint, db1 at 1. rewrite get_insert.
      destruct (j =? id tag) eqn:E.
      - apply String.eqb_eq in E. subst j. rewrite Hnew, String.eqb_refl. reflexivity.
      - rewrite parent_ref_unfold. destruct (get db j) as [t|] eqn:Ej.
        + destruct (parent_id t) as [p|] eqn:Ep; [|reflexivity].
          destruct (get_In _ _ _ Ej) as [Ht _]. exact (Hold t p Ht Ep).
        + rewrite String.eqb_sym, E. reflexivity. }
    intros i Hi. unfold is_ancestor in Hi.
    apply (ancestor_ext _ _ _ _ Href) in Hi.
    revert Hi. apply repoint_acyclic; [exact Hacy|].
    intros p Hv. split.
    + intros ->. destruct Hpar as [E|[E|(q & E & Hq)]]; rewrite E in Hv.
      * discriminate.
      * rewrite Hempty in Hv. discriminate.
      * rewrite Hex in Hv by exact Hq. rewrite get_exists_id in Hv.
        destruct (get db q) eqn:Eq; [|discriminate]. injection Hv as ->. congruence.
    + intro Ha. apply (ancestor_exists db) in Ha. congruence.
Qed.

(** ** Every reachable table is well formed *)

Lemma truthy_value_Some o s : truthy_value o = Some s -> o = Some s /\ s <> "".
Proof.
  unfold truthy_value, truthy. destruct o as [x|]; [|discriminate].
  destruct (x =? "") eqn:E; simpl; [discriminate|].
  intro H. injection H as ->. apply String.eqb_neq in E. auto.
Qed.

Lemma truthy_value_None o : truthy_value o = None -> o = None \/ o = Some "".
Proof.
  unfold truthy_value, truthy. destruct o as [x|]; [|auto].
  destruct (x =? "") eqn:E; simpl; [|discriminate].
  apply String.eqb_eq in E. subst. auto.
Qed.

Lemma move_tag_cases fuel db tag_id0 npid uid ok msg db' :
  move_tag fuel db tag_id0 npid uid = Some (ok, msg, db') ->
  (ok = false /\ db' = db) \/
  exists tag lv,
    ok = true /\
    get_active db tag_id0 = Some tag /\
    (npid = None \/ npid = Some "" \/
     exists np, npid = Some (id np) /\ get_active db (id np) = Some np /\
                can_be_parent_of fuel db np tag = Some true) /\
    update_path fuel
      (update_tag (id tag) (fun t => set_level lv (set_parent_id npid t)) db)
      (set_level lv (set_parent_id npid tag)) = Some db'.
Proof.
  unfold move_tag. destruct (get_active db tag_id0) as [tag|] eqn:Et.
  2:{ intro H. injection H as <- _ <-. now left. }
  destruct (truthy_value npid) as [pid|] eqn:Ep.
  - apply truthy_value_Some in Ep. destruct Ep as [-> Hpid].
    destruct (get_active db pid) as [np|] eqn:Enp.
    2:{ intro H. injection H as <- _ <-. now left. }
    destruct (get_active_In _ _ _ Enp) as (_ & Hid & _).
    destruct (can_be_parent_of fuel db np tag) as [[|]|] eqn:Ec; [| |discriminate].
    + destruct (references_ok _ _); [|intro H; injection H as <- _ <-; now left].
      destruct (update_path _ _ _) as [db2|] eqn:Eu; [|discriminate].
      intro H. injection H as <- _ <-. right. exists tag, (level np + 1).
      repeat split; auto. right. right. exists np. subst pid. auto.
    + intro H. injection H as <- _ <-. now left.
  - destruct (references_ok _ _); [|intro H; injection H as <- _ <-; now left].
    destruct (update_path _ _ _) as [db2|] eqn:Eu; [|discriminate].
    intro H. injection H as <- _ <-. right. exists tag, 0.
    repeat split; auto. destruct (truthy_value_None _ Ep); auto.
Qed.

Lemma create_tag_cases fuel db new_id name0 uid parent_id0 description0 name_en0
    category0 domain0 is_abstract0 aliases0 properties0 ok msg tag db' :
  create_tag fuel db new_id name0 uid parent_id0 description0 name_en0
             category0 domain0 is_abstract0 aliases0 properties0
  = Some (ok, msg, tag, db') ->
  (ok = false /\ db' = db) \/
  exists row,
    ok = true /\
    id row = new_id /\ name row = strip name0 /\ parent_id row = parent_id0 /\
    status row = active /\
    get db new_id = None /\
    get_active_by_name db (strip name0) = None /\
    (parent_id0 = None \/ parent_id0 = Some "" \/
     exists p, parent_id0 = Some p /\ get_active db p <> None) /\
    update_path fuel (mkDB (tags db ++ [row]) (entry_tags db)) row = Some db'.
Proof.
  unfold create_tag.
  destruct ((name0 =? "") || (String.length (strip name0) =? 0)%nat).
  { intro H. injection H as <- _ _ <-. now left. }
  destruct (get_active_by_name db (strip name0)) eqn:En.
  { intro H. injection H as <- _ _ <-. now left. }
  destruct (truthy_value parent_id0) as [pid|] eqn:Ep.
  - apply truthy_value_Some in Ep. destruct Ep as [-> Hpid].
    destruct (get_active db pid) as [parent_tag|] eqn:Epar.
    2:{ intro H. injection H as <- _ _ <-. now left. }
    destruct (get db new_id) eqn:Eg.
    { intro H. injection H as <- _ _ <-. now left. }
    destruct (100 <? _)%nat; [intro H; injection H as <- _ _ <-; now left|].
    destruct (references_ok _ _); [|intro H; injection H as <- _ _ <-; now left].
    destruct (update_path _ _ _) as [db2|] eqn:Eu; [|discriminate].
    intro H. injection H as <- _ _ <-. right.
    match type of Eu with update_path _ _ ?r = _ => exists r end.
    repeat (split; [reflexivity || assumption|]).
    split; [|exact Eu].
    right. right. exists pid. split; [reflexivity|congruence].
  - destruct (get db new_id) eqn:Eg.
    { intro H. injection H as <- _ _ <-. now left. }
    destruct (100 <? _)%nat; [intro H; injection H as <- _ _ <-; now left|].
    destruct (references_ok _ _); [|intro H; injection H as <- _ _ <-; now left].
    destruct (update_path _ _ _) as [db2|] eqn:Eu; [|discriminate].
    intro H. injection H as <- _ _ <-. right.
    match type of Eu with update_path _ _ ?r = _ => exists r end.
    repeat (split; [reflexivity || assumption|]).
    split; [|exact Eu].
    destruct (truthy_value_None _ Ep); auto.
Qed.

Lemma get_active_get db i t : get_active db i = Some t -> get db i <> None.
Proof.
  unfold get_active, get. intros H E.
  destruct (find_some _ _ H) as [Hin Hb]. apply andb_true_iff in Hb.
  pose proof (find_none _ _ E _ Hin) as Hf. simpl in Hf. destruct Hb. congruence.
Qed.

Lemma is_uuid_nonempty s : is_uuid s -> s <> "".
Proof. unfold is_uuid. intros H ->. discriminate H. Qed.

Lemma reachable_well_formed db : reachable db -> well_formed db.
Proof.
  induction 1 as [es
                 |db fuel new_id name0 uid parent_id0 description0 name_en0 category0
                     domain0 is_abstract0 aliases0 properties0 ok msg tag db' Hr IH Hu Hc
                 |db fuel tag_id0 npid uid ok msg db' Hr IH Hm].
  - constructor; simpl; try (intros; contradiction).
    + constructor.
    + intros i Hi. apply ancestor_exists in Hi. now apply Hi.
  - apply create_tag_cases in Hc.
    destruct Hc as [[_ ->]|(row & _ & Hid & _ & Hp & Hs & Hnew & _ & Hpar & Hup)]; [exact IH|].
    apply update_path_skeleton in Hup. eapply well_formed_skeleton; [exact Hup|].
    apply insert_well_formed; auto.
    + now rewrite Hid.
    + rewrite Hid. now apply is_uuid_nonempty.
    + rewrite Hp. destruct Hpar as [E|[E|(p & E & Hg)]]; auto.
      right. right. exists p. split; [exact E|].
      destruct (get_active db p) as [x|] eqn:Ex; [|congruence].
      eapply get_active_get; eauto.
  - apply move_tag_cases in Hm.
    destruct Hm as [[_ ->]|(tag & lv & _ & Ht & Hnp & Hup)]; [exact IH|].
    apply update_path_skeleton in Hup. eapply well_formed_skeleton; [exact Hup|].
    destruct (get_active_In _ _ _ Ht) as (Hin & _ & _).
    apply repoint_well_formed; auto.
    destruct Hnp as [E|[E|(np & E & Hg & Hc)]]; auto.
    right. right. exists np. destruct (get_active_In _ _ _ Hg) as (Hnin & _ & _).
    destruct (can_be_parent_of_true db fuel np tag (wf_pk _ IH) Hnin Hc). auto.
Qed.

(** ** Moves that would close a cycle are refused *)

Lemma get_active_all_active db i :
  (forall t, In t (tags db) -> status t = active) -> get_active db i = get db i.
Proof.
  unfold get_active, get. intro H. induction (tags db) as [|a l IH]; simpl; [reflexivity|].
  assert (Ha : is_active a = true)
    by (unfold is_active; rewrite (H a (or_introl eq_refl)); reflexivity).
  rewrite Ha, andb_true_r. destruct (id a =? i); [reflexivity|].
  apply IH. intros t Ht. apply H. now right.
Qed.

Lemma descendant_exists db a i : is_ancestor db a i -> get db i <> None.
Proof.
  intro H. assert (Hp : exists p, parent_ref db i = Some p) by (inversion H; eauto).
  destruct Hp as [p Hp]. rewrite parent_ref_unfold in Hp.
  destruct (get db i); [discriminate|discriminate Hp].
Qed.

Lemma can_be_parent_of_returns db fuel np tag :
  pk_unique db -> (forall i, ~ is_ancestor db i i) ->
  In np (tags db) -> (List.length (tags db) <= fuel)%nat ->
  can_be_parent_of fuel db np tag <> None.
Proof.
  intros Hpk Hacy Hin Hlen. unfold can_be_parent_of.
  destruct (id np =? id tag); [discriminate|].
  pose proof (get_ancestors_terminates db fuel np Hpk Hacy Hin Hlen) as Ht.
  destruct (get_ancestors fuel db np); [discriminate|congruence].
Qed.

Lemma move_tag_refuses_cycle db tag_id0 new_parent user_id fuel :
  well_formed db ->
  get db tag_id0 <> None ->
  new_parent = tag_id0 \/ is_ancestor db tag_id0 new_parent ->
  (List.length (tags db) <= fuel)%nat ->
  move_tag fuel db tag_id0 (Some new_parent) user_id = Some (false, MoveCycle, db).
Proof.
  intros [Hpk Hids Hact Hrefs Hacy] Htag Hcyc Hlen.
  assert (Hnp : get db new_parent <> None).
  { destruct Hcyc as [->|Ha]; [exact Htag|]. eapply descendant_exists; eauto. }
  destruct (get db tag_id0) as [tag|] eqn:Et; [|congruence].
  destruct (get db new_parent) as [np|] eqn:En; [|congruence].
  destruct (get_In _ _ _ Et) as [Htin Htid].
  destruct (get_In _ _ _ En) as [Hnin Hnid].
  unfold move_tag. rewrite (get_active_all_active db tag_id0 Hact), Et.
  assert (Etr : truthy_value (Some new_parent) = Some new_parent).
  { unfold truthy_value, truthy.
    assert (E : (new_parent =? "") = false)
      by (apply String.eqb_neq; rewrite <- Hnid; auto).
    now rewrite E. }
  rewrite Etr, (get_active_all_active db new_parent Hact), En.
  destruct (can_be_parent_of fuel db np tag) as [[|]|] eqn:Ec.
  - exfalso. destruct (can_be_parent_of_true db fuel np tag Hpk Hnin Ec) as [Hne Hna].
    rewrite Hnid, Htid in *. destruct Hcyc; auto.
  - reflexivity.
  - exfalso. now apply (can_be_parent_of_returns db fuel np tag Hpk Hacy Hnin Hlen).
Qed.

(** C3. In every table reached from the empty one by calls of [create_tag] and
    [move_tag], no tag is its own ancestor; and [move_tag] refuses, with the
    circular-reference message and without changing anything, to move a tag
    under itself or under one of its descendants.  The refusal comes from
    the walk over the ancestors of the new parent, which returns as soon as
    the fuel covers the number of tags. *)
Theorem no_tag_is_its_own_ancestor db :
  reachable db ->
  (forall i, ~ is_ancestor db i i) /\
  (forall tag_id0 new_parent user_id fuel,
      get db tag_id0 <> None ->
      new_parent = tag_id0 \/ is_ancestor db tag_id0 new_parent ->
      (List.length (tags db) <= fuel)%nat ->
      move_tag fuel db tag_id0 (Some new_parent) user_id = Some (false, MoveCycle, db)).
Proof.
  intro Hr. apply reachable_well_formed in Hr. split.
  - exact (wf_acyclic _ Hr).
  - intros. now apply move_tag_refuses_cycle.
Qed.

Lemma scenario_db_reachable : reachable scenario_db.
Proof.
  eapply (reach_create (mkDB [animal_row] []) 1 cat_id "Cat" "u1" (Some animal_id)
            "" "" "biological" "general" false [] []).
  - eapply (reach_create (mkDB [] []) 1 animal_id "Animal" "u1" None
              "" "" "biological" "general" false [] []).
    + apply reach_empty.
    + reflexivity.
    + reflexivity.
  - reflexivity.
  - reflexivity.
Qed.

Lemma no_tag_is_its_own_ancestor_witness :
  reachable scenario_db /\
  (forall i, ~ is_ancestor scenario_db i i) /\
  is_ancestor scenario_db animal_id cat_id /\
  move_tag 2 scenario_db animal_id (Some cat_id) "u1" = Some (false, MoveCycle, scenario_db) /\
  move_tag 2 scenario_db animal_id (Some animal_id) "u1" = Some (false, MoveCycle, scenario_db).
Proof.
  pose proof scenario_db_reachable as Hr.
  destruct (no_tag_is_its_own_ancestor scenario_db Hr) as [Hacy Hmove].
  assert (Ha : is_ancestor scenario_db animal_id cat_id)
    by (apply ancestor_parent; reflexivity).
  split; [exact Hr|]. split; [exact Hacy|]. split; [exact Ha|]. split.
  - apply Hmove; [discriminate|right; exact Ha|simpl; lia].
  - apply Hmove; [discriminate|left; reflexivity|simpl; lia].
Defined.

(** ** Moving a subtree ([move_tag]) *)

(** The scenario of the specification: "Cat" moved to the top level gets
    level 0 and the path "Cat". *)
Example move_cat_to_root :
  option_map (fun r => map (fun t => (name t, parent_id t, level t, path t)) (tags (snd r)))
             (move_tag 2 scenario_db cat_id None "u1")
  = Some [ ("Animal", None, 0, Some "Animal"); ("Cat", None, 0, Some "Cat") ].
Proof. reflexivity. Qed.

Lemma family_db_reachable : reachable family_db.
Proof.
  eapply (reach_create scenario_db 1 kitten_id "Kitten" "u1" (Some cat_id)
            "" "" "biological" "general" false [] []).
  - exact scenario_db_reachable.
  - reflexivity.
  - reflexivity.
Qed.

(** C2 (code defect). [family_db] is what three calls of [create_tag] build:
    "Kitten" (level 2) under "Cat" (level 1) under "Animal" (level 0).  Moving
    "Cat" to the top level succeeds; the paths of "Cat" and of "Kitten" are
    rewritten and the level of "Cat" becomes 0, but the level of "Kitten"
    stays 2 although its parent is now at level 0: [move_tag] sets the level
    of the moved tag only and [update_path] cascades paths, not levels. *)
Theorem move_tag_leaves_descendant_level_stale :
  reachable family_db /\
  exists db' cat kitten,
    move_tag 3 family_db cat_id None "u1" = Some (true, Moved, db') /\
    get db' cat_id = Some cat /\ get db' kitten_id = Some kitten /\
    status kitten = active /\ parent db' kitten = Some cat /\
    path cat = Some "Cat" /\ path kitten = Some "Cat/Kitten" /\
    level cat = 0 /\ level kitten = 2 /\
    level kitten <> level cat + 1.
Proof.
  split; [exact family_db_reachable|].
  eexists _, _, _. repeat split; try reflexivity. discriminate.
Qed.

(** ** Creating a tag ([create_tag]) *)


Lemma filter_none {A} (f : A -> bool) l :
  (forall x, In x l -> f x = false) -> filter f l = [].
Proof.
  induction l as [|a l IH]; simpl; intro H; [reflexivity|].
  rewrite (H a (or_introl eq_refl)). apply IH. intros x Hx. apply H. now right.
Qed.

(** ** What a move leaves untouched *)

Lemma Forall2_trans_rel {A} (R : A -> A -> Prop) l1 l2 l3 :
  (forall a b c, R a b -> R b c -> R a c) ->
  Forall2 R l1 l2 -> Forall2 R l2 l3 -> Forall2 R l1 l3.
Proof.
  intros HR H. revert l3. induction H; intros l3 H3; inversion H3; subst; constructor; eauto.
Qed.

(** [update_path] writes paths and nothing else. *)
Lemma update_path_only_path fuel :
  forall db self db',
    update_path fuel db self = Some db' ->
    Forall2 (fun t t' => t' = set_path (path t') t) (tags db) (tags db').
Proof.
  assert (Htrans : forall a b c : Tag,
             b = set_path (path b) a -> c = set_path (path c) b -> c = set_path (path c) a).
  { intros a b c Hb Hc. rewrite Hc at 1. rewrite Hb. reflexivity. }
  induction fuel as [|fuel IH]; intros db self db' H; simpl in H; [discriminate|].
  match type of H with for_each _ _ ?d1 = _ =>
    assert (H1 : Forall2 (fun t t' => t' = set_path (path t') t) (tags db) (tags d1))
  end.
  { unfold update_tag. simpl. induction (tags db) as [|a l IHl]; simpl; constructor; auto.
    destruct (id a =? id self); [reflexivity|now destruct a]. }
  eapply (for_each_inv _ (fun d => Forall2 (fun t t' => t' = set_path (path t') t)
                                           (tags db) (tags d))); [exact H1| |exact H].
  intros x s0 s1 _ Hs0 Hx. eapply Forall2_trans_rel; [exact Htrans|exact Hs0|]. eauto.
Qed.

(** A successful move rewrites the parent and the level of the moved tag and
    the paths below it; the level and the parent of every other tag, its
    descendants included, are what they were. *)
Lemma move_tag_keeps_other_levels fuel db tag_id0 npid uid msg db' :
  move_tag fuel db tag_id0 npid uid = Some (true, msg, db') ->
  Forall2 (fun t t' => id t' = id t /\
                       (id t <> tag_id0 ->
                        level t' = level t /\ parent_id t' = parent_id t))
          (tags db) (tags db').
Proof.
  intro H. apply move_tag_cases in H.
  destruct H as [[E _]|(tag & lv & _ & Ht & _ & Hup)]; [discriminate|].
  destruct (get_active_In _ _ _ Ht) as (_ & Hid & _).
  apply update_path_only_path in Hup. rewrite Hid in Hup.
  unfold update_tag in Hup. simpl in Hup. remember (tags db') as l' eqn:El'. clear El' Hid Ht.
  revert l' Hup. induction (tags db) as [|a l IH]; intros l' Hup; simpl in Hup;
    inversion Hup as [|x y xs ys Hxy Hrest]; subst; constructor; auto.
  rewrite Hxy. destruct (id a =? tag_id0) eqn:E; simpl.
  - split; [reflexivity|]. intro Hne. apply String.eqb_eq in E. congruence.
  - split; [reflexivity|]. auto.
Qed.

(** * Further properties of the operations *)

(** ** Merging: what becomes of the source and of the taggings *)

Lemma merge_source_fields tgt t :
  id (merge_source tgt t) = id t /\ status (merge_source tgt t) = merged /\
  usage_count (merge_source tgt t) = usage_count t /\
  aliases (merge_source tgt t) = aliases t /\
  properties (merge_source tgt t)
  = match properties t with
    | [] => [("merged_to", tgt)]
    | _ :: _ => properties t
    end.
Proof.
  unfold merge_source. simpl. destruct (properties t) eqn:E; simpl; repeat split; auto.
Qed.

Lemma get_active_none_if_inactive db i :
  (forall t, In t (tags db) -> id t = i -> status t <> active) -> get_active db i = None.
Proof.
  intro H. unfold get_active. destruct (find _ (tags db)) as [t|] eqn:E; [|reflexivity].
  apply find_some in E. destruct E as [Hin Hb]. apply andb_true_iff in Hb.
  destruct Hb as [Hi Ha]. apply String.eqb_eq in Hi. apply Status_eqb_eq in Ha.
  now destruct (H t Hin Hi).
Qed.

Lemma merge_tags_source_inactive db src tgt uid m db' :
  merge_tags db src tgt uid = (true, m, db') -> get_active db' src = None.
Proof.
  intro H. apply merge_tags_success in H.
  destruct H as (s & t & Hs & Ht & Hne & _ & Htags & _).
  destruct (get_active_In _ _ _ Hs) as (_ & His & _).
  apply get_active_none_if_inactive. rewrite Htags. intros x Hx Hid.
  apply in_map_iff in Hx. destruct Hx as (a & <- & Ha). unfold merged_row in *.
  destruct (id a =? id s) eqn:E.
  { destruct (merge_source_fields (id t) a) as (_ & -> & _). discriminate. }
  apply String.eqb_neq in E. exfalso. apply E.
  destruct (id a =? id t); [|congruence].
  destruct (merge_target_fields s a) as (F & _). congruence.
Qed.

(** X1. After a successful merge the source tag has status [merged], keeps
    its counter and its aliases and no longer resolves as an active tag.  The
    id of the target is stored under the key "merged_to" of the source's
    properties only when these were empty; properties that were not empty are
    stored as they were, without the key. *)
Theorem merge_tags_retires_source db src tgt uid m db' :
  merge_tags db src tgt uid = (true, m, db') ->
  get_active db' src = None /\
  Forall2 (fun t t' =>
             id t = src ->
             status t' = merged /\
             (properties t = [] -> properties t' = [("merged_to", tgt)]) /\
             (properties t <> [] -> properties t' = properties t) /\
             usage_count t' = usage_count t /\ aliases t' = aliases t)
          (tags db) (tags db').
Proof.
  intro H. split; [eapply merge_tags_source_inactive; eauto|].
  apply merge_tags_success in H.
  destruct H as (s & t & Hs & Ht & Hne & _ & Htags & _).
  destruct (get_active_In _ _ _ Hs) as (_ & His & _).
  destruct (get_active_In _ _ _ Ht) as (_ & Hit & _).
  rewrite Htags. clear Htags.
  induction (tags db) as [|a l IH]; simpl; constructor; auto.
  intro Ha. unfold merged_row.
  assert (E : (id a =? id s) = true) by (apply String.eqb_eq; congruence).
  rewrite E. destruct (merge_source_fields (id t) a) as (_ & F1 & F2 & F3 & F4).
  rewrite F1, F2, F3, F4, Hit.
  split; [reflexivity|]. split; [intros ->; reflexivity|].
  split; [|split; reflexivity].
  intro Hp. destruct (properties a); [congruence|reflexivity].
Qed.

Lemma merge_tags_retires_source_witness :
  (exists m db',
      merge_tags merge_props_db "s" "t" "u1" = (true, m, db') /\
      get_active db' "s" = None /\
      Forall2 (fun t t' =>
                 id t = "s" ->
                 status t' = merged /\
                 (properties t = [] -> properties t' = [("merged_to", "t")]) /\
                 (properties t <> [] -> properties t' = properties t) /\
                 usage_count t' = usage_count t /\ aliases t' = aliases t)
              (tags merge_props_db) (tags db')) /\
  (exists m db',
      merge_tags merge_db "s" "t" "u1" = (true, m, db') /\
      get_active db' "s" = None /\
      Forall2 (fun t t' =>
                 id t = "s" ->
                 status t' = merged /\
                 (properties t = [] -> properties t' = [("merged_to", "t")]) /\
                 (properties t <> [] -> properties t' = properties t) /\
                 usage_count t' = usage_count t /\ aliases t' = aliases t)
              (tags merge_db) (tags db')).
Proof.
  split.
  - eexists _, _. split; [reflexivity|].
    eapply (merge_tags_retires_source merge_props_db "s" "t" "u1"). reflexivity.
  - eexists _, _. split; [reflexivity|].
    eapply (merge_tags_retires_source merge_db "s" "t" "u1"). reflexivity.
Defined.

(** The custom property of "Feline" survives the merge, and the key
    "merged_to" is not stored beside it. *)
Example merge_keeps_old_properties :
  exists m db' source',
    merge_tags merge_props_db "s" "t" "u1" = (true, m, db') /\
    get db' "s" = Some source' /\
    status source' = merged /\ properties source' = [("origin", "import")].
Proof. eexists _, _, _. repeat split; reflexivity. Qed.

(** X2. A merged tag takes part in no further merge: once [merge_tags] has
    succeeded, a merge with the same source, or with the old source as its
    target, answers "tag does not exist" and changes nothing. *)
Theorem merge_tags_merged_is_final db src tgt uid m db' :
  merge_tags db src tgt uid = (true, m, db') ->
  forall other uid',
    merge_tags db' src other uid' = (false, MergeTagMissing, db') /\
    merge_tags db' other src uid' = (false, MergeTagMissing, db').
Proof.
  intros H other uid'. apply merge_tags_source_inactive in H.
  unfold merge_tags. rewrite H. split; [reflexivity|].
  destruct (get_active db' other); reflexivity.
Qed.

Lemma merge_tags_merged_is_final_witness :
  exists m db',
    merge_tags merge_db "s" "t" "u1" = (true, m, db') /\
    forall other uid',
      merge_tags db' "s" other uid' = (false, MergeTagMissing, db') /\
      merge_tags db' other "s" uid' = (false, MergeTagMissing, db').
Proof.
  eexists _, _. split; [reflexivity|].
  eapply (merge_tags_merged_is_final merge_db "s" "t" "u1"). reflexivity.
Defined.

(** X3. [merge_tags] is all or nothing: a call that does not succeed leaves
    the table as it was, and a tag is never merged into itself. *)
Theorem merge_tags_fails_cleanly db src tgt uid :
  (fst (fst (merge_tags db src tgt uid)) = true \/ snd (merge_tags db src tgt uid) = db) /\
  fst (fst (merge_tags db src src uid)) = false.
Proof.
  split.
  - unfold merge_tags.
    destruct (get_active db src) as [s|]; [|now right].
    destruct (get_active db tgt) as [t|]; [|now right].
    destruct (id s =? id t); [now right|].
    destruct (retag_conflict src tgt (entry_tags db)); [now right|now left].
  - unfold merge_tags. destruct (get_active db src) as [s|]; [|reflexivity].
    now rewrite String.eqb_refl.
Qed.

Lemma retag_count src tgt es :
  src <> tgt ->
  List.length (filter (fun e => tag_id e =? tgt) (map (retag src tgt) es))
  = Nat.add (List.length (filter (fun e => tag_id e =? tgt) es))
            (List.length (filter (fun e => tag_id e =? src) es)).
Proof.
  intro Hne. induction es as [|e es IH]; simpl; [reflexivity|].
  unfold retag at 1. destruct (tag_id e =? src) eqn:Es; simpl.
  - rewrite String.eqb_refl. apply String.eqb_eq in Es.
    assert (Et : (tag_id e =? tgt) = false) by (apply String.eqb_neq; congruence).
    rewrite Et. simpl. rewrite IH. lia.
  - destruct (tag_id e =? tgt); simpl; rewrite IH; lia.
Qed.

Lemma retag_no_source src tgt es :
  src <> tgt -> filter (fun e => tag_id e =? src) (map (retag src tgt) es) = [].
Proof.
  intro Hne. apply filter_none. intros x Hx. apply in_map_iff in Hx.
  destruct Hx as (e & <- & _). unfold retag.
  destruct (tag_id e =? src) eqn:Es; simpl; [|exact Es].
  apply String.eqb_neq. congruence.
Qed.

Lemma retag_conflict_false src tgt es e e' :
  retag_conflict src tgt es = false -> In e es -> In e' es ->
  tag_id e = src -> tag_id e' = tgt -> entry_id e' <> entry_id e.
Proof.
  intros Hc He He' Hs Ht Heq. unfold retag_conflict in Hc.
  assert (existsb (fun e0 => (tag_id e0 =? src) &&
            existsb (fun e1 => (entry_id e1 =? entry_id e0) && (tag_id e1 =? tgt)) es) es
          = true); [|congruence].
  apply existsb_exists. exists e. split; [exact He|].
  apply andb_true_iff. split; [now apply String.eqb_eq|].
  apply existsb_exists. exists e'. split; [exact He'|].
  apply andb_true_iff. split; now apply String.eqb_eq.
Qed.

Lemma NoDup_map_rel {A B C} (f : A -> B) (g : A -> C) l :
  (forall x y, In x l -> In y l -> f x = f y -> g x = g y) ->
  NoDup (map g l) -> NoDup (map f l).
Proof.
  induction l as [|a l IH]; simpl; intros Hinj Hnd; [constructor|].
  inversion Hnd as [|? ? Hnotin Hnd']; subst. constructor.
  - intro Hin. apply in_map_iff in Hin. destruct Hin as (x & Hx & Hxl).
    apply Hnotin. rewrite <- (Hinj x a (or_intror Hxl) (or_introl eq_refl) Hx).
    now apply in_map.
  - apply IH; auto.
Qed.

(** X4. A successful merge moves the taggings of the source to the target:
    afterwards no tagging names the source, the target has the taggings of
    both, the number of taggings is unchanged, and the primary key
    (entry, tag) of [entry_tags] is still unique. *)
Theorem merge_tags_moves_taggings db src tgt uid m db' :
  merge_tags db src tgt uid = (true, m, db') ->
  taggings db' src = 0%nat /\
  taggings db' tgt = (taggings db tgt + taggings db src)%nat /\
  List.length (entry_tags db') = List.length (entry_tags db) /\
  (NoDup (map entry_key (entry_tags db)) -> NoDup (map entry_key (entry_tags db'))).
Proof.
  intro H.
  assert (Hc : retag_conflict src tgt (entry_tags db) = false).
  { unfold merge_tags in H.
    destruct (get_active db src); [|discriminate].
    destruct (get_active db tgt); [|discriminate].
    destruct (id _ =? id _); [discriminate|].
    destruct (retag_conflict src tgt (entry_tags db)); [discriminate|reflexivity]. }
  apply merge_tags_success in H.
  destruct H as (s & t & Hs & Ht & Hne & _ & _ & Hes).
  destruct (get_active_In _ _ _ Hs) as (_ & His & _).
  destruct (get_active_In _ _ _ Ht) as (_ & Hit & _).
  assert (Hst : src <> tgt) by congruence.
  unfold taggings. rewrite Hes. repeat split.
  - now rewrite retag_no_source.
  - now apply retag_count.
  - apply length_map.
  - rewrite map_map. apply NoDup_map_rel.
    intros x y Hx Hy. unfold retag, entry_key.
    destruct (tag_id x =? src) eqn:Ex; destruct (tag_id y =? src) eqn:Ey; simpl;
      intro E; injection E; intros.
    + apply String.eqb_eq in Ex. apply String.eqb_eq in Ey. congruence.
    + apply String.eqb_eq in Ex. exfalso.
      apply (retag_conflict_false src tgt _ x y Hc Hx Hy Ex); congruence.
    + apply String.eqb_eq in Ey. exfalso.
      apply (retag_conflict_false src tgt _ y x Hc Hy Hx Ey); congruence.
    + congruence.
Qed.

Lemma merge_tags_moves_taggings_witness :
  exists m db',
    merge_tags merge_db "s" "t" "u1" = (true, m, db') /\
    NoDup (map entry_key (entry_tags merge_db)) /\
    taggings db' "s" = 0%nat /\
    taggings db' "t" = (taggings merge_db "t" + taggings merge_db "s")%nat /\
    List.length (entry_tags db') = List.length (entry_tags merge_db) /\
    NoDup (map entry_key (entry_tags db')).
Proof.
  assert (Hnd : NoDup (map entry_key (entry_tags merge_db))).
  { simpl. repeat (constructor; [simpl; intuition discriminate|]). constructor. }
  eexists _, _. split; [reflexivity|]. split; [exact Hnd|].
  destruct (merge_tags_moves_taggings merge_db "s" "t" "u1" _ _ eq_refl)
    as (H1 & H2 & H3 & H4).
  repeat split; auto.
Defined.

(** ** Creating: what a call adds *)

Lemma update_path_childless fuel db self :
  children (update_tag (id self) (set_path (Some (expected_path db self))) db) self = [] ->
  update_path (S fuel) db self
  = Some (update_tag (id self) (set_path (Some (expected_path db self))) db).
Proof.
  intro Hk. cbn [update_path]. unfold expected_path in *.
  destruct (parent db self); rewrite Hk; reflexivity.
Qed.

Lemma update_tag_absent i f l es :
  ~ In i (map id l) -> tags (update_tag i f (mkDB l es)) = l.
Proof.
  unfold update_tag. simpl. intro H. induction l as [|a l IH]; simpl; [reflexivity|].
  simpl in H. destruct (id a =? i) eqn:E.
  - apply String.eqb_eq in E. tauto.
  - f_equal. apply IH. tauto.
Qed.

Lemma well_formed_keys_ok db : well_formed db -> keys_ok db.
Proof. intros [Hpk Hids _ Hrefs _]. repeat split; auto. Qed.

(** A call that succeeded has passed the checks of the flush. *)
Ltac flush_passed H :=
  match type of H with
  | context [(100 <? ?n)%nat] => destruct (100 <? n)%nat eqn:?; [discriminate H|]
  end;
  match type of H with
  | context [references_ok ?d ?t] => destruct (references_ok d t) eqn:?; [|discriminate H]
  end.

(** The shape of a successful [create_tag] on a table with sound keys. *)
Lemma create_tag_shape fuel db new_id name0 uid parent_id0 description0 name_en0
    category0 domain0 is_abstract0 aliases0 properties0 msg tag db' :
  keys_ok db -> is_uuid new_id ->
  create_tag fuel db new_id name0 uid parent_id0 description0 name_en0
             category0 domain0 is_abstract0 aliases0 properties0
  = Some (true, msg, tag, db') ->
  exists lv,
    let row0 := mkTag new_id (strip name0) (Some name_en0) (Some description0) parent_id0
                      lv None category0 domain0 is_abstract0 false active 500 0 0
                      aliases0 properties0 uid in
    let db1 := mkDB (tags db ++ [row0]) (entry_tags db) in
    let row := set_path (Some (expected_path db1 row0)) row0 in
    tag = Some row /\
    db' = mkDB (tags db ++ [row]) (entry_tags db) /\
    lv = expected_level db1 row0 /\
    get db new_id = None /\
    get_active_by_name db (strip name0) = None /\
    strip name0 <> "" /\
    option_string_eqb parent_id0 new_id = false.
Proof.
  intros (Hpk & Hids & Hrefs) Hu H. unfold create_tag in H.
  destruct ((name0 =? "") || (String.length (strip name0) =? 0)%nat) eqn:E0; [discriminate|].
  apply orb_false_iff in E0. destruct E0 as [_ E0]. apply Nat.eqb_neq in E0.
  assert (Hname : strip name0 <> "") by (intro E; rewrite E in E0; now apply E0).
  destruct (get_active_by_name db (strip name0)) eqn:En; [discriminate|].
  assert (Hnew_ne : new_id <> "") by now apply is_uuid_nonempty.
  assert (Hmain : forall lv,
    get db new_id = None ->
    lv = expected_level (mkDB (tags db ++ [mkTag new_id (strip name0) (Some name_en0)
            (Some description0) parent_id0 lv None category0 domain0 is_abstract0 false
            active 500 0 0 aliases0 properties0 uid]) (entry_tags db))
           (mkTag new_id (strip name0) (Some name_en0)
            (Some description0) parent_id0 lv None category0 domain0 is_abstract0 false
            active 500 0 0 aliases0 properties0 uid) ->
    match update_path fuel (mkDB (tags db ++ [mkTag new_id (strip name0) (Some name_en0)
            (Some description0) parent_id0 lv None category0 domain0 is_abstract0 false
            active 500 0 0 aliases0 properties0 uid]) (entry_tags db))
           (mkTag new_id (strip name0) (Some name_en0)
            (Some description0) parent_id0 lv None category0 domain0 is_abstract0 false
            active 500 0 0 aliases0 properties0 uid) with
    | Some db2 => Some (true, Created,
                        Some (refresh db2 (mkTag new_id (strip name0) (Some name_en0)
            (Some description0) parent_id0 lv None category0 domain0 is_abstract0 false
            active 500 0 0 aliases0 properties0 uid)), db2)
    | None => None
    end = Some (true, msg, tag, db') ->
    exists lv0,
    let row0 := mkTag new_id (strip name0) (Some name_en0) (Some description0) parent_id0
                      lv0 None category0 domain0 is_abstract0 false active 500 0 0
                      aliases0 properties0 uid in
    let db1 := mkDB (tags db ++ [row0]) (entry_tags db) in
    let row := set_path (Some (expected_path db1 row0)) row0 in
    tag = Some row /\
    db' = mkDB (tags db ++ [row]) (entry_tags db) /\
    lv0 = expected_level db1 row0 /\
    get db new_id = None /\
    option_string_eqb parent_id0 new_id = false /\
    strip name0 <> "").
  { intros lv Hnew Hlv Hres. exists lv. cbv zeta.
    set (row0 := mkTag new_id (strip name0) (Some name_en0) (Some description0) parent_id0
                       lv None category0 domain0 is_abstract0 false active 500 0 0
                       aliases0 properties0 uid) in *.
    set (db1 := mkDB (tags db ++ [row0]) (entry_tags db)) in *.
    assert (Hupd : tags (update_tag new_id (set_path (Some (expected_path db1 row0))) db1)
                   = tags db ++ [set_path (Some (expected_path db1 row0)) row0]).
    { unfold update_tag, db1. simpl. rewrite map_app. simpl. rewrite String.eqb_refl.
      f_equal. pose proof (update_tag_absent new_id
                 (set_path (Some (expected_path db1 row0))) (tags db) (entry_tags db)
                 (get_None_not_In _ _ Hnew)) as X.
      unfold update_tag in X. simpl in X. exact X. }
    assert (Hself : option_string_eqb parent_id0 new_id = false).
    { unfold option_string_eqb. destruct parent_id0 as [q|] eqn:Eq; [|reflexivity].
      apply String.eqb_neq. intros ->.
      unfold truthy_value, truthy in H. apply String.eqb_neq in Hnew_ne.
      rewrite Hnew_ne in H. simpl in H.
      destruct (get_active db new_id) eqn:Ea; [|discriminate].
      apply get_active_get in Ea. congruence. }
    assert (Hkids : children (update_tag (id row0)
                      (set_path (Some (expected_path db1 row0))) db1) row0 = []).
    { unfold children. change (id row0) with new_id. rewrite Hupd. rewrite filter_app.
      simpl. rewrite Hself, app_nil_r. apply filter_none. intros x Hx.
      unfold option_string_eqb. destruct (parent_id x) as [q|] eqn:Eq; [|reflexivity].
      apply String.eqb_neq. intros ->.
      destruct (Hrefs x new_id Hx Eq) as [E|E]; congruence. }
    destruct fuel as [|fuel]; [discriminate Hres|].
    rewrite (update_path_childless fuel db1 row0 Hkids) in Hres.
    assert (Hdb : update_tag (id row0) (set_path (Some (expected_path db1 row0))) db1
                  = mkDB (tags db ++ [set_path (Some (expected_path db1 row0)) row0])
                         (entry_tags db)).
    { change (id row0) with new_id.
      transitivity (mkDB (tags (update_tag new_id (set_path (Some (expected_path db1 row0))) db1))
                         (entry_tags db)); [reflexivity|now rewrite Hupd]. }
    rewrite Hdb in Hres. injection Hres as <- <- <-.
    repeat split; auto.
    unfold refresh. change (id row0) with new_id. rewrite get_insert, Hnew. simpl.
    now rewrite String.eqb_refl. }
  destruct (truthy_value parent_id0) as [pid|] eqn:Ep.
  - apply truthy_value_Some in Ep. destruct Ep as [Ep Hpid].
    destruct (get_active db pid) as [parent_tag|] eqn:Epar; [|discriminate].
    destruct (get db new_id) eqn:Eg; [discriminate|]. flush_passed H.
    destruct (Hmain (level parent_tag + 1) eq_refl) as (lv0 & X); [|exact H|].
    + unfold expected_level, parent. simpl. rewrite Ep. rewrite get_insert.
      destruct (get_active_In _ _ _ Epar) as (Hin & Hid & _).
      rewrite <- Hid. now rewrite (pk_unique_get _ _ Hpk Hin).
    + exists lv0. cbv zeta in *. intuition.
  - destruct (get db new_id) eqn:Eg; [discriminate|]. flush_passed H.
    destruct (Hmain 0 eq_refl) as (lv0 & X); [|exact H|].
    + unfold expected_level, parent. simpl.
      destruct (truthy_value_None _ Ep) as [-> | ->]; [reflexivity|].
      rewrite get_insert, (get_empty_id db Hids). simpl.
      apply String.eqb_neq in Hnew_ne. now rewrite Hnew_ne.
    + exists lv0. cbv zeta in *. intuition.
Qed.

Lemma parent_insert db r x :
  option_string_eqb (parent_id x) (id r) = false ->
  parent (mkDB (tags db ++ [r]) (entry_tags db)) x = parent db x.
Proof.
  unfold parent, option_string_eqb. destruct (parent_id x) as [p|]; [|reflexivity].
  intro E. rewrite get_insert. destruct (get db p); [reflexivity|].
  now rewrite String.eqb_sym, E.
Qed.

Lemma create_tag_new_row fuel db new_id name0 uid parent_id0 description0 name_en0
    category0 domain0 is_abstract0 aliases0 properties0 msg tag db' :
  keys_ok db -> is_uuid new_id ->
  create_tag fuel db new_id name0 uid parent_id0 description0 name_en0
             category0 domain0 is_abstract0 aliases0 properties0
  = Some (true, msg, tag, db') ->
  exists row,
    tag = Some row /\ db' = mkDB (tags db ++ [row]) (entry_tags db) /\
    id row = new_id /\ name row = strip name0 /\ parent_id row = parent_id0 /\
    status row = active /\ usage_count row = 0 /\ quality_score row = 500 /\
    level_path_consistent db' row /\
    get db new_id = None /\ get_active_by_name db (strip name0) = None /\
    strip name0 <> "" /\ option_string_eqb parent_id0 new_id = false.
Proof.
  intros Hk Hu H.
  destruct (create_tag_shape _ _ _ _ _ _ _ _ _ _ _ _ _ _ _ _ Hk Hu H)
    as (lv & Htag & Hdb & Hlv & Hnew & Hfree & Hname & Hself).
  cbv zeta in *. eexists. split; [exact Htag|]. split; [exact Hdb|].
  repeat split; auto; rewrite Hdb.
  - simpl. unfold expected_level in *. rewrite parent_insert by exact Hself.
    rewrite parent_insert in Hlv by exact Hself. exact Hlv.
  - simpl. unfold expected_path. rewrite !parent_insert by exact Hself. reflexivity.
Qed.

(** X5. [create_tag] refuses, in this order, a blank name, a name that is
    (once stripped) the name of an active tag, a parent that is not an active
    tag, and a key that is already stored; every refusal returns no tag and
    leaves the table as it was. *)
Theorem create_tag_refusals fuel db new_id name0 uid parent_id0 description0 name_en0
    category0 domain0 is_abstract0 aliases0 properties0 :
  let result := create_tag fuel db new_id name0 uid parent_id0 description0 name_en0
                           category0 domain0 is_abstract0 aliases0 properties0 in
  (strip name0 = "" -> result = Some (false, CreateNameEmpty, None, db)) /\
  (strip name0 <> "" -> get_active_by_name db (strip name0) <> None ->
   result = Some (false, CreateNameExists (strip name0), None, db)) /\
  (strip name0 <> "" -> get_active_by_name db (strip name0) = None ->
   forall pid, truthy_value parent_id0 = Some pid -> get_active db pid = None ->
   result = Some (false, CreateParentMissing, None, db)) /\
  (strip name0 <> "" -> get_active_by_name db (strip name0) = None ->
   (forall pid, truthy_value parent_id0 = Some pid -> get_active db pid <> None) ->
   get db new_id <> None ->
   result = Some (false, CreateIntegrityError, None, db)) /\
  (forall msg tag db', result = Some (false, msg, tag, db') -> tag = None /\ db' = db).
Proof.
  cbv zeta. unfold create_tag.
  assert (Hblank : strip name0 = "" ->
            (name0 =? "") || (String.length (strip name0) =? 0)%nat = true).
  { intros ->. apply orb_true_r. }
  assert (Hok : strip name0 <> "" ->
            (name0 =? "") || (String.length (strip name0) =? 0)%nat = false).
  { intro Hs. apply orb_false_iff. split.
    - apply String.eqb_neq. intros ->. now apply Hs.
    - apply Nat.eqb_neq. destruct (strip name0); [now destruct Hs|discriminate]. }
  split; [|split; [|split; [|split]]].
  - intro Hs. now rewrite (Hblank Hs).
  - intros Hs Hc. rewrite (Hok Hs).
    destruct (get_active_by_name db (strip name0)); [reflexivity|congruence].
  - intros Hs Hc pid Hp Hg. now rewrite (Hok Hs), Hc, Hp, Hg.
  - intros Hs Hc Hp Hg. rewrite (Hok Hs), Hc.
    destruct (truthy_value parent_id0) as [pid|].
    + specialize (Hp pid eq_refl). destruct (get_active db pid); [|congruence].
      destruct (get db new_id); [reflexivity|congruence].
    + destruct (get db new_id); [reflexivity|congruence].
  - intros msg tag db'.
    destruct ((name0 =? "") || (String.length (strip name0) =? 0)%nat).
    { intro H. injection H as _ <- <-. auto. }
    destruct (get_active_by_name db (strip name0)).
    { intro H. injection H as _ <- <-. auto. }
    destruct (truthy_value parent_id0) as [pid|].
    + destruct (get_active db pid).
      2:{ intro H. injection H as _ <- <-. auto. }
      destruct (get db new_id).
      { intro H. injection H as _ <- <-. auto. }
      destruct (100 <? _)%nat; [intro H; injection H as _ <- <-; auto|].
      destruct (references_ok _ _); [|intro H; injection H as _ <- <-; auto].
      destruct (update_path _ _ _); discriminate.
    + destruct (get db new_id).
      { intro H. injection H as _ <- <-. auto. }
      destruct (100 <? _)%nat; [intro H; injection H as _ <- <-; auto|].
      destruct (references_ok _ _); [|intro H; injection H as _ <- <-; auto].
      destruct (update_path _ _ _); discriminate.
Qed.

Lemma create_tag_refusals_witness :
  create_tag 1 scenario_db kitten_id "   " "u1" None "" "" "g" "g" false [] []
    = Some (false, CreateNameEmpty, None, scenario_db) /\
  create_tag 1 scenario_db kitten_id " Cat " "u1" None "" "" "g" "g" false [] []
    = Some (false, CreateNameExists "Cat", None, scenario_db) /\
  create_tag 1 scenario_db kitten_id "Kitten" "u1" (Some "nobody") "" "" "g" "g" false [] []
    = Some (false, CreateParentMissing, None, scenario_db) /\
  create_tag 1 scenario_db cat_id "Kitten" "u1" (Some cat_id) "" "" "g" "g" false [] []
    = Some (false, CreateIntegrityError, None, scenario_db).
Proof.
  split; [|split; [|split]].
  - apply (create_tag_refusals 1 scenario_db kitten_id "   " "u1" None "" "" "g" "g"
             false [] []). reflexivity.
  - apply (create_tag_refusals 1 scenario_db kitten_id " Cat " "u1" None "" "" "g" "g"
             false [] []); discriminate.
  - apply (create_tag_refusals 1 scenario_db kitten_id "Kitten" "u1" (Some "nobody")
             "" "" "g" "g" false [] []) with (pid := "nobody");
      try reflexivity; discriminate.
  - apply (create_tag_refusals 1 scenario_db cat_id "Kitten" "u1" (Some cat_id)
             "" "" "g" "g" false [] []); try reflexivity; try discriminate.
    intros pid H. injection H as <-. discriminate.
Defined.

(** X6. On a table with sound keys a successful [create_tag] appends exactly
    one row and touches nothing else: the new row has the drawn key, the
    stripped name, the given parent, status active, usage 0 and quality 5.00,
    and its level and path are those its parent gives it. *)
Theorem create_tag_appends_consistent_row fuel db new_id name0 uid parent_id0
    description0 name_en0 category0 domain0 is_abstract0 aliases0 properties0 msg tag db' :
  keys_ok db -> is_uuid new_id ->
  create_tag fuel db new_id name0 uid parent_id0 description0 name_en0
             category0 domain0 is_abstract0 aliases0 properties0
  = Some (true, msg, tag, db') ->
  exists row,
    tag = Some row /\
    tags db' = tags db ++ [row] /\ entry_tags db' = entry_tags db /\
    id row = new_id /\ name row = strip name0 /\ parent_id row = parent_id0 /\
    status row = active /\ usage_count row = 0 /\ quality_score row = 500 /\
    level_path_consistent db' row.
Proof.
  intros Hk Hu H.
  destruct (create_tag_new_row _ _ _ _ _ _ _ _ _ _ _ _ _ _ _ _ Hk Hu H)
    as (row & Htag & Hdb & H1 & H2 & H3 & H4 & H5 & H6 & H7 & _).
  exists row. rewrite Hdb at 1 2. simpl. repeat split; auto; apply H7.
Qed.

Lemma scenario_keys_ok : keys_ok scenario_db.
Proof. apply well_formed_keys_ok, reachable_well_formed, scenario_db_reachable. Qed.

Lemma create_tag_appends_consistent_row_witness :
  keys_ok scenario_db /\ is_uuid kitten_id /\
  create_tag 1 scenario_db kitten_id "Kitten" "u1" (Some cat_id) "" "" "biological"
             "general" false [] []
  = Some (true, Created, Some kitten_row, family_db) /\
  exists row,
    Some kitten_row = Some row /\
    tags family_db = tags scenario_db ++ [row] /\
    entry_tags family_db = entry_tags scenario_db /\
    id row = kitten_id /\ name row = strip "Kitten" /\ parent_id row = Some cat_id /\
    status row = active /\ usage_count row = 0 /\ quality_score row = 500 /\
    level_path_consistent family_db row.
Proof.
  split; [exact scenario_keys_ok|]. split; [reflexivity|]. split; [reflexivity|].
  apply (create_tag_appends_consistent_row 1 scenario_db kitten_id "Kitten" "u1"
           (Some cat_id) "" "" "biological" "general" false [] [] Created).
  - exact scenario_keys_ok.
  - reflexivity.
  - reflexivity.
Defined.

(** ** Invariants of the tables the service builds *)

Lemma same_skeleton_names d d' : same_skeleton d d' -> map name (tags d') = map name (tags d).
Proof.
  unfold same_skeleton. induction 1 as [|a b l l' Hab _ IH]; simpl; [reflexivity|].
  destruct Hab as (_ & -> & _). now rewrite IH.
Qed.

Lemma update_tag_names i f db :
  (forall t, name (f t) = name t) -> map name (tags (update_tag i f db)) = map name (tags db).
Proof.
  intro Hf. unfold update_tag. simpl. rewrite map_map. apply map_ext.
  intro a. destruct (id a =? i); [apply Hf|reflexivity].
Qed.

Lemma name_free db n :
  (forall t, In t (tags db) -> status t = active) ->
  get_active_by_name db n = None -> ~ In n (map name (tags db)).
Proof.
  intros Hact H Hin. apply in_map_iff in Hin. destruct Hin as (t & Hn & Ht).
  unfold get_active_by_name in H. pose proof (find_none _ _ H _ Ht) as Hf. simpl in Hf.
  unfold is_active in Hf. rewrite (Hact t Ht), Hn, String.eqb_refl in Hf. discriminate.
Qed.

Lemma NoDup_snoc {A} (l : list A) x : NoDup l -> ~ In x l -> NoDup (l ++ [x]).
Proof.
  intros Hnd Hx. apply NoDup_rev in Hnd. rewrite <- (rev_involutive (l ++ [x])).
  apply NoDup_rev. rewrite rev_app_distr. simpl. constructor; [|exact Hnd].
  now rewrite <- in_rev.
Qed.

(** X7. Names stay unique: in every table reached from the empty one by calls
    of [create_tag] and [move_tag], no two tags have the same name. *)
Theorem reachable_names_unique db : reachable db -> NoDup (map name (tags db)).
Proof.
  induction 1 as [es
                 |db fuel new_id name0 uid parent_id0 description0 name_en0 category0
                     domain0 is_abstract0 aliases0 properties0 ok msg tag db' Hr IH Hu Hc
                 |db fuel tag_id0 npid uid ok msg db' Hr IH Hm].
  - constructor.
  - pose proof (reachable_well_formed _ Hr) as Hwf. destruct ok.
    + destruct (create_tag_new_row _ _ _ _ _ _ _ _ _ _ _ _ _ _ _ _
                  (well_formed_keys_ok _ Hwf) Hu Hc)
        as (row & _ & -> & _ & Hn & _ & _ & _ & _ & _ & _ & Hfree & _).
      simpl. rewrite map_app. simpl. apply NoDup_snoc; [exact IH|].
      rewrite Hn. apply name_free; [apply (wf_active _ Hwf)|exact Hfree].
    + apply create_tag_cases in Hc. destruct Hc as [[_ ->]|(? & E & _)];
        [exact IH|discriminate].
  - apply move_tag_cases in Hm.
    destruct Hm as [[_ ->]|(tag & lv & _ & _ & _ & Hup)]; [exact IH|].
    apply update_path_skeleton in Hup. rewrite (same_skeleton_names _ _ Hup).
    now rewrite update_tag_names.
Qed.

Lemma reachable_names_unique_witness : NoDup (map name (tags family_db)).
Proof. exact (reachable_names_unique family_db family_db_reachable). Defined.

Lemma created_reachable db : created db -> reachable db.
Proof.
  induction 1; [apply reach_empty|eapply reach_create; eauto].
Qed.

(** X8. As long as tags are only created, levels and paths are right: in every
    table built from the empty one by calls of [create_tag] alone, each tag has
    the level of its parent plus one (0 for a root) and the path of its parent
    followed by "/" and its own name (its own name for a root). *)
Theorem created_levels_and_paths_consistent db :
  created db -> forall t, In t (tags db) -> level_path_consistent db t.
Proof.
  induction 1 as [es
                 |db fuel new_id name0 uid parent_id0 description0 name_en0 category0
                     domain0 is_abstract0 aliases0 properties0 ok msg tag db' Hr IH Hu Hc].
  - intros t [].
  - pose proof (reachable_well_formed _ (created_reachable _ Hr)) as Hwf. destruct ok.
    + destruct (create_tag_new_row _ _ _ _ _ _ _ _ _ _ _ _ _ _ _ _
                  (well_formed_keys_ok _ Hwf) Hu Hc)
        as (row & _ & Hdb & Hid & _ & _ & _ & _ & _ & Hrow & Hnew & _).
      intros t Ht. rewrite Hdb in Ht. simpl in Ht. apply in_app_or in Ht.
      destruct Ht as [Ht|[<-|[]]]; [|exact Hrow].
      assert (Hp : option_string_eqb (parent_id t) (id row) = false).
      { unfold option_string_eqb. destruct (parent_id t) as [p|] eqn:Ep; [|reflexivity].
        apply String.eqb_neq. intro E. rewrite Hid in E. subst p.
        destruct (wf_refs _ Hwf t new_id Ht Ep) as [E|E]; [|congruence].
        now apply (is_uuid_nonempty new_id). }
      destruct (IH t Ht) as [Hl Hpath]. rewrite Hdb.
      unfold level_path_consistent, expected_level, expected_path in *.
      rewrite parent_insert by exact Hp. auto.
    + apply create_tag_cases in Hc. destruct Hc as [[_ ->]|(? & E & _)];
        [exact IH|discriminate].
Qed.

Lemma family_db_created : created family_db.
Proof.
  eapply (created_step scenario_db 1 kitten_id "Kitten" "u1" (Some cat_id)
            "" "" "biological" "general" false [] []); [|reflexivity|reflexivity].
  eapply (created_step (mkDB [animal_row] []) 1 cat_id "Cat" "u1" (Some animal_id)
            "" "" "biological" "general" false [] []); [|reflexivity|reflexivity].
  eapply (created_step (mkDB [] []) 1 animal_id "Animal" "u1" None
            "" "" "biological" "general" false [] []); [|reflexivity|reflexivity].
  apply created_empty.
Qed.

Lemma created_levels_and_paths_consistent_witness :
  level_path_consistent family_db kitten_row.
Proof.
  apply (created_levels_and_paths_consistent family_db family_db_created).
  simpl. tauto.
Defined.

(** ** Moving: refusals, and the walk over the ancestors *)

(** X9. [move_tag] answers "tag does not exist" when the tag is not an active
    tag and "new parent does not exist" when the new parent is given but is
    not an active tag; a move that is refused, for whatever reason, leaves the
    table as it was, and a move that is not refused reports success. *)
Theorem move_tag_refusals fuel db tag_id0 npid uid :
  (get_active db tag_id0 = None ->
   move_tag fuel db tag_id0 npid uid = Some (false, MoveTagMissing, db)) /\
  (forall pid, get_active db tag_id0 <> None -> truthy_value npid = Some pid ->
               get_active db pid = None ->
               move_tag fuel db tag_id0 npid uid = Some (false, MoveParentMissing, db)) /\
  (forall ok msg db', move_tag fuel db tag_id0 npid uid = Some (ok, msg, db') ->
                      (ok = false /\ db' = db /\ msg <> Moved) \/ (ok = true /\ msg = Moved)).
Proof.
  unfold move_tag. split; [|split].
  - now intros ->.
  - intros pid Ht Hp Hg. destruct (get_active db tag_id0); [|congruence].
    now rewrite Hp, Hg.
  - intros ok msg db'. destruct (get_active db tag_id0) as [tag|].
    2:{ intro H. injection H as <- <- <-. left. repeat split. discriminate. }
    destruct (truthy_value npid) as [pid|].
    + destruct (get_active db pid) as [np|].
      2:{ intro H. injection H as <- <- <-. left. repeat split. discriminate. }
      destruct (can_be_parent_of fuel db np tag) as [[|]|]; [| |discriminate].
      * destruct (references_ok _ _).
        2:{ intro H. injection H as <- <- <-. left. repeat split. discriminate. }
        destruct (update_path _ _ _); [|discriminate].
        intro H. injection H as <- <- _. now right.
      * intro H. injection H as <- <- <-. left. repeat split. discriminate.
    + destruct (references_ok _ _).
      2:{ intro H. injection H as <- <- <-. left. repeat split. discriminate. }
      destruct (update_path _ _ _); [|discriminate].
      intro H. injection H as <- <- _. now right.
Qed.

Lemma move_tag_refusals_witness :
  move_tag 2 scenario_db "nobody" (Some cat_id) "u1"
    = Some (false, MoveTagMissing, scenario_db) /\
  move_tag 2 scenario_db cat_id (Some "nobody") "u1"
    = Some (false, MoveParentMissing, scenario_db).
Proof.
  split.
  - apply (move_tag_refusals 2 scenario_db "nobody" (Some cat_id) "u1"). reflexivity.
  - apply (move_tag_refusals 2 scenario_db cat_id (Some "nobody") "u1") with (pid := "nobody");
      [discriminate|reflexivity|reflexivity].
Defined.

Lemma parent_In db c pr : parent db c = Some pr -> In pr (tags db).
Proof.
  unfold parent. destruct (parent_id c); [|discriminate]. intro H.
  now destruct (get_In _ _ _ H).
Qed.

Lemma parent_ref_of_parent db c pr :
  pk_unique db -> In c (tags db) -> parent db c = Some pr ->
  parent_ref db (id c) = Some (id pr).
Proof.
  intros Hpk Hc Hp. unfold parent_ref. now rewrite (pk_unique_get _ _ Hpk Hc), Hp.
Qed.

Lemma ancestors_from_sound db :
  pk_unique db ->
  forall fuel c l,
    In c (tags db) ->
    ancestors_from fuel db (Some c) = Some l ->
    forall x, In x l -> In x (tags db) /\ (id x = id c \/ is_ancestor db (id x) (id c)).
Proof.
  intro Hpk. induction fuel as [|fuel IH]; intros c l Hc H x Hx; simpl in H; [discriminate|].
  destruct (ancestors_from fuel db (parent db c)) as [l'|] eqn:E; [|discriminate].
  injection H as <-. destruct Hx as [<-|Hx]; [auto|].
  destruct (parent db c) as [pr|] eqn:Epr.
  - pose proof (parent_In _ _ _ Epr) as Hpr.
    pose proof (parent_ref_of_parent _ _ _ Hpk Hc Epr) as Href.
    destruct (IH pr l' Hpr E x Hx) as [Hin [Hid|Ha]]; split; auto; right.
    + rewrite Hid. now apply ancestor_parent.
    + eapply ancestor_step; eauto.
  - destruct fuel; simpl in E; injection E as <-; contradiction.
Qed.

Lemma ancestors_from_NoDup db :
  pk_unique db -> (forall i, ~ is_ancestor db i i) ->
  forall fuel c l,
    In c (tags db) -> ancestors_from fuel db (Some c) = Some l -> NoDup (map id l).
Proof.
  intros Hpk Hacy. induction fuel as [|fuel IH]; intros c l Hc H; simpl in H; [discriminate|].
  destruct (ancestors_from fuel db (parent db c)) as [l'|] eqn:E; [|discriminate].
  injection H as <-. simpl. destruct (parent db c) as [pr|] eqn:Epr.
  - pose proof (parent_In _ _ _ Epr) as Hpr.
    pose proof (parent_ref_of_parent _ _ _ Hpk Hc Epr) as Href.
    constructor; [|eapply IH; eauto].
    intro Hin. apply in_map_iff in Hin. destruct Hin as (x & Hid & Hx).
    destruct (ancestors_from_sound db Hpk fuel pr l' Hpr E x Hx) as [_ [Hx'|Hx']].
    + apply (Hacy (id c)). rewrite <- Hid at 1. rewrite Hx'. now apply ancestor_parent.
    + apply (Hacy (id c)). rewrite <- Hid at 1. eapply ancestor_step; eauto.
  - assert (l' = []) by (destruct fuel; simpl in E; now injection E as <-).
    subst. simpl. constructor; [intros []|constructor].
Qed.

(** X10. In a table with unique keys and no cycle, [get_ancestors] returns
    (as soon as the fuel covers the number of tags) the stored ancestors of
    the tag and nothing else, each once, the parent first. *)
Theorem get_ancestors_exact db fuel self :
  pk_unique db -> (forall i, ~ is_ancestor db i i) ->
  In self (tags db) -> (List.length (tags db) <= fuel)%nat ->
  exists l,
    get_ancestors fuel db self = Some l /\
    (forall a, In a (map id l) <-> is_ancestor db a (id self)) /\
    NoDup (map id l) /\
    Forall (fun x => In x (tags db)) l /\
    hd_error l = parent db self.
Proof.
  intros Hpk Hacy Hin Hlen.
  pose proof (get_ancestors_terminates db fuel self Hpk Hacy Hin Hlen) as Ht.
  unfold get_ancestors in *. destruct (parent db self) as [pr|] eqn:Epr.
  - destruct (ancestors_from fuel db (Some pr)) as [l|] eqn:E; [|congruence].
    pose proof (parent_In _ _ _ Epr) as Hpr.
    pose proof (parent_ref_of_parent _ _ _ Hpk Hin Epr) as Href.
    exists l. split; [reflexivity|]. split; [|split; [|split]].
    + intro a. split.
      * intro Ha. apply in_map_iff in Ha. destruct Ha as (x & <- & Hx).
        destruct (ancestors_from_sound db Hpk fuel pr l Hpr E x Hx) as [_ [Hx'|Hx']].
        -- rewrite Hx'. now apply ancestor_parent.
        -- eapply ancestor_step; eauto.
      * intro Ha.
        assert (Hor : a = id pr \/ is_ancestor db a (id pr)).
        { unfold is_ancestor in Ha. inversion Ha as [i p Hp|i p a' Hp Ha']; subst;
            rewrite Href in Hp; injection Hp as <-; auto. }
        pose proof (ancestors_from_complete db Hpk fuel pr l Hpr E a Hor) as Hex.
        apply existsb_exists in Hex. destruct Hex as (x & Hx & Hid).
        apply String.eqb_eq in Hid. apply in_map_iff. eauto.
    + eapply ancestors_from_NoDup; eauto.
    + rewrite Forall_forall. intros x Hx.
      now destruct (ancestors_from_sound db Hpk fuel pr l Hpr E x Hx).
    + destruct fuel; simpl in E; [discriminate|].
      destruct (ancestors_from fuel db (parent db pr)); [|discriminate].
      now injection E as <-.
  - exists []. split; [destruct fuel; reflexivity|]. split; [|split; [|split]].
    + intro a. split; [intros []|]. intro Ha. exfalso.
      unfold is_ancestor in Ha. inversion Ha as [i p Hp|i p a' Hp Ha']; subst;
        unfold parent_ref in Hp; rewrite (pk_unique_get _ _ Hpk Hin), Epr in Hp;
        discriminate.
    + constructor.
    + constructor.
    + reflexivity.
Qed.

Lemma family_db_well_formed : well_formed family_db.
Proof. exact (reachable_well_formed _ family_db_reachable). Qed.

Lemma get_ancestors_exact_witness :
  exists l,
    get_ancestors 3 family_db kitten_row = Some l /\
    (forall a, In a (map id l) <-> is_ancestor family_db a (id kitten_row)) /\
    NoDup (map id l) /\
    Forall (fun x => In x (tags family_db)) l /\
    hd_error l = parent family_db kitten_row.
Proof.
  apply (get_ancestors_exact family_db 3 kitten_row).
  - exact (wf_pk _ family_db_well_formed).
  - exact (wf_acyclic _ family_db_well_formed).
  - simpl. tauto.
  - simpl. lia.
Defined.

(** X11. In a table with unique keys and no cycle, [can_be_parent_of] answers
    (as soon as the fuel covers the number of tags), and it answers [True]
    exactly when the candidate parent is neither the tag itself nor one of
    its descendants. *)
Theorem can_be_parent_of_exact db fuel np tag :
  pk_unique db -> (forall i, ~ is_ancestor db i i) ->
  In np (tags db) -> (List.length (tags db) <= fuel)%nat ->
  exists b,
    can_be_parent_of fuel db np tag = Some b /\
    (b = true <-> id np <> id tag /\ ~ is_ancestor db (id tag) (id np)).
Proof.
  intros Hpk Hacy Hin Hlen.
  pose proof (can_be_parent_of_returns db fuel np tag Hpk Hacy Hin Hlen) as Hr.
  destruct (can_be_parent_of fuel db np tag) as [b|] eqn:E; [|congruence].
  exists b. split; [reflexivity|]. split.
  - intros ->. eapply can_be_parent_of_true; eauto.
  - intros [Hne Hna]. destruct b; [reflexivity|exfalso].
    unfold can_be_parent_of in E. apply String.eqb_neq in Hne. rewrite Hne in E.
    destruct (get_ancestors fuel db np) as [l|] eqn:El; [|discriminate].
    injection E as E. apply negb_false_iff in E. unfold tag_in in E.
    apply existsb_exists in E. destruct E as (x & Hx & Hid). apply String.eqb_eq in Hid.
    unfold get_ancestors in El. destruct (parent db np) as [pr|] eqn:Epr.
    + pose proof (parent_In _ _ _ Epr) as Hpr.
      pose proof (parent_ref_of_parent _ _ _ Hpk Hin Epr) as Href.
      apply Hna. rewrite <- Hid.
      destruct (ancestors_from_sound db Hpk fuel pr l Hpr El x Hx) as [_ [Hx'|Hx']].
      * rewrite Hx'. now apply ancestor_parent.
      * eapply ancestor_step; eauto.
    + destruct fuel; simpl in El; injection El as <-; contradiction.
Qed.

Lemma can_be_parent_of_exact_witness :
  exists b,
    can_be_parent_of 3 family_db kitten_row animal_row = Some b /\
    (b = true <-> id kitten_row <> id animal_row /\
                  ~ is_ancestor family_db (id animal_row) (id kitten_row)).
Proof.
  apply (can_be_parent_of_exact family_db 3 kitten_row animal_row).
  - exact (wf_pk _ family_db_well_formed).
  - exact (wf_acyclic _ family_db_well_formed).
  - simpl. tauto.
  - simpl. lia.
Defined.

(** ** The cascade of [update_path] *)

Lemma is_ancestor_skeleton d d' a i :
  same_skeleton d d' -> is_ancestor d' a i -> is_ancestor d a i.
Proof.
  intros H Ha. unfold is_ancestor in *. eapply ancestor_ext; [|exact Ha].
  intro j. now apply parent_ref_skeleton.
Qed.

Lemma in_subtree_skeleton d d' r x :
  same_skeleton d d' -> in_subtree d' r x -> in_subtree d r x.
Proof. intros H [E|Ha]; [now left|right; eapply is_ancestor_skeleton; eauto]. Qed.

Lemma in_subtree_child d r c x :
  parent_ref d c = Some r -> in_subtree d c x -> in_subtree d r x.
Proof.
  intros Hp [->|Ha]; right.
  - now apply ancestor_parent.
  - eapply ancestor_trans; [apply ancestor_parent; exact Hp|exact Ha].
Qed.

(** The first step down from an ancestor. *)
Lemma ancestor_first_child par r x :
  ancestor par r x -> exists c, par c = Some r /\ (x = c \/ ancestor par c x).
Proof.
  induction 1 as [i p Hp|i p a Hp H IH].
  - exists i. auto.
  - destruct IH as (c & Hc & [->|Hx]); exists c; split; auto; right.
    + now apply ancestor_parent.
    + eapply ancestor_step; eauto.
Qed.

Lemma children_In d self c :
  In c (children d self) -> In c (tags d) /\ parent_id c = Some (id self).
Proof.
  unfold children. intro H. apply filter_In in H. destruct H as [Hin Hb].
  split; [exact Hin|]. unfold option_string_eqb in Hb.
  destruct (parent_id c); [|discriminate]. apply String.eqb_eq in Hb. now subst.
Qed.

Lemma child_parent_ref d self c :
  pk_unique d -> get d (id self) <> None -> In c (children d self) ->
  parent_ref d (id c) = Some (id self).
Proof.
  intros Hpk Hs Hc. apply children_In in Hc. destruct Hc as [Hin Hp].
  rewrite parent_ref_unfold, (pk_unique_get _ _ Hpk Hin), Hp, get_exists_id.
  destruct (get d (id self)); [reflexivity|congruence].
Qed.

Lemma for_each_prefix_inv {A S} (body : S -> A -> option S) (I : list A -> S -> Prop) :
  forall xs pre s s',
    I pre s ->
    (forall pre' x s0 s1, In x xs -> I pre' s0 -> body s0 x = Some s1 -> I (pre' ++ [x]) s1) ->
    for_each body xs s = Some s' -> I (pre ++ xs) s'.
Proof.
  induction xs as [|x xs IH]; simpl; intros pre s s' Hs Hstep H.
  - injection H as <-. now rewrite app_nil_r.
  - destruct (body s x) as [s1|] eqn:E; [|discriminate].
    replace (pre ++ x :: xs) with ((pre ++ [x]) ++ xs) by (rewrite <- app_assoc; reflexivity).
    apply (IH (pre ++ [x]) s1 s'); eauto.
Qed.

(** The rows [update_path] rewrites lie in the subtree of the tag it is called
    on: every other row is left as it is. *)
Lemma update_path_frame fuel :
  forall d self d',
    pk_unique d -> get d (id self) <> None ->
    update_path fuel d self = Some d' ->
    Forall2 (fun t t' => id t' = id t /\ (t' = t \/ in_subtree d (id self) (id t)))
            (tags d) (tags d').
Proof.
  induction fuel as [|fuel IH]; intros d self d' Hpk Hself H; simpl in H; [discriminate|].
  match type of H with for_each _ (children ?d1 _) _ = _ => set (db1 := d1) in * end.
  assert (Hsk1 : same_skeleton d db1)
    by (apply update_tag_skeleton; intro t; repeat split).
  assert (Hpk1 : pk_unique db1) by (eapply same_skeleton_pk; eauto).
  assert (Hself1 : get db1 (id self) <> None).
  { intro E. pose proof (same_skeleton_get_exists _ _ (id self) Hsk1) as X.
    rewrite E in X. destruct (get d (id self)); [discriminate X|congruence]. }
  assert (H1 : Forall2 (fun t t' => id t' = id t /\ (t' = t \/ in_subtree d (id self) (id t)))
                       (tags d) (tags db1)).
  { unfold db1, update_tag. simpl. induction (tags d) as [|a l IHl]; simpl; constructor; auto.
    destruct (id a =? id self) eqn:E.
    - apply String.eqb_eq in E. split; [reflexivity|]. right. now left.
    - split; [reflexivity|now left]. }
  apply (for_each_inv _ (fun dk => same_skeleton d dk /\
            Forall2 (fun t t' => id t' = id t /\ (t' = t \/ in_subtree d (id self) (id t)))
                    (tags d) (tags dk))) in H; [apply H|split; assumption|].
  intros x dk dk' Hx [Hsk HF] Hb.
  assert (Hpkk : pk_unique dk) by (eapply same_skeleton_pk; eauto).
  assert (Hchild : parent_ref d (id x) = Some (id self)).
  { rewrite <- (parent_ref_skeleton _ _ (id x) Hsk1). now apply child_parent_ref. }
  assert (Hxk : get dk (id x) <> None).
  { apply children_In in Hx. destruct Hx as [Hin _].
    pose proof (pk_unique_get _ _ Hpk1 Hin) as Hg.
    destruct (same_skeleton_get _ _ _ _ (same_skeleton_trans _ _ _
                (same_skeleton_sym _ _ Hsk1) Hsk) Hg) as (x' & -> & _). discriminate. }
  pose proof (IH dk x dk' Hpkk Hxk Hb) as HF'.
  split; [eapply same_skeleton_trans; [exact Hsk|eapply update_path_skeleton; eauto]|].
  clear - HF HF' Hsk Hchild.
  revert HF'. generalize (tags dk'). induction HF as [|a b l l' Hab HF IHF];
    intros l3 HF'; inversion HF' as [|b' c l2 l3' Hbc HF'']; subst; constructor.
  - destruct Hab as [Hid Hab]. destruct Hbc as [Hid' Hbc]. split; [congruence|].
    destruct Hab as [->|Hab]; [|now right].
    destruct Hbc as [->|Hbc]; [now left|right].
    eapply in_subtree_child; [exact Hchild|]. eapply in_subtree_skeleton; eauto.
  - apply IHF. exact HF''.
Qed.

Lemma Forall2_In_r {A B} (R : A -> B -> Prop) l l' b :
  Forall2 R l l' -> In b l' -> exists a, In a l /\ R a b.
Proof.
  induction 1 as [|x y l l' Hxy _ IH]; simpl; [contradiction|].
  intros [<-|Hin]; [eauto|]. destruct (IH Hin) as (a & Ha & Hr). eauto.
Qed.

Lemma frame_get d d' r p :
  Forall2 (fun t t' => id t' = id t /\ (t' = t \/ in_subtree d r (id t))) (tags d) (tags d') ->
  match get d p with
  | Some t => exists t', get d' p = Some t' /\ (t' = t \/ in_subtree d r p)
  | None => get d' p = None
  end.
Proof.
  unfold get. induction 1 as [|a b l l' (Hid & Hab) _ IH]; simpl; [reflexivity|].
  rewrite Hid. destruct (id a =? p) eqn:E; [|exact IH].
  apply String.eqb_eq in E. exists b. split; [reflexivity|].
  destruct Hab as [->|Hab]; [now left|right; now rewrite <- E].
Qed.

Lemma parent_ref_child_row d c r :
  parent_ref d c = Some r -> exists rc, get d c = Some rc /\ parent_id rc = Some r.
Proof.
  rewrite parent_ref_unfold. destruct (get d c) as [rc|]; [|discriminate].
  destruct (parent_id rc) as [q|] eqn:Eq; [|discriminate].
  rewrite get_exists_id. destruct (get d q); [|discriminate].
  intro H. injection H as ->. exists rc. split; [reflexivity|exact Eq].
Qed.

Lemma row_parent_ref d t q :
  pk_unique d -> In t (tags d) -> parent_id t = Some q -> get d q <> None ->
  parent_ref d (id t) = Some q.
Proof.
  intros Hpk Hin Hp Hq. rewrite parent_ref_unfold, (pk_unique_get _ _ Hpk Hin), Hp.
  rewrite get_exists_id. destruct (get d q); [reflexivity|congruence].
Qed.

Lemma in_subtree_down d r q x :
  in_subtree d r q -> parent_ref d x = Some q -> in_subtree d r x.
Proof.
  intros [->|Ha] Hp; right.
  - now apply ancestor_parent.
  - eapply ancestor_step; eauto.
Qed.

(** A row that [update_path] left alone keeps a right path, unless its parent
    was rewritten, and then the row lies in the rewritten subtree itself. *)
Lemma frame_keeps_consistent d d' r t :
  pk_unique d ->
  Forall2 (fun t t' => id t' = id t /\ (t' = t \/ in_subtree d r (id t))) (tags d) (tags d') ->
  In t (tags d) -> path t = Some (expected_path d t) ->
  path t = Some (expected_path d' t) \/ in_subtree d r (id t).
Proof.
  intros Hpk HF Hin Hc. unfold expected_path, parent in *.
  destruct (parent_id t) as [q|] eqn:Eq; [|now left].
  pose proof (frame_get d d' r q HF) as Hg.
  destruct (get d q) as [pr|] eqn:Epr.
  - destruct Hg as (pr' & -> & [->|Hsub]); [now left|right].
    eapply in_subtree_down; [exact Hsub|].
    apply row_parent_ref; auto. congruence.
  - rewrite Hg. now left.
Qed.

(** After [update_path], every row of the subtree it was called on has the
    path its parent gives it. *)
Lemma update_path_consistent fuel :
  forall d self d',
    pk_unique d -> (forall i, ~ is_ancestor d i i) ->
    (exists s0, get d (id self) = Some s0 /\ name s0 = name self /\
                parent_id s0 = parent_id self) ->
    update_path fuel d self = Some d' ->
    forall t', In t' (tags d') -> in_subtree d (id self) (id t') ->
               path t' = Some (expected_path d' t').
Proof.
  induction fuel as [|fuel IH]; intros d self d' Hpk Hacy (s0 & Hs0 & Hn0 & Hp0) H;
    simpl in H; [discriminate|].
  match type of H with for_each _ (children ?d1 _) _ = _ => set (db1 := d1) in * end.
  assert (Hsk1 : same_skeleton d db1)
    by (apply update_tag_skeleton; intro t; repeat split).
  assert (Hpk1 : pk_unique db1) by (eapply same_skeleton_pk; eauto).
  assert (Hself : get d (id self) <> None) by congruence.
  (* the row of [self] after its own path is written *)
  assert (Hs1 : exists s1, get db1 (id self) = Some s1 /\
                           path s1 = Some (expected_path db1 s1)).
  { unfold db1. rewrite get_update_tag by reflexivity. rewrite String.eqb_refl, Hs0. simpl.
    eexists. split; [reflexivity|]. simpl. f_equal.
    unfold expected_path, parent. simpl. rewrite Hn0, Hp0.
    destruct (parent_id self) as [q|] eqn:Eq; [|reflexivity].
    rewrite get_update_tag by reflexivity.
    destruct (q =? id self) eqn:E; [|reflexivity].
    apply String.eqb_eq in E. subst q. exfalso. apply (Hacy (id self)).
    apply ancestor_parent. rewrite parent_ref_unfold, Hs0, Hp0, get_exists_id, Hs0.
    reflexivity. }
  pose proof (for_each_prefix_inv (update_path fuel)
    (fun pre dk =>
       same_skeleton d dk /\
       (exists s, get dk (id self) = Some s /\ path s = Some (expected_path dk s)) /\
       (forall t' c, In t' (tags dk) -> In c pre -> in_subtree d (id c) (id t') ->
                     path t' = Some (expected_path dk t')))
    (children db1 self) [] db1 d') as Hloop.
  simpl in Hloop. destruct Hloop as (Hsk & (s & Hs & Hsc) & Hkids).
  - split; [exact Hsk1|]. split; [exact Hs1|]. intros t' c _ [].
  - (* one child *)
    intros pre x dk dk' Hx (Hskk & (s & Hs & Hsc) & Hpre) Hb.
    assert (Hpkk : pk_unique dk) by (eapply same_skeleton_pk; eauto).
    assert (Hacyk : forall i, ~ is_ancestor dk i i).
    { intros i Hi. apply (Hacy i). eapply is_ancestor_skeleton; eauto. }
    assert (Hchild : parent_ref d (id x) = Some (id self)).
    { rewrite <- (parent_ref_skeleton _ _ (id x) Hsk1). apply child_parent_ref; auto.
      destruct Hs1 as (s1 & -> & _). discriminate. }
    assert (Hsk1k : same_skeleton db1 dk).
    { eapply same_skeleton_trans; [apply same_skeleton_sym; exact Hsk1|exact Hskk]. }
    assert (Hxrow : exists x0, get dk (id x) = Some x0 /\ name x0 = name x /\
                               parent_id x0 = parent_id x).
    { apply children_In in Hx. destruct Hx as [Hin _].
      pose proof (pk_unique_get _ _ Hpk1 Hin) as Hg.
      destruct (same_skeleton_get _ _ _ _ Hsk1k Hg) as (x' & Hx' & (_ & Hnm & Hpp & _)).
      eauto. }
    assert (Hxk : get dk (id x) <> None)
      by (destruct Hxrow as (x0 & -> & _); discriminate).
    pose proof (update_path_frame fuel dk x dk' Hpkk Hxk Hb) as HF.
    pose proof (IH dk x dk' Hpkk Hacyk Hxrow Hb) as Hsub.
    pose proof (update_path_skeleton fuel dk x dk' Hb) as Hskx.
    assert (Hto_d : forall i, in_subtree dk (id x) i -> in_subtree d (id x) i).
    { intros i Hi. eapply in_subtree_skeleton; eauto. }
    assert (Hfrom_d : forall i, in_subtree d (id x) i -> in_subtree dk (id x) i).
    { intros i Hi. eapply in_subtree_skeleton; [apply same_skeleton_sym; exact Hskk|exact Hi]. }
    (* a row consistent before is consistent after *)
    assert (Hkeep : forall t', In t' (tags dk') ->
              (forall tk, In tk (tags dk) -> id t' = id tk ->
                          path tk = Some (expected_path dk tk)) ->
              path t' = Some (expected_path dk' t')).
    { intros t' Ht' Hbefore.
      destruct (Forall2_In_r _ _ _ _ HF Ht') as (tk & Htk & Hid & Hor).
      destruct Hor as [->|Hin_sub]; [|apply Hsub; [exact Ht'|now rewrite Hid]].
      destruct (frame_keeps_consistent dk dk' (id x) tk Hpkk HF Htk (Hbefore tk Htk eq_refl))
        as [Hc|Hin_sub]; [exact Hc|].
      apply Hsub; [exact Ht'|exact Hin_sub]. }
    split; [eapply same_skeleton_trans; eauto|]. split.
    + (* the row of [self] is not in the subtree of its child *)
      pose proof (frame_get dk dk' (id x) (id self) HF) as Hg. rewrite Hs in Hg.
      destruct Hg as (s' & Hs' & _). exists s'. split; [exact Hs'|].
      destruct (get_In _ _ _ Hs') as [Hin' Hid'].
      apply Hkeep; [exact Hin'|]. intros tk Htk Hidk.
      assert (tk = s).
      { pose proof (pk_unique_get _ _ Hpkk Htk) as X. rewrite <- Hidk, Hid' in X. congruence. }
      now subst.
    + intros t' c Ht' Hc Hin_c. apply in_app_or in Hc. destruct Hc as [Hc|[<-|[]]].
      * apply Hkeep; [exact Ht'|]. intros tk Htk Hidk.
        apply (Hpre tk c Htk Hc). now rewrite <- Hidk.
      * apply Hsub; [exact Ht'|]. now apply Hfrom_d.
  - exact H.
  - (* every row of the subtree is [self] or below one of its children *)
    intros t' Ht' [Hid|Ha].
    + assert (Hpk' : pk_unique d') by (eapply same_skeleton_pk; eauto).
      pose proof (pk_unique_get _ _ Hpk' Ht') as X. rewrite Hid in X. congruence.
    + destruct (ancestor_first_child _ _ _ Ha) as (c & Hc & Hor).
      rewrite <- (parent_ref_skeleton _ _ c Hsk1) in Hc.
      destruct (parent_ref_child_row _ _ _ Hc) as (rc & Hrc & Hprc).
      destruct (get_In _ _ _ Hrc) as [Hrin Hrid].
      apply (Hkids t' rc Ht').
      * unfold children. apply filter_In. split; [exact Hrin|].
        unfold option_string_eqb. rewrite Hprc. apply String.eqb_refl.
      * rewrite Hrid. destruct Hor as [->|Hor]; [now left|now right].
Qed.

Lemma only_path_get l l' es es' p t :
  Forall2 (fun t t' => t' = set_path (path t') t) l l' ->
  get (mkDB l es) p = Some t ->
  exists t', get (mkDB l' es') p = Some t' /\ t' = set_path (path t') t.
Proof.
  unfold get. simpl. induction 1 as [|a b l l' Hab _ IH]; simpl; [discriminate|].
  assert (Hid : id b = id a) by (rewrite Hab; reflexivity).
  rewrite Hid. destruct (id a =? p).
  - intro H. injection H as <-. eauto.
  - exact IH.
Qed.

Lemma update_path_get fuel d self d' p t :
  update_path fuel d self = Some d' -> get d p = Some t ->
  exists t', get d' p = Some t' /\ t' = set_path (path t') t.
Proof.
  intros H Hg. apply update_path_only_path in H.
  destruct d as [l es], d' as [l' es']. eapply only_path_get; eauto.
Qed.

(** The parts of a successful [move_tag]. *)
Lemma move_tag_success fuel db tag_id0 npid uid msg db' :
  move_tag fuel db tag_id0 npid uid = Some (true, msg, db') ->
  exists tag new_parent,
    get_active db tag_id0 = Some tag /\
    ((truthy_value npid = None /\ new_parent = None) \/
     (exists np, truthy_value npid = Some (id np) /\ get_active db (id np) = Some np /\
                 new_parent = Some np /\ can_be_parent_of fuel db np tag = Some true)) /\
    let lv := match new_parent with Some np => level np + 1 | None => 0 end in
    update_path fuel
      (update_tag (id tag) (fun t => set_level lv (set_parent_id npid t)) db)
      (set_level lv (set_parent_id npid tag)) = Some db'.
Proof.
  unfold move_tag. destruct (get_active db tag_id0) as [tag|] eqn:Et; [|discriminate].
  destruct (truthy_value npid) as [pid|] eqn:Ep.
  - destruct (get_active db pid) as [np|] eqn:Enp; [|discriminate].
    destruct (get_active_In _ _ _ Enp) as (_ & Hid & _).
    destruct (can_be_parent_of fuel db np tag) as [[|]|] eqn:Ec; try discriminate.
    destruct (references_ok _ _); [|discriminate].
    destruct (update_path _ _ _) as [db2|] eqn:Eu; [|discriminate].
    intro H. injection H as _ <-. exists tag, (Some np). split; [reflexivity|].
    split; [|exact Eu]. right. exists np. subst pid. auto.
  - destruct (references_ok _ _); [|discriminate].
    destruct (update_path _ _ _) as [db2|] eqn:Eu; [|discriminate].
    intro H. injection H as _ <-. exists tag, None. split; [reflexivity|].
    split; [|exact Eu]. now left.
Qed.

(** X12. Cascade of paths.  After a successful [move_tag] on a well-formed
    table, the moved tag has the new parent, the level and the path its new
    parent gives it, and every tag below it, at any depth, has the path its
    own parent gives it. *)
Theorem move_tag_cascades_paths fuel db tag_id0 npid uid msg db' :
  well_formed db ->
  move_tag fuel db tag_id0 npid uid = Some (true, msg, db') ->
  (exists moved,
      get db' tag_id0 = Some moved /\ parent_id moved = npid /\
      level moved = expected_level db' moved /\
      path moved = Some (expected_path db' moved)) /\
  (forall t', In t' (tags db') -> in_subtree db' tag_id0 (id t') ->
              path t' = Some (expected_path db' t')).
Proof.
  intros Hwf H. pose proof Hwf as [Hpk Hids Hact Hrefs Hacy].
  destruct (move_tag_success _ _ _ _ _ _ _ H) as (tag & new_parent & Ht & Hnp & Hup).
  cbv zeta in Hup.
  set (lv := match new_parent with Some np => level np + 1 | None => 0 end) in *.
  set (db1 := update_tag (id tag) (fun t => set_level lv (set_parent_id npid t)) db) in *.
  destruct (get_active_In _ _ _ Ht) as (Hin & Hid & _).
  assert (Hwf1 : well_formed db1).
  { apply repoint_well_formed; auto.
    destruct Hnp as [[Hn _]|(np & Hn & Hg & _ & Hc)].
    - destruct (truthy_value_None _ Hn); auto.
    - right. right. exists np. destruct (truthy_value_Some _ _ Hn) as [-> _].
      destruct (get_active_In _ _ _ Hg) as (Hnin & _ & _).
      destruct (can_be_parent_of_true db fuel np tag Hpk Hnin Hc). auto. }
  assert (Hg1 : get db1 (id tag) = Some (set_level lv (set_parent_id npid tag))).
  { unfold db1. rewrite get_update_tag by reflexivity.
    now rewrite String.eqb_refl, (pk_unique_get _ _ Hpk Hin). }
  pose proof (update_path_skeleton _ _ _ _ Hup) as Hsk.
  assert (Hsub : forall t', In t' (tags db') -> in_subtree db' tag_id0 (id t') ->
                            path t' = Some (expected_path db' t')).
  { intros t' Ht' Hs.
    apply (update_path_consistent fuel db1 (set_level lv (set_parent_id npid tag)) db'
             (wf_pk _ Hwf1) (wf_acyclic _ Hwf1)); auto.
    - eexists. split; [exact Hg1|]. split; reflexivity.
    - simpl. rewrite Hid. eapply in_subtree_skeleton; eauto. }
  split; [|exact Hsub].
  destruct (update_path_get _ _ _ _ _ _ Hup Hg1) as (moved & Hm & Hshape).
  rewrite Hid in Hm. exists moved. split; [exact Hm|].
  destruct (get_In _ _ _ Hm) as [Hmin Hmid].
  split; [rewrite Hshape; reflexivity|]. split.
  - (* the level written is the level of the new parent plus one *)
    assert (Hlv : level moved = lv) by (rewrite Hshape; reflexivity).
    assert (Hpm : parent_id moved = npid) by (rewrite Hshape; reflexivity).
    rewrite Hlv. unfold expected_level, parent. rewrite Hpm.
    destruct Hnp as [[Hn ->]|(np & Hn & Hg & -> & Hc)]; unfold lv.
    + destruct (truthy_value_None _ Hn) as [-> | ->]; [reflexivity|].
      pose proof (well_formed_skeleton _ _ Hsk Hwf1) as Hwf'.
      now rewrite (get_empty_id db' (wf_ids _ Hwf')).
    + destruct (truthy_value_Some _ _ Hn) as [-> _].
      destruct (get_active_In _ _ _ Hg) as (Hnin & _ & _).
      destruct (can_be_parent_of_true db fuel np tag Hpk Hnin Hc) as [Hne _].
      assert (Hgn : get db1 (id np) = Some np).
      { unfold db1. rewrite get_update_tag by reflexivity.
        apply String.eqb_neq in Hne. now rewrite Hne, (pk_unique_get _ _ Hpk Hnin). }
      destruct (update_path_get _ _ _ _ _ _ Hup Hgn) as (np' & -> & Hnp').
      rewrite Hnp'. reflexivity.
  - apply Hsub; [exact Hmin|]. left. exact Hmid.
Qed.

Lemma move_tag_cascades_paths_witness :
  exists db',
    move_tag 3 family_db cat_id None "u1" = Some (true, Moved, db') /\
    (exists moved,
        get db' cat_id = Some moved /\ parent_id moved = None /\
        level moved = expected_level db' moved /\
        path moved = Some (expected_path db' moved)) /\
    (forall t', In t' (tags db') -> in_subtree db' cat_id (id t') ->
                path t' = Some (expected_path db' t')).
Proof.
  eexists. split; [reflexivity|].
  eapply (move_tag_cascades_paths 3 family_db cat_id None "u1" Moved).
  - exact family_db_well_formed.
  - reflexivity.
Defined.

(** ** The operations return *)

Lemma for_each_total {A S} (body : S -> A -> option S) (I : S -> Prop) xs :
  forall s,
    I s ->
    (forall x s0, In x xs -> I s0 -> exists s1, body s0 x = Some s1 /\ I s1) ->
    exists s', for_each body xs s = Some s'.
Proof.
  induction xs as [|x xs IH]; simpl; intros s Hs Hstep; [eauto|].
  destruct (Hstep x s (or_introl eq_refl) Hs) as (s1 & -> & Hs1).
  apply IH; [exact Hs1|]. intros y s0 Hy. apply Hstep. now right.
Qed.

Lemma get_In_ids db i : get db i <> None -> In i (map id (tags db)).
Proof.
  destruct (get db i) as [t|] eqn:E; [|congruence]. intros _.
  destruct (get_In _ _ _ E) as [Hin <-]. now apply in_map.
Qed.

Lemma update_path_returns fuel :
  forall d self visited,
    pk_unique d -> (forall i, ~ is_ancestor d i i) ->
    get d (id self) <> None ->
    NoDup visited ->
    (forall v, In v visited -> is_ancestor d v (id self)) ->
    incl visited (map id (tags d)) ->
    (List.length (tags d) < List.length visited + fuel)%nat ->
    exists d', update_path fuel d self = Some d'.
Proof.
  induction fuel as [|fuel IH]; intros d self visited Hpk Hacy Hself Hnd Hv Hincl Hlen.
  - exfalso.
    assert (Hnd' : NoDup (id self :: visited)).
    { constructor; [|exact Hnd]. intro Hin. exact (Hacy _ (Hv _ Hin)). }
    assert (Hincl' : incl (id self :: visited) (map id (tags d))).
    { intros x [<-|Hx]; [now apply get_In_ids|auto]. }
    pose proof (NoDup_incl_length Hnd' Hincl') as Hle.
    rewrite length_map in Hle. simpl in Hle. lia.
  - cbn [update_path].
    match goal with |- context [for_each _ (children ?d1 _) _] => set (db1 := d1) end.
    assert (Hsk1 : same_skeleton d db1)
      by (apply update_tag_skeleton; intro t; repeat split).
    assert (Hpk1 : pk_unique db1) by (eapply same_skeleton_pk; eauto).
    assert (Hself1 : get db1 (id self) <> None).
    { intro E. pose proof (same_skeleton_get_exists _ _ (id self) Hsk1) as X.
      rewrite E in X. destruct (get d (id self)); [discriminate X|congruence]. }
    apply (for_each_total _ (fun dk => same_skeleton d dk)); [exact Hsk1|].
    intros x dk Hx Hsk.
    assert (Hchild : parent_ref d (id x) = Some (id self)).
    { rewrite <- (parent_ref_skeleton _ _ (id x) Hsk1). now apply child_parent_ref. }
    assert (Hback : forall a i, is_ancestor d a i -> is_ancestor dk a i).
    { intros a i Ha. eapply is_ancestor_skeleton; [apply same_skeleton_sym; exact Hsk|exact Ha]. }
    destruct (IH dk x (id self :: visited)) as (dk' & Hdk').
    + eapply same_skeleton_pk; eauto.
    + intros i Hi. apply (Hacy i). eapply is_ancestor_skeleton; eauto.
    + apply children_In in Hx. destruct Hx as [Hin _].
      pose proof (pk_unique_get _ _ Hpk1 Hin) as Hg.
      destruct (same_skeleton_get _ _ _ _ (same_skeleton_trans _ _ _
                  (same_skeleton_sym _ _ Hsk1) Hsk) Hg) as (x' & -> & _). discriminate.
    + constructor; [|exact Hnd]. intro Hin. exact (Hacy _ (Hv _ Hin)).
    + intros v [<-|Hin]; apply Hback.
      * now apply ancestor_parent.
      * eapply ancestor_trans; [apply Hv, Hin|now apply ancestor_parent].
    + rewrite (same_skeleton_ids _ _ Hsk).
      intros v [<-|Hin]; [now apply get_In_ids|auto].
    + assert (El : List.length (tags dk) = List.length (tags d)).
      { rewrite <- (length_map id (tags dk)), (same_skeleton_ids _ _ Hsk). apply length_map. }
      rewrite El. simpl. lia.
    + exists dk'. split; [exact Hdk'|].
      eapply same_skeleton_trans; [exact Hsk|eapply update_path_skeleton; eauto].
Qed.

(** X13. The operations return.  On a well-formed table [move_tag] returns for
    every input as soon as the fuel exceeds the number of tags, and
    [create_tag] does with one unit more: the ancestor walk and the path
    cascade never loop. *)
Theorem move_and_create_return db fuel :
  well_formed db ->
  (List.length (tags db) < fuel)%nat ->
  (forall tag_id0 npid uid, exists r, move_tag fuel db tag_id0 npid uid = Some r) /\
  (forall new_id name0 uid parent_id0 description0 name_en0 category0 domain0
          is_abstract0 aliases0 properties0,
      is_uuid new_id ->
      exists r, create_tag (S fuel) db new_id name0 uid parent_id0 description0 name_en0
                           category0 domain0 is_abstract0 aliases0 properties0 = Some r).
Proof.
  intros Hwf Hlen. pose proof Hwf as [Hpk Hids Hact Hrefs Hacy]. split.
  - intros tag_id0 npid uid. unfold move_tag.
    destruct (get_active db tag_id0) as [tag|] eqn:Et; [|eauto].
    destruct (get_active_In _ _ _ Et) as (Hin & Hid & _).
    assert (Hcommit : forall lv,
      (npid = None \/ npid = Some "" \/
       exists np, npid = Some (id np) /\ In np (tags db) /\ id np <> id tag /\
                  ~ is_ancestor db (id tag) (id np)) ->
      exists d', update_path fuel
                   (update_tag (id tag) (fun t => set_level lv (set_parent_id npid t)) db)
                   (set_level lv (set_parent_id npid tag)) = Some d').
    { intros lv Hnp.
      pose proof (repoint_well_formed db tag npid lv Hwf Hin Hnp) as Hwf1.
      apply (update_path_returns fuel _ _ []).
      - exact (wf_pk _ Hwf1).
      - exact (wf_acyclic _ Hwf1).
      - simpl. rewrite get_update_tag by reflexivity.
        rewrite String.eqb_refl, (pk_unique_get _ _ Hpk Hin). discriminate.
      - constructor.
      - intros v [].
      - intros v [].
      - rewrite <- (length_map id), update_tag_ids, length_map by reflexivity.
        simpl. lia. }
    destruct (truthy_value npid) as [pid|] eqn:Ep.
    + destruct (truthy_value_Some _ _ Ep) as [-> _].
      destruct (get_active db pid) as [np|] eqn:Enp; [|eauto].
      destruct (get_active_In _ _ _ Enp) as (Hnin & Hnid & _).
      pose proof (can_be_parent_of_returns db fuel np tag Hpk Hacy Hnin) as Hr.
      destruct (can_be_parent_of fuel db np tag) as [[|]|] eqn:Ec.
      * destruct (can_be_parent_of_true db fuel np tag Hpk Hnin Ec) as [Hne Hna].
        destruct (references_ok _ _); [|eauto].
        destruct (Hcommit (level np + 1)) as (d' & ->); [|eauto].
        right. right. exists np. subst pid. auto.
      * eauto.
      * exfalso. apply Hr; [lia|reflexivity].
    + destruct (references_ok _ _); [|eauto].
      destruct (Hcommit 0) as (d' & ->); [|eauto].
      destruct (truthy_value_None _ Ep); auto.
  - intros new_id name0 uid parent_id0 description0 name_en0 category0 domain0
           is_abstract0 aliases0 properties0 Hu. unfold create_tag.
    destruct ((name0 =? "") || (String.length (strip name0) =? 0)%nat); [eauto|].
    destruct (get_active_by_name db (strip name0)); [eauto|].
    assert (Hinsert : forall lv,
      (parent_id0 = None \/ parent_id0 = Some "" \/
       exists p, parent_id0 = Some p /\ get db p <> None) ->
      get db new_id = None ->
      exists d', update_path (S fuel)
                   (mkDB (tags db ++ [mkTag new_id (strip name0) (Some name_en0)
                      (Some description0) parent_id0 lv None category0 domain0
                      is_abstract0 false active 500 0 0 aliases0 properties0 uid])
                      (entry_tags db))
                   (mkTag new_id (strip name0) (Some name_en0)
                      (Some description0) parent_id0 lv None category0 domain0
                      is_abstract0 false active 500 0 0 aliases0 properties0 uid)
                 = Some d').
    { intros lv Hpar Hnew.
      set (row := mkTag new_id (strip name0) (Some name_en0) (Some description0) parent_id0
                        lv None category0 domain0 is_abstract0 false active 500 0 0
                        aliases0 properties0 uid).
      assert (Hwf1 : well_formed (mkDB (tags db ++ [row]) (entry_tags db))).
      { apply insert_well_formed; auto. now apply is_uuid_nonempty. }
      apply (update_path_returns (S fuel) _ _ []).
      - exact (wf_pk _ Hwf1).
      - exact (wf_acyclic _ Hwf1).
      - rewrite get_insert. change (id row) with new_id. rewrite Hnew.
        simpl. rewrite String.eqb_refl. discriminate.
      - constructor.
      - intros v [].
      - intros v [].
      - simpl. rewrite length_app. simpl. lia. }
    destruct (truthy_value parent_id0) as [pid|] eqn:Ep.
    + destruct (truthy_value_Some _ _ Ep) as [-> _].
      destruct (get_active db pid) as [parent_tag|] eqn:Epar; [|eauto].
      destruct (get db new_id) eqn:Eg; [eauto|].
      destruct (100 <? _)%nat; [eauto|]. destruct (references_ok _ _); [|eauto].
      destruct (Hinsert (level parent_tag + 1)) as (d' & ->); [|reflexivity|eauto].
      right. right. exists pid. split; [reflexivity|]. eapply get_active_get; eauto.
    + destruct (get db new_id) eqn:Eg; [eauto|].
      destruct (100 <? _)%nat; [eauto|]. destruct (references_ok _ _); [|eauto].
      destruct (Hinsert 0) as (d' & ->); [|reflexivity|eauto].
      destruct (truthy_value_None _ Ep); auto.
Qed.

Lemma move_and_create_return_witness :
  (forall tag_id0 npid uid, exists r, move_tag 4 family_db tag_id0 npid uid = Some r) /\
  (forall new_id name0 uid parent_id0 description0 name_en0 category0 domain0
          is_abstract0 aliases0 properties0,
      is_uuid new_id ->
      exists r, create_tag 5 family_db new_id name0 uid parent_id0 description0 name_en0
                           category0 domain0 is_abstract0 aliases0 properties0 = Some r).
Proof.
  apply (move_and_create_return family_db 4 family_db_well_formed). simpl. lia.
Defined.

(** ** What [_score_candidates] answers *)

Lemma score_loop_answer db candidates :
  forall scored result, score_loop db candidates scored = inl result -> result = scored.
Proof.
  induction candidates as [|[n c] cs IH]; simpl; intros scored result H.
  - now injection H as <-.
  - destruct (get_active_by_name db n) as [t|]; [discriminate H|]. now apply IH.
Qed.

(** X14. [_score_candidates] answers the empty list when no candidate name is
    the name of an active tag, and raises [TypeError] as soon as one is: it
    never returns a ranking with an entry in it. *)
Theorem score_candidates_raises_or_empty db candidates tag_name description0 :
  (Forall (fun c => get_active_by_name db (fst c) = None) candidates ->
   score_candidates db candidates tag_name description0 = inl []) /\
  (Exists (fun c => get_active_by_name db (fst c) <> None) candidates ->
   score_candidates db candidates tag_name description0 = inr TypeError) /\
  (forall ranking,
      score_candidates db candidates tag_name description0 = inl ranking -> ranking = []).
Proof.
  unfold score_candidates. split; [|split].
  - intro H. now rewrite (score_loop_unresolved db candidates [] H).
  - intro H. now rewrite (score_loop_resolved db candidates [] H).
  - intros ranking. destruct (score_loop db candidates []) as [scored|e] eqn:E; [|discriminate].
    apply score_loop_answer in E. subst scored. simpl. intro H. now injection H as <-.
Qed.

Lemma score_candidates_raises_or_empty_witness :
  score_candidates scoring_db [("Nobody", 1 # 2)] "Cat" "" = inl [] /\
  score_candidates scoring_db [("Nobody", 1 # 2); ("Plant", 1 # 2)] "Cat" "" = inr TypeError.
Proof.
  split.
  - apply (score_candidates_raises_or_empty scoring_db [("Nobody", 1 # 2)] "Cat" "").
    repeat constructor.
  - apply (score_candidates_raises_or_empty scoring_db
             [("Nobody", 1 # 2); ("Plant", 1 # 2)] "Cat" "").
    right. left. discriminate.
Defined.

(** ** The rows kept by [LIMIT] *)

Lemma StronglySorted_app_cross {A} (R : A -> A -> Prop) l1 l2 :
  StronglySorted R (l1 ++ l2) -> forall a b, In a l1 -> In b l2 -> R a b.
Proof.
  induction l1 as [|x l1 IH]; simpl; intros H a b Ha Hb; [contradiction|].
  inversion H as [|? ? Hs Hx]; subst. destruct Ha as [<-|Ha].
  - rewrite Forall_forall in Hx. apply Hx, in_or_app. now right.
  - now apply IH.
Qed.

Lemma limit_rows_all {A} limit (rows : list A) :
  (Z.of_nat (List.length rows) <= limit)%Z -> limit_rows limit rows = rows.
Proof. intro H. rewrite limit_rows_firstn. apply firstn_all2. lia. Qed.

Lemma limit_rows_nonpos {A} limit (rows : list A) :
  (limit <= 0)%Z -> limit_rows limit rows = [].
Proof.
  intro H. rewrite limit_rows_firstn. replace (Z.to_nat limit) with 0%nat by lia.
  reflexivity.
Qed.

Section BestRows.
Context {A : Type} (leb : A -> A -> bool).
Hypothesis leb_total : forall a b, leb a b = true \/ leb b a = true.
Hypothesis leb_trans : forall a b c, leb a b = true -> leb b c = true -> leb a c = true.

Lemma limit_rows_best limit l x r :
  In x l -> ~ In x (limit_rows limit (sort_by leb l)) ->
  In r (limit_rows limit (sort_by leb l)) -> leb r x = true.
Proof.
  rewrite limit_rows_firstn. intros Hx Hout Hr.
  pose proof (sort_by_sorted leb leb_total leb_trans l) as Hs.
  rewrite <- (firstn_skipn (Z.to_nat limit) (sort_by leb l)) in Hs.
  apply (StronglySorted_app_cross _ _ _ Hs r x Hr).
  apply (Permutation_in _ (Permutation_sym (sort_by_perm leb l))) in Hx.
  rewrite <- (firstn_skipn (Z.to_nat limit) (sort_by leb l)) in Hx.
  apply in_app_or in Hx. destruct Hx as [Hx|Hx]; [contradiction|exact Hx].
Qed.

Lemma limit_rows_complete limit l :
  (Z.of_nat (List.length l) <= limit)%Z -> Permutation (limit_rows limit (sort_by leb l)) l.
Proof.
  intro H. rewrite limit_rows_all; [apply sort_by_perm|].
  now rewrite (Permutation_length (sort_by_perm leb l)).
Qed.
End BestRows.

(** X15. [search_tags] keeps the best rows: a matching tag left out by the
    limit never precedes a returned row in the search order; when the limit is
    at least the number of matching tags the answer holds each of them exactly
    once; and a limit of zero or less gives the empty answer. *)
Theorem search_tags_best_rows db keyword category0 domain0 limit :
  let matches := filter (search_filter keyword category0 domain0) (tags db) in
  let result := search_tags db keyword category0 domain0 limit in
  (forall t r, In t matches -> ~ In t result -> In r result -> search_order r t) /\
  ((Z.of_nat (List.length matches) <= limit)%Z -> Permutation result matches) /\
  ((limit <= 0)%Z -> result = []).
Proof.
  unfold search_tags. repeat split.
  - intros t r Ht Hout Hr. apply search_leb_order.
    eapply (limit_rows_best search_leb search_leb_total search_leb_trans); eauto.
  - apply limit_rows_complete.
  - apply limit_rows_nonpos.
Qed.

Lemma search_tags_best_rows_witness :
  search_order (sample_tag "1" "Cat" None 0 "Cat" active 0)
               (sample_tag "2" "Catfish" None 0 "Catfish" active 0) /\
  Permutation (search_tags search_db (Some "cat") None None 3)
              (filter (search_filter (Some "cat") None None) (tags search_db)).
Proof.
  pose proof (search_tags_best_rows search_db (Some "cat") None None 2) as H2.
  pose proof (search_tags_best_rows search_db (Some "cat") None None 3) as H3.
  split.
  - apply (proj1 H2).
    + right. left. reflexivity.
    + intros [H|[H|[]]]; discriminate H.
    + left. reflexivity.
  - apply (proj1 (proj2 H3)). vm_compute. discriminate.
Defined.

(** ** Two-key descending orders *)

Lemma desc2_order (f g : Tag -> Z) a b :
  (if (f b <? f a)%Z then true
   else if (f a <? f b)%Z then false else (g b <=? g a)%Z) = true
  <-> ((f b < f a)%Z \/ (f a = f b /\ (g b <= g a)%Z)).
Proof.
  destruct (f b <? f a)%Z eqn:E1; [apply Z.ltb_lt in E1; split; auto|].
  apply Z.ltb_ge in E1.
  destruct (f a <? f b)%Z eqn:E2;
    [apply Z.ltb_lt in E2; split; [discriminate|intros [H|[H _]]; lia]|].
  apply Z.ltb_ge in E2. rewrite Z.leb_le. split; [intro H; right; lia|intros [H|[_ H]]; lia].
Qed.

Lemma popular_leb_order a b :
  popular_leb a b = true <->
  ((usage_count b < usage_count a)%Z \/
   (usage_count a = usage_count b /\ (popularity_score b <= popularity_score a)%Z)).
Proof. apply (desc2_order usage_count popularity_score). Qed.

Lemma suggestion_leb_order a b :
  suggestion_leb a b = true <->
  ((usage_count b < usage_count a)%Z \/
   (usage_count a = usage_count b /\ (quality_score b <= quality_score a)%Z)).
Proof. apply (desc2_order usage_count quality_score). Qed.

Lemma popular_leb_total a b : popular_leb a b = true \/ popular_leb b a = true.
Proof. rewrite !popular_leb_order. lia. Qed.

Lemma popular_leb_trans a b c :
  popular_leb a b = true -> popular_leb b c = true -> popular_leb a c = true.
Proof. rewrite !popular_leb_order. lia. Qed.

Lemma suggestion_leb_total a b : suggestion_leb a b = true \/ suggestion_leb b a = true.
Proof. rewrite !suggestion_leb_order. lia. Qed.

Lemma suggestion_leb_trans a b c :
  suggestion_leb a b = true -> suggestion_leb b c = true -> suggestion_leb a c = true.
Proof. rewrite !suggestion_leb_order. lia. Qed.

Lemma is_active_status t : is_active t = true <-> status t = active.
Proof. unfold is_active. split; [apply Status_eqb_eq|intros ->; reflexivity]. Qed.

(** X16. [get_popular_tags] answers a ranking of the active tags: usage count
    descending and, among equal counts, popularity score descending; at most
    [limit] rows; an active tag left out by the limit never ranks before a
    returned one; and with a limit of at least the number of tags every active
    tag is returned. *)
Theorem get_popular_tags_ranked db limit :
  let result := get_popular_tags db limit in
  let before a b :=
    (usage_count b < usage_count a)%Z \/
    (usage_count a = usage_count b /\ (popularity_score b <= popularity_score a)%Z) in
  StronglySorted before result /\
  (Z.of_nat (List.length result) <= Z.max 0 limit)%Z /\
  (forall t r, In t (tags db) -> status t = active -> ~ In t result -> In r result ->
               before r t) /\
  ((Z.of_nat (List.length (tags db)) <= limit)%Z ->
   forall t, In t (tags db) -> status t = active -> In t result).
Proof.
  unfold get_popular_tags. cbv zeta. repeat split.
  - rewrite limit_rows_firstn. apply StronglySorted_firstn.
    eapply StronglySorted_impl; [intros a b; apply popular_leb_order|].
    apply sort_by_sorted; [apply popular_leb_total|apply popular_leb_trans].
  - apply limit_rows_length.
  - intros t r Ht Ha Hout Hr. apply popular_leb_order.
    apply (limit_rows_best popular_leb popular_leb_total popular_leb_trans limit
             (filter is_active (tags db)) t r); [|exact Hout|exact Hr].
    apply filter_In. split; [exact Ht|now apply is_active_status].
  - intros Hlim t Ht Ha.
    eapply Permutation_in; [apply Permutation_sym, limit_rows_complete|].
    + pose proof (filter_length_le is_active (tags db)). lia.
    + apply filter_In. split; [exact Ht|now apply is_active_status].
Qed.

Lemma get_popular_tags_ranked_witness :
  In (sample_tag "s" "Feline" None 0 "Feline" active 2) (get_popular_tags merge_db 3) /\
  ((usage_count (sample_tag "s" "Feline" None 0 "Feline" active 2)
    < usage_count (sample_tag "t" "Cat" None 0 "Cat" active 3))%Z \/
   (usage_count (sample_tag "t" "Cat" None 0 "Cat" active 3)
    = usage_count (sample_tag "s" "Feline" None 0 "Feline" active 2) /\
    (popularity_score (sample_tag "s" "Feline" None 0 "Feline" active 2)
     <= popularity_score (sample_tag "t" "Cat" None 0 "Cat" active 3))%Z)).
Proof.
  split.
  - apply (proj2 (proj2 (proj2 (get_popular_tags_ranked merge_db 3)))).
    + simpl. lia.
    + left. reflexivity.
    + reflexivity.
  - apply (proj1 (proj2 (proj2 (get_popular_tags_ranked merge_db 1)))).
    + left. reflexivity.
    + reflexivity.
    + intros [H|[]]. discriminate H.
    + left. reflexivity.
Defined.

(** ** Patterns without and with wildcards *)

Lemma list_ascii_of_string_app a b :
  list_ascii_of_string (a ++ b)%string = list_ascii_of_string a ++ list_ascii_of_string b.
Proof. induction a as [|c a IH]; simpl; [reflexivity|now rewrite IH]. Qed.

Lemma like_percent_all s : like ["%"%char] s = true.
Proof. induction s as [|x s IH]; [reflexivity|]. simpl in *. exact IH. Qed.

Lemma like_percent_step p s : like p s = true -> like ("%"%char :: p) s = true.
Proof. intro H. destruct s; simpl; rewrite H; reflexivity. Qed.

Lemma like_all_percent p s :
  Forall (fun c => c = "%"%char) p -> p <> [] -> like p s = true.
Proof.
  induction 1 as [|c p -> Hp IH]; intro Hne; [congruence|].
  destruct p as [|c' p']; [apply like_percent_all|].
  apply like_percent_step. apply IH. discriminate.
Qed.

Lemma like_plain_step c p s :
  c <> "%"%char -> c <> "_"%char -> c <> "\"%char ->
  like (c :: p) s = match s with
                    | [] => false
                    | x :: s' => Ascii.eqb c x && like p s'
                    end.
Proof.
  intros H1 H2 H3. apply Ascii.eqb_neq in H1, H2, H3.
  simpl. rewrite H1, H2, H3. reflexivity.
Qed.

Lemma like_plain_prefix p s :
  Forall (fun c => c <> "%"%char /\ c <> "_"%char /\ c <> "\"%char) p ->
  like (p ++ ["%"%char]) s = true <-> exists rest, s = p ++ rest.
Proof.
  intro Hp. revert s. induction Hp as [|c p (H1 & H2 & H3) Hp IH]; intro s.
  - simpl app. split; [intros _; now exists s|intros _; apply like_percent_all].
  - change ((c :: p) ++ ["%"%char]) with (c :: (p ++ ["%"%char])).
    rewrite like_plain_step by assumption. destruct s as [|x s].
    + split; [discriminate|intros (rest & E); discriminate E].
    + rewrite andb_true_iff, Ascii.eqb_eq, IH. split.
      * intros (-> & rest & ->). now exists rest.
      * intros (rest & E). injection E as -> ->. split; [reflexivity|now exists rest].
Qed.

Lemma lower_plain c :
  c <> "%"%char /\ c <> "_"%char /\ c <> "\"%char ->
  lower c <> "%"%char /\ lower c <> "_"%char /\ lower c <> "\"%char.
Proof.
  intros (H1 & H2 & H3).
  destruct c as [[] [] [] [] [] [] [] []]; vm_compute; repeat split; intro E;
    first [discriminate E | exfalso; apply H1; reflexivity
          | exfalso; apply H2; reflexivity | exfalso; apply H3; reflexivity].
Qed.

Lemma ilike_prefix partial_name s :
  Forall (fun c => c <> "%"%char /\ c <> "_"%char /\ c <> "\"%char)
         (list_ascii_of_string partial_name) ->
  ilike (Some s) (partial_name ++ "%")%string = true <->
  exists rest, map lower (list_ascii_of_string s)
               = map lower (list_ascii_of_string partial_name) ++ rest.
Proof.
  intro Hp. unfold ilike. rewrite list_ascii_of_string_app, map_app.
  change (map lower (list_ascii_of_string "%")) with ["%"%char].
  apply like_plain_prefix. apply Forall_map.
  eapply Forall_impl; [|exact Hp]. intros c. apply lower_plain.
Qed.

(** X17. [get_tag_suggestions] with a name fragment that holds no [%], [_] or
    backslash: the answer is ordered by usage count descending, then quality
    score descending; each row is a stored active tag whose name starts with
    the fragment, letter case apart; and with a limit of at least the number of
    tags every such tag is returned. *)
Theorem get_tag_suggestions_prefix db partial_name limit :
  Forall (fun c => c <> "%"%char /\ c <> "_"%char /\ c <> "\"%char)
         (list_ascii_of_string partial_name) ->
  let result := get_tag_suggestions db partial_name limit in
  let starts t :=
    exists rest, map lower (list_ascii_of_string (name t))
                 = map lower (list_ascii_of_string partial_name) ++ rest in
  StronglySorted (fun a b =>
      (usage_count b < usage_count a)%Z \/
      (usage_count a = usage_count b /\ (quality_score b <= quality_score a)%Z)) result /\
  (forall t, In t result -> In t (tags db) /\ status t = active /\ starts t) /\
  ((Z.of_nat (List.length (tags db)) <= limit)%Z ->
   forall t, In t (tags db) -> status t = active -> starts t -> In t result).
Proof.
  intro Hp. unfold get_tag_suggestions. cbv zeta. repeat split.
  - rewrite limit_rows_firstn. apply StronglySorted_firstn.
    eapply StronglySorted_impl; [intros a b; apply suggestion_leb_order|].
    apply sort_by_sorted; [apply suggestion_leb_total|apply suggestion_leb_trans].
  - apply limit_rows_incl in H. apply (Permutation_in _ (sort_by_perm _ _)) in H.
    apply filter_In in H. tauto.
  - apply limit_rows_incl in H. apply (Permutation_in _ (sort_by_perm _ _)) in H.
    apply filter_In in H. destruct H as [_ H]. apply andb_true_iff in H.
    now apply is_active_status.
  - apply limit_rows_incl in H. apply (Permutation_in _ (sort_by_perm _ _)) in H.
    apply filter_In in H. destruct H as [_ H]. apply andb_true_iff in H.
    destruct H as [_ H]. now apply ilike_prefix.
  - intros Hlim t Ht Ha Hs.
    eapply Permutation_in; [apply Permutation_sym, limit_rows_complete|].
    + match goal with |- context [filter ?f (tags db)] =>
        pose proof (filter_length_le f (tags db)) end. lia.
    + apply filter_In. split; [exact Ht|]. apply andb_true_iff. split.
      * now apply is_active_status.
      * now apply ilike_prefix.
Qed.

Lemma get_tag_suggestions_prefix_witness :
  In (sample_tag "1" "Cat" None 0 "Cat" active 0) (get_tag_suggestions search_db "cat" 10).
Proof.
  apply (get_tag_suggestions_prefix search_db "cat" 10).
  - repeat (constructor; [repeat split; discriminate|]). constructor.
  - simpl. lia.
  - right. right. right. left. reflexivity.
  - reflexivity.
  - exists []. reflexivity.
Defined.

(** X18. A keyword made of [%] signs only is no filter: [search_tags] then
    answers exactly as it does without a keyword, since the pattern built
    around the keyword matches every name. *)
Theorem search_tags_wildcard_keyword db k category0 domain0 limit :
  k <> "" ->
  Forall (fun c => c = "%"%char) (list_ascii_of_string k) ->
  search_tags db (Some k) category0 domain0 limit
  = search_tags db None category0 domain0 limit.
Proof.
  intros Hk Hall. unfold search_tags. f_equal. f_equal. apply filter_ext. intro t.
  unfold search_filter. f_equal. f_equal. f_equal.
  unfold truthy_value, truthy. apply String.eqb_neq in Hk. rewrite Hk. simpl.
  unfold keyword_match.
  assert (E : ilike (Some (name t)) ("%" ++ k ++ "%")%string = true).
  { unfold ilike. apply like_all_percent.
    - apply Forall_map. rewrite !list_ascii_of_string_app.
      apply Forall_app. split; [repeat constructor|].
      apply Forall_app. split; [|repeat constructor].
      eapply Forall_impl; [|exact Hall]. intros c ->. reflexivity.
    - simpl. discriminate. }
  rewrite E. reflexivity.
Qed.

Lemma search_tags_wildcard_keyword_witness :
  search_tags search_db (Some "%%") None None 10 = search_tags search_db None None None 10.
Proof.
  apply (search_tags_wildcard_keyword search_db "%%" None None 10).
  - discriminate.
  - repeat constructor.
Defined.

(** ** The categories ([get_categories]) *)

Lemma sum_perm l l' :
  Permutation l l' -> fold_right Z.add 0%Z l = fold_right Z.add 0%Z l'.
Proof. induction 1; simpl; lia. Qed.

Lemma sum_add {A} (f g : A -> Z) cs :
  fold_right Z.add 0%Z (map (fun c => (f c + g c)%Z) cs)
  = (fold_right Z.add 0%Z (map f cs) + fold_right Z.add 0%Z (map g cs))%Z.
Proof. induction cs as [|c cs IH]; simpl; lia. Qed.

Lemma sum_indicator_out x cs :
  ~ In x cs ->
  fold_right Z.add 0%Z (map (fun c => if x =? c then 1%Z else 0%Z) cs) = 0%Z.
Proof.
  induction cs as [|c cs IH]; simpl; intro H; [reflexivity|].
  destruct (x =? c) eqn:E; [apply String.eqb_eq in E; exfalso; apply H; left; now symmetry|].
  rewrite IH by (intro Hx; apply H; now right). reflexivity.
Qed.

Lemma sum_indicator_in x cs :
  NoDup cs -> In x cs ->
  fold_right Z.add 0%Z (map (fun c => if x =? c then 1%Z else 0%Z) cs) = 1%Z.
Proof.
  induction 1 as [|c cs Hc Hnd IH]; simpl; intro H; [contradiction|].
  destruct (x =? c) eqn:E.
  - apply String.eqb_eq in E. subst c. now rewrite sum_indicator_out.
  - apply String.eqb_neq in E. destruct H as [H|H]; [congruence|].
    rewrite IH by exact H. reflexivity.
Qed.

Lemma count_category_cons c t rows :
  count_category c (t :: rows)
  = ((if (category t =? c)%string then 1 else 0) + count_category c rows)%Z.
Proof.
  unfold count_category. simpl. destruct (category t =? c); simpl List.length; lia.
Qed.

Lemma sum_counts rows :
  forall cs, NoDup cs -> (forall t, In t rows -> In (category t) cs) ->
  fold_right Z.add 0%Z (map (fun c => count_category c rows) cs)
  = Z.of_nat (List.length rows).
Proof.
  induction rows as [|t rows IH]; intros cs Hnd Hin.
  - simpl. induction cs as [|c cs IHc]; simpl; [reflexivity|].
    inversion Hnd; subst. rewrite IHc; auto. intros t [].
  - rewrite (map_ext _ (fun c => ((if (category t =? c)%string then 1 else 0)
                                  + count_category c rows)%Z))
      by (intro c; apply count_category_cons).
    rewrite sum_add, sum_indicator_in, IH; auto.
    + simpl List.length. lia.
    + intros t' Ht'. apply Hin. now right.
    + apply Hin. now left.
Qed.

(** X19. [get_categories] lists each category of an active tag exactly once,
    with the number of active tags in it, the larger counts first; the counts
    add up to the number of active tags. *)
Theorem get_categories_counts db :
  let result := get_categories db in
  let rows := filter is_active (tags db) in
  StronglySorted (fun a b => (snd b <= snd a)%Z) result /\
  NoDup (map fst result) /\
  (forall t, In t (tags db) -> status t = active ->
             In (category t, count_category (category t) rows) result) /\
  fold_right Z.add 0%Z (map snd result) = Z.of_nat (List.length rows).
Proof.
  unfold get_categories. cbv zeta.
  set (rows := filter is_active (tags db)).
  set (leb := fun a b : string * Z => (snd b <=? snd a)%Z).
  set (l := map (fun c => (c, count_category c rows)) (nodup string_dec (map category rows))).
  pose proof (sort_by_perm leb l) as Hperm.
  assert (Hfst : map fst l = nodup string_dec (map category rows)).
  { unfold l. rewrite map_map. simpl. apply map_id. }
  assert (Hsnd : map snd l
                 = map (fun c => count_category c rows) (nodup string_dec (map category rows))).
  { unfold l. rewrite map_map. reflexivity. }
  repeat split.
  - eapply StronglySorted_impl; [intros a b H; apply Z.leb_le; exact H|].
    apply sort_by_sorted; unfold leb.
    + intros a b. rewrite !Z.leb_le. lia.
    + intros a b c. rewrite !Z.leb_le. lia.
  - eapply Permutation_NoDup; [apply Permutation_map, Permutation_sym, Hperm|].
    rewrite Hfst. apply NoDup_nodup.
  - intros t Ht Ha.
    eapply Permutation_in; [apply Permutation_sym, Hperm|].
    unfold l. apply in_map_iff. exists (category t). split; [reflexivity|].
    apply nodup_In, in_map. apply filter_In. split; [exact Ht|now apply is_active_status].
  - rewrite (sum_perm _ _ (Permutation_map snd Hperm)), Hsnd.
    apply sum_counts; [apply NoDup_nodup|].
    intros t Ht. apply nodup_In. now apply in_map.
Qed.

Lemma get_categories_counts_witness : In ("general", 3%Z) (get_categories merge_db).
Proof.
  apply (proj1 (proj2 (proj2 (get_categories_counts merge_db)))
           (sample_tag "s" "Feline" None 0 "Feline" active 2)).
  - left. reflexivity.
  - reflexivity.
Defined.

(** ** A selected root ([get_tag_tree] with [root_id]) *)

Lemma filter_find_key (q : Tag -> bool) r l :
  NoDup (map id l) ->
  filter (fun t => (id t =? r) && q t) l
  = match find (fun t => (id t =? r) && q t) l with
    | Some t => [t]
    | None => []
    end.
Proof.
  induction l as [|a l IH]; simpl; intro Hnd; [reflexivity|].
  inversion Hnd as [|? ? Ha Hnd']; subst.
  destruct (id a =? r) eqn:E; simpl.
  - apply String.eqb_eq in E.
    assert (Hnone : filter (fun t => (id t =? r) && q t) l = []).
    { apply filter_none. intros t Ht. destruct (id t =? r) eqn:Et; [|reflexivity].
      apply String.eqb_eq in Et. exfalso. apply Ha. rewrite E, <- Et. now apply in_map. }
    destruct (q a).
    + now rewrite Hnone.
    + rewrite Hnone. destruct (find _ l) as [t|] eqn:Ef; [|reflexivity].
      apply find_some in Ef. destruct Ef as [Hin Hb].
      assert (In t (filter (fun t => (id t =? r) && q t) l)) by (apply filter_In; auto).
      rewrite Hnone in H. destruct H.
  - now apply IH.
Qed.

Lemma build_tag_tree_data fuel depth d tag stats n d' :
  build_tag_tree fuel depth d tag stats = Some (n, d') -> node_data n = refresh d tag.
Proof.
  destruct depth; simpl; destruct stats.
  - destruct (get_tag_stats fuel d (refresh d tag)) as [[st d1]|]; [|discriminate].
    intro H. now injection H as <- _.
  - intro H. now injection H as <- _.
  - destruct (get_tag_stats fuel d (refresh d tag)) as [[st d1]|]; [|discriminate].
    destruct (collect _ _ d1) as [[nodes d2]|]; [|discriminate].
    intro H. now injection H as <- _.
  - destruct (collect _ _ d) as [[nodes d2]|]; [|discriminate].
    intro H. now injection H as <- _.
Qed.

(** X20. [get_tag_tree] for a selected root: when no active tag has the given
    id the answer is the empty list and the table is untouched; otherwise an
    answer has exactly one node, that of the selected tag. *)
Theorem get_tag_tree_selected_root fuel db r max_depth include_stats :
  pk_unique db -> r <> "" ->
  match get_active db r with
  | None => get_tag_tree fuel db (Some r) max_depth include_stats = Some ([], db)
  | Some t =>
      forall nodes db',
        get_tag_tree fuel db (Some r) max_depth include_stats = Some (nodes, db') ->
        exists n, nodes = [n] /\ node_data n = t
  end.
Proof.
  intros Hpk Hr. unfold get_tag_tree, root_tags, truthy_value, truthy.
  apply String.eqb_neq in Hr. rewrite Hr. simpl negb. cbv iota.
  rewrite (filter_find_key is_active r (tags db) Hpk).
  change (find (fun t => (id t =? r) && is_active t) (tags db)) with (get_active db r).
  destruct (get_active db r) as [t|] eqn:E; [|reflexivity].
  intros nodes db'. simpl.
  destruct (build_tag_tree fuel (Z.to_nat max_depth) db t include_stats) as [[n d1]|] eqn:Eb;
    [|discriminate].
  intro H. injection H as <- _. exists n. split; [reflexivity|].
  rewrite (build_tag_tree_data _ _ _ _ _ _ _ Eb).
  destruct (get_active_In _ _ _ E) as (Hin & _ & _).
  apply refresh_get. now apply pk_unique_get.
Qed.

Lemma get_tag_tree_selected_root_witness :
  get_tag_tree 0 tree_db (Some "m") 3 true = Some ([], tree_db).
Proof.
  apply (get_tag_tree_selected_root 0 tree_db "m" 3 true).
  - unfold pk_unique. simpl. repeat constructor; simpl; intuition discriminate.
  - discriminate.
Defined.

(** ** The usage counter written by [_get_tag_stats] *)

(** X21. [_get_tag_stats] reports the number of taggings of the tag and the
    number of its active children.  In the session it leaves the taggings
    and every other tag as they are; the counter of the tag's session object
    is left alone when it equals the number of taggings, and is otherwise set
    to that number plus one, with the popularity score following it.  None of
    this is stored: [get_tag_tree], which makes the call, commits nothing and
    leaves the table it was given. *)
Theorem get_tag_stats_counter fuel db tag st session :
  pk_unique db -> In tag (tags db) ->
  get_tag_stats fuel db tag = Some (st, session) ->
  let n := Z.of_nat (taggings db (id tag)) in
  stats_usage_count st = n /\
  children_count st = Z.of_nat (List.length (active_children db tag)) /\
  entry_tags session = entry_tags db /\
  (forall t, In t (tags db) -> id t <> id tag -> In t (tags session)) /\
  (exists tag',
      get session (id tag) = Some tag' /\
      (usage_count tag = n -> tag' = tag /\ session = db) /\
      (usage_count tag <> n ->
       usage_count tag' = (n + 1)%Z /\ popularity_score tag' = ((n + 1) * 10)%Z)) /\
  (forall fuel0 root_id max_depth include_stats nodes db',
      get_tag_tree fuel0 db root_id max_depth include_stats = Some (nodes, db') ->
      db' = db).
Proof.
  intros Hpk Hin H. cbv zeta.
  assert (Htree : forall fuel0 root_id max_depth include_stats nodes db',
             get_tag_tree fuel0 db root_id max_depth include_stats = Some (nodes, db') ->
             db' = db).
  { intros fuel0 root_id max_depth include_stats nodes db' Ht.
    now destruct (get_tag_tree_loop _ _ _ _ _ _ _ Ht). }
  unfold get_tag_stats in H. fold (taggings db (id tag)) in H.
  set (n := Z.of_nat (taggings db (id tag))) in *.
  assert (Hkids : Z.of_nat (List.length
                    (filter (fun c => option_string_eqb (parent_id c) (id tag) && is_active c)
                            (tags db)))
                  = Z.of_nat (List.length (active_children db tag))).
  { unfold active_children. now rewrite (Permutation_length (sort_by_perm _ _)). }
  pose proof (pk_unique_get _ _ Hpk Hin) as Hg.
  destruct (usage_count tag =? n)%Z eqn:E.
  - apply Z.eqb_eq in E.
    destruct (get_descendants fuel db (refresh db tag) None) as [ds|]; [|discriminate].
    injection H as <- <-. simpl.
    split; [reflexivity|]. split; [exact Hkids|]. split; [reflexivity|]. split; [auto|].
    split; [|exact Htree].
    exists tag. split; [exact Hg|]. split; [auto|]. intro Hne. contradiction.
  - apply Z.eqb_neq in E.
    match type of H with context [get_descendants fuel ?d1 ?t1 None] =>
      destruct (get_descendants fuel d1 t1 None) as [ds|]; [|discriminate] end.
    injection H as <- <-. simpl.
    split; [reflexivity|]. split; [exact Hkids|]. split; [reflexivity|]. split.
    + intros t Ht Hne. apply in_map_iff. exists t. split; [|exact Ht].
      apply String.eqb_neq in Hne. now rewrite Hne.
    + split; [|exact Htree].
      fold (update_tag (id tag) (fun t => increment_usage (set_usage_count n t)) db).
      rewrite get_update_tag by reflexivity. rewrite String.eqb_refl, Hg. simpl.
      eexists. split; [reflexivity|]. split; [intro; contradiction|].
      intros _. simpl. split; reflexivity.
Qed.

Lemma get_tag_stats_counter_witness :
  exists st session nodes db',
    get_tag_stats 1 merge_db (sample_tag "t" "Cat" None 0 "Cat" active 3)
    = Some (st, session) /\
    get_tag_tree 2 merge_db (Some "t") 1 true = Some (nodes, db') /\
    stats_usage_count st = 1%Z /\
    (exists tag', get session "t" = Some tag' /\ usage_count tag' = 2%Z) /\
    db' = merge_db.
Proof.
  assert (Hpk : pk_unique merge_db)
    by (unfold pk_unique; simpl; repeat constructor; simpl; intuition discriminate).
  assert (Hin : In (sample_tag "t" "Cat" None 0 "Cat" active 3) (tags merge_db))
    by (right; left; reflexivity).
  eexists _, _, _, _. split; [reflexivity|]. split; [reflexivity|].
  match goal with |- stats_usage_count ?st = _ /\ (exists tag', get ?session _ = _ /\ _) /\ _ =>
    destruct (get_tag_stats_counter 1 merge_db (sample_tag "t" "Cat" None 0 "Cat" active 3)
                st session Hpk Hin eq_refl) as (H1 & _ & _ & _ & (tag' & Hg & _ & H2) & H3)
  end.
  split; [exact H1|]. split.
  - exists tag'. split; [exact Hg|]. apply H2. discriminate.
  - apply (H3 2%nat (Some "t") 1%Z true _ _ eq_refl).
Defined.

(** ** Looking up what was created ([get_tag_by_id], [get_tag_by_name]) *)

Lemma find_snoc {A} (p : A -> bool) l x :
  find p (l ++ [x])
  = match find p l with
    | Some y => Some y
    | None => if p x then Some x else None
    end.
Proof.
  induction l as [|a l IH]; simpl; [reflexivity|]. destruct (p a); [reflexivity|exact IH].
Qed.

Lemma find_none_weaker {A} (p q : A -> bool) l :
  find p l = None -> (forall x, q x = true -> p x = true) -> find q l = None.
Proof.
  intros H Hqp. induction l as [|a l IH]; simpl in *; [reflexivity|].
  destruct (p a) eqn:Ep; [discriminate|].
  destruct (q a) eqn:Eq; [rewrite (Hqp a Eq) in Ep; discriminate|auto].
Qed.

Lemma strip_empty : strip "" = "".
Proof. reflexivity. Qed.

(** X22. What [create_tag] has created can be looked up: after a successful
    call [get_tag_by_id] with the new key and [get_tag_by_name] with the
    stripped name both answer the returned tag; the other lookups answer as
    before; and a further [create_tag] under a name that strips to the same
    text is refused as a duplicate and changes nothing. *)
Theorem create_tag_then_lookup fuel db new_id name0 uid parent_id0
    description0 name_en0 category0 domain0 is_abstract0 aliases0 properties0 msg tag db' :
  keys_ok db -> is_uuid new_id ->
  create_tag fuel db new_id name0 uid parent_id0 description0 name_en0
             category0 domain0 is_abstract0 aliases0 properties0
  = Some (true, msg, tag, db') ->
  exists row,
    tag = Some row /\
    get_active db' new_id = Some row /\
    get_active_by_name db' (strip name0) = Some row /\
    (forall i, i <> new_id -> get_active db' i = get_active db i) /\
    (forall n, n <> strip name0 -> get_active_by_name db' n = get_active_by_name db n) /\
    (forall fuel1 id1 name1 uid1 parent_id1 description1 name_en1 category1 domain1
            is_abstract1 aliases1 properties1,
        strip name1 = strip name0 ->
        create_tag fuel1 db' id1 name1 uid1 parent_id1 description1 name_en1
                   category1 domain1 is_abstract1 aliases1 properties1
        = Some (false, CreateNameExists (strip name0), None, db')).
Proof.
  intros Hk Hu H.
  destruct (create_tag_new_row _ _ _ _ _ _ _ _ _ _ _ _ _ _ _ _ Hk Hu H)
    as (row & Htag & Hdb & Hid & Hname & _ & Hst & _ & _ & _ & Hnew & Hfree & Hne & _).
  assert (Hact : is_active row = true) by now apply is_active_status.
  assert (Hbyname : get_active_by_name db' (strip name0) = Some row).
  { rewrite Hdb. unfold get_active_by_name in *. simpl. rewrite find_snoc, Hfree.
    now rewrite Hname, String.eqb_refl, Hact. }
  exists row. split; [exact Htag|]. split; [|split; [exact Hbyname|split; [|split]]].
  - rewrite Hdb. unfold get_active. simpl. rewrite find_snoc.
    rewrite (find_none_weaker (fun t => id t =? new_id) _ (tags db) Hnew).
    + now rewrite Hid, String.eqb_refl, Hact.
    + intros x Hx. apply andb_true_iff in Hx. tauto.
  - intros i Hi. rewrite Hdb. unfold get_active. simpl. rewrite find_snoc.
    destruct (find _ (tags db)); [reflexivity|].
    rewrite Hid. apply not_eq_sym in Hi. apply String.eqb_neq in Hi. now rewrite Hi.
  - intros n Hn. rewrite Hdb. unfold get_active_by_name. simpl. rewrite find_snoc.
    destruct (find _ (tags db)); [reflexivity|].
    rewrite Hname. apply not_eq_sym in Hn. apply String.eqb_neq in Hn. now rewrite Hn.
  - intros fuel1 id1 name1 uid1 parent_id1 description1 name_en1 category1 domain1
           is_abstract1 aliases1 properties1 Hsame.
    unfold create_tag.
    assert (E1 : (name1 =? "") = false).
    { apply String.eqb_neq. intros ->. rewrite strip_empty in Hsame. congruence. }
    assert (E2 : (String.length (strip name1) =? 0)%nat = false).
    { apply Nat.eqb_neq. rewrite Hsame. destruct (strip name0); [congruence|discriminate]. }
    rewrite E1, E2. simpl orb. cbv iota. rewrite Hsame, Hbyname. reflexivity.
Qed.

Lemma create_tag_then_lookup_witness :
  exists row,
    Some kitten_row = Some row /\
    get_active family_db kitten_id = Some row /\
    get_active_by_name family_db (strip "Kitten") = Some row /\
    (forall i, i <> kitten_id -> get_active family_db i = get_active scenario_db i) /\
    (forall n, n <> strip "Kitten" ->
               get_active_by_name family_db n = get_active_by_name scenario_db n) /\
    (forall fuel1 id1 name1 uid1 parent_id1 description1 name_en1 category1 domain1
            is_abstract1 aliases1 properties1,
        strip name1 = strip "Kitten" ->
        create_tag fuel1 family_db id1 name1 uid1 parent_id1 description1 name_en1
                   category1 domain1 is_abstract1 aliases1 properties1
        = Some (false, CreateNameExists (strip "Kitten"), None, family_db)).
Proof.
  apply (create_tag_then_lookup 1 scenario_db kitten_id "Kitten" "u1"
           (Some cat_id) "" "" "biological" "general" false [] [] Created).
  - exact scenario_keys_ok.
  - reflexivity.
  - reflexivity.
Defined.

(** ** Paths stay right under moves *)

Lemma expected_path_update i f db t :
  (forall x, id (f x) = id x) -> (forall x, path (f x) = path x) ->
  expected_path (update_tag i f db) t = expected_path db t.
Proof.
  intros Hid Hpath. unfold expected_path, parent.
  destruct (parent_id t) as [p|]; [|reflexivity].
  rewrite get_update_tag by exact Hid.
  destruct (p =? i); [|reflexivity].
  destruct (get db p); simpl; [now rewrite Hpath|reflexivity].
Qed.

(** X23. Paths never go stale: in every table reached from the empty one by
    calls of [create_tag] and [move_tag], each tag has the path of its parent
    followed by "/" and its own name (its own name for a root), whatever was
    moved before. *)
Theorem reachable_paths_consistent db :
  reachable db -> forall t, In t (tags db) -> path t = Some (expected_path db t).
Proof.
  induction 1 as [es
                 |db fuel new_id name0 uid parent_id0 description0 name_en0 category0
                     domain0 is_abstract0 aliases0 properties0 ok msg tag db' Hr IH Hu Hc
                 |db fuel tag_id0 npid uid ok msg db' Hr IH Hm].
  - intros t [].
  - pose proof (reachable_well_formed _ Hr) as Hwf. destruct ok.
    + destruct (create_tag_new_row _ _ _ _ _ _ _ _ _ _ _ _ _ _ _ _
                  (well_formed_keys_ok _ Hwf) Hu Hc)
        as (row & _ & Hdb & Hid & _ & _ & _ & _ & _ & Hrow & Hnew & _).
      intros t Ht. rewrite Hdb in Ht. simpl in Ht. apply in_app_or in Ht.
      destruct Ht as [Ht|[<-|[]]]; [|apply Hrow].
      assert (Hp : option_string_eqb (parent_id t) (id row) = false).
      { unfold option_string_eqb. destruct (parent_id t) as [p|] eqn:Ep; [|reflexivity].
        apply String.eqb_neq. intro E. rewrite Hid in E. subst p.
        destruct (wf_refs _ Hwf t new_id Ht Ep) as [E|E]; [|congruence].
        now apply (is_uuid_nonempty new_id). }
      rewrite Hdb. unfold expected_path. rewrite parent_insert by exact Hp.
      apply (IH t Ht).
    + apply create_tag_cases in Hc. destruct Hc as [[_ ->]|(? & E & _)];
        [exact IH|discriminate].
  - pose proof (reachable_well_formed _ Hr) as Hwf.
    apply move_tag_cases in Hm.
    destruct Hm as [[_ ->]|(tag & lv & _ & Ht & Hnp & Hup)]; [exact IH|].
    destruct (get_active_In _ _ _ Ht) as (Hin & _ & _).
    set (db1 := update_tag (id tag) (fun t => set_level lv (set_parent_id npid t)) db) in *.
    assert (Hwf1 : well_formed db1).
    { apply repoint_well_formed; auto.
      destruct Hnp as [E|[E|(np & E & Hg & Hc)]]; auto.
      right. right. exists np. destruct (get_active_In _ _ _ Hg) as (Hnin & _ & _).
      destruct (can_be_parent_of_true db fuel np tag (wf_pk _ Hwf) Hnin Hc). auto. }
    assert (Hg1 : get db1 (id tag) = Some (set_level lv (set_parent_id npid tag))).
    { unfold db1. rewrite get_update_tag by reflexivity.
      now rewrite String.eqb_refl, (pk_unique_get _ _ (wf_pk _ Hwf) Hin). }
    assert (Hself : get db1 (id (set_level lv (set_parent_id npid tag))) <> None)
      by (simpl; rewrite Hg1; discriminate).
    pose proof (update_path_frame fuel db1 _ db' (wf_pk _ Hwf1) Hself Hup) as HF.
    assert (Hsub : forall t', In t' (tags db') -> in_subtree db1 (id tag) (id t') ->
                              path t' = Some (expected_path db' t')).
    { intros t' Ht' Hs.
      apply (update_path_consistent fuel db1 (set_level lv (set_parent_id npid tag)) db'
               (wf_pk _ Hwf1) (wf_acyclic _ Hwf1)); auto.
      eexists. split; [exact Hg1|]. split; reflexivity. }
    intros t' Ht'. simpl in HF.
    destruct (Forall2_In_r _ _ _ _ HF Ht') as (t1 & Ht1 & Hid & Hor).
    destruct Hor as [->|Hs]; [|apply Hsub; [exact Ht'|now rewrite Hid]].
    destruct (update_tag_In _ _ _ _ Ht1) as (t0 & Ht0 & [[Hne ->]|[He ->]]).
    + assert (Hc : path t0 = Some (expected_path db1 t0)).
      { unfold db1. rewrite expected_path_update by reflexivity. exact (IH t0 Ht0). }
      destruct (frame_keeps_consistent db1 db' _ t0 (wf_pk _ Hwf1) HF Ht1 Hc) as [Hok|Hs];
        [exact Hok|apply Hsub; [exact Ht'|exact Hs]].
    + apply Hsub; [exact Ht'|]. left. simpl. exact He.
Qed.

Lemma reachable_paths_consistent_witness :
  path kitten_row = Some (expected_path family_db kitten_row).
Proof.
  apply (reachable_paths_consistent family_db family_db_reachable).
  simpl. tauto.
Defined.

(** ** The path as the names from the root ([get_full_path]) *)

Lemma string_app_assoc (a b c : string) : ((a ++ b) ++ c = a ++ (b ++ c))%string.
Proof. induction a as [|x a IH]; simpl; [reflexivity|now rewrite IH]. Qed.

Lemma concat_snoc sep xs x :
  xs <> [] ->
  String.concat sep (xs ++ [x]) = (String.concat sep xs ++ sep ++ x)%string.
Proof.
  induction xs as [|a xs IH]; intro Hne; [congruence|].
  destruct xs as [|b xs]; [reflexivity|].
  change (String.concat sep ((a :: b :: xs) ++ [x]))
    with (a ++ sep ++ String.concat sep ((b :: xs) ++ [x]))%string.
  rewrite IH by discriminate.
  change (String.concat sep (a :: b :: xs))
    with (a ++ sep ++ String.concat sep (b :: xs))%string.
  now rewrite !string_app_assoc.
Qed.

Lemma path_parts_from_names fuel db :
  forall current,
    path_parts_from fuel db current = option_map (map name) (ancestors_from fuel db current).
Proof.
  induction fuel as [|fuel IH]; intros [c|]; simpl; try reflexivity.
  rewrite IH. now destruct (ancestors_from fuel db (parent db c)).
Qed.

Lemma path_joins_names db :
  (forall t, In t (tags db) -> path t = Some (expected_path db t)) ->
  forall fuel t l,
    In t (tags db) -> ancestors_from fuel db (Some t) = Some l ->
    path t = Some (String.concat "/" (rev (map name l))).
Proof.
  intro Hpaths. induction fuel as [|fuel IH]; intros t l Ht H; simpl in H; [discriminate|].
  destruct (ancestors_from fuel db (parent db t)) as [l'|] eqn:E; [|discriminate].
  injection H as <-. rewrite (Hpaths t Ht). unfold expected_path.
  destruct (parent db t) as [p|] eqn:Ep.
  - pose proof (parent_In _ _ _ Ep) as Hp.
    rewrite (IH p l' Hp E). simpl path_str. simpl map. simpl rev.
    rewrite concat_snoc; [reflexivity|].
    destruct fuel; simpl in E; [discriminate|].
    destruct (ancestors_from fuel db (parent db p)); [|discriminate].
    injection E as <-. simpl. intro X. now apply app_eq_nil in X.
  - assert (l' = []) by (destruct fuel; simpl in E; now injection E as <-).
    subst. reflexivity.
Qed.

(** X24. The path of a tag is the chain of names from its root down to it,
    joined by "/": in a table with unique keys and no cycle where every tag
    has the path its parent gives it, [get_full_path] answers that string,
    and the loop it falls back on when the stored path is empty builds the
    very same string. *)
Theorem get_full_path_joins_names db fuel t :
  pk_unique db -> (forall i, ~ is_ancestor db i i) ->
  (forall x, In x (tags db) -> path x = Some (expected_path db x)) ->
  In t (tags db) -> (List.length (tags db) <= fuel)%nat ->
  exists l,
    get_ancestors fuel db t = Some l /\
    get_full_path (S fuel) db t = Some (String.concat "/" (rev (map name (t :: l)))) /\
    full_path_loop (S fuel) db t = Some (String.concat "/" (rev (map name (t :: l)))) /\
    path t = Some (String.concat "/" (rev (map name (t :: l)))).
Proof.
  intros Hpk Hacy Hpaths Ht Hlen.
  pose proof (get_ancestors_terminates db fuel t Hpk Hacy Ht Hlen) as Hterm.
  destruct (get_ancestors fuel db t) as [l|] eqn:E; [|congruence].
  unfold get_ancestors in E.
  assert (Ea : ancestors_from (S fuel) db (Some t) = Some (t :: l)) by (simpl; now rewrite E).
  pose proof (path_joins_names db Hpaths (S fuel) t (t :: l) Ht Ea) as Hpath.
  assert (Hloop : full_path_loop (S fuel) db t
                  = Some (String.concat "/" (rev (map name (t :: l))))).
  { unfold full_path_loop. rewrite path_parts_from_names, Ea. reflexivity. }
  exists l. split; [reflexivity|]. split; [|split; [exact Hloop|exact Hpath]].
  unfold get_full_path. destruct (truthy (path t)); [exact Hpath|exact Hloop].
Qed.

Lemma get_full_path_joins_names_witness :
  exists l,
    get_ancestors 3 family_db kitten_row = Some l /\
    get_full_path 4 family_db kitten_row
      = Some (String.concat "/" (rev (map name (kitten_row :: l)))) /\
    full_path_loop 4 family_db kitten_row
      = Some (String.concat "/" (rev (map name (kitten_row :: l)))) /\
    path kitten_row = Some (String.concat "/" (rev (map name (kitten_row :: l)))).
Proof.
  apply (get_full_path_joins_names family_db 3 kitten_row).
  - exact (wf_pk _ family_db_well_formed).
  - exact (wf_acyclic _ family_db_well_formed).
  - simpl. intros x [<-|[<-|[<-|[]]]]; reflexivity.
  - simpl. tauto.
  - simpl. lia.
Defined.

(** ** The descendants ([get_descendants]) *)

Lemma ancestor_inv par a i p :
  ancestor par a i -> par i = Some p -> a = p \/ ancestor par a p.
Proof.
  intros H Hp. inversion H as [i' p' Hp'|i' p' a' Hp' Ha']; subst;
    rewrite Hp in Hp'; injection Hp' as <-; auto.
Qed.

(** The ancestors of a tag lie on one chain. *)
Lemma ancestor_linear par a b x :
  ancestor par a x -> ancestor par b x -> a = b \/ ancestor par a b \/ ancestor par b a.
Proof.
  induction 1 as [i p Hp|i p a Hp Ha IH]; intro Hb;
    destruct (ancestor_inv _ _ _ _ Hb Hp) as [->|Hb']; auto.
Qed.

(** The subtrees of two children of one tag have no tag in common. *)
Lemma siblings_apart par c1 c2 r x :
  (forall i, ~ ancestor par i i) ->
  par c1 = Some r -> par c2 = Some r -> c1 <> c2 ->
  x = c1 \/ ancestor par c1 x -> x = c2 \/ ancestor par c2 x -> False.
Proof.
  intros Hacy H1 H2 Hne.
  assert (Hno : forall u v, par u = Some r -> par v = Some r -> ~ ancestor par u v).
  { intros u v Hu Hv Ha. destruct (ancestor_inv _ _ _ _ Ha Hv) as [->|Ha'].
    - apply (Hacy r). now apply ancestor_parent.
    - apply (Hacy u). eapply ancestor_trans; [exact Ha'|now apply ancestor_parent]. }
  intros [->|Hx1] [E|Hx2].
  - congruence.
  - exact (Hno c2 c1 H2 H1 Hx2).
  - subst x. exact (Hno c1 c2 H1 H2 Hx1).
  - destruct (ancestor_linear _ _ _ _ Hx1 Hx2) as [E|[Ha|Ha]].
    + congruence.
    + exact (Hno c1 c2 H1 H2 Ha).
    + exact (Hno c2 c1 H2 H1 Ha).
Qed.

Lemma NoDup_map_filter {A B} (f : A -> B) (p : A -> bool) l :
  NoDup (map f l) -> NoDup (map f (filter p l)).
Proof.
  induction l as [|a l IH]; simpl; intro H; [constructor|].
  inversion H as [|? ? Ha Hnd]; subst. destruct (p a); simpl; [|auto].
  constructor; [|auto]. intro Hin. apply Ha.
  apply in_map_iff in Hin. destruct Hin as (x & Hx & Hin).
  apply filter_In in Hin. rewrite <- Hx. apply in_map. tauto.
Qed.

Lemma for_each_ext {A S} (f g : S -> A -> option S) xs :
  (forall s x, f s x = g s x) -> forall s, for_each f xs s = for_each g xs s.
Proof.
  intro H. induction xs as [|x xs IH]; intro s; simpl; [reflexivity|].
  rewrite H. destruct (g s x); auto.
Qed.

Lemma for_each_append {A} (cs : list A) :
  forall acc, for_each (fun ds c => Some (ds ++ [c])) cs acc = Some (acc ++ cs).
Proof.
  induction cs as [|c cs IH]; intro acc; simpl; [now rewrite app_nil_r|].
  rewrite IH, <- app_assoc. reflexivity.
Qed.

Section Descendants.
Variable db : DB.
Hypothesis Hpk : pk_unique db.
Hypothesis Hacy : forall i, ~ is_ancestor db i i.

Lemma below_children tag t :
  get db (id tag) <> None ->
  (In t (tags db) /\ is_ancestor db (id tag) (id t)) <->
  exists c, In c (children db tag) /\
            (t = c \/ (In t (tags db) /\ is_ancestor db (id c) (id t))).
Proof.
  intro Htag. split.
  - intros [Ht Ha]. destruct (ancestor_first_child _ _ _ Ha) as (c & Hc & Hor).
    destruct (parent_ref_child_row _ _ _ Hc) as (rc & Hrc & Hprc).
    destruct (get_In _ _ _ Hrc) as [Hrin Hrid].
    exists rc. split.
    + unfold children. apply filter_In. split; [exact Hrin|].
      unfold option_string_eqb. rewrite Hprc. apply String.eqb_refl.
    + destruct Hor as [E|Hor].
      * left. pose proof (pk_unique_get _ _ Hpk Ht) as X. rewrite E, Hrc in X. congruence.
      * right. split; [exact Ht|]. now rewrite Hrid.
  - intros (c & Hc & Hor).
    pose proof (child_parent_ref _ _ _ Hpk Htag Hc) as Hp.
    apply children_In in Hc. destruct Hc as [Hcin _].
    destruct Hor as [->|[Ht Ha]].
    + split; [exact Hcin|]. now apply ancestor_parent.
    + split; [exact Ht|]. eapply ancestor_trans; [|exact Ha]. now apply ancestor_parent.
Qed.

Lemma collect_descendants_loop tag acc
    (body : list Tag -> Tag -> option (list Tag)) :
  get db (id tag) <> None ->
  (forall a, In a acc -> ~ is_ancestor db (id tag) (id a)) ->
  (forall x s s1,
      In x (children db tag) -> NoDup (map id (s ++ [x])) ->
      (forall a, In a (s ++ [x]) -> ~ is_ancestor db (id x) (id a)) ->
      body s x = Some s1 ->
      (forall t, In t s1 <-> In t (s ++ [x]) \/
                             (In t (tags db) /\ is_ancestor db (id x) (id t))) /\
      NoDup (map id s1)) ->
  forall cs pre s res,
    pre ++ cs = children db tag ->
    (forall t, In t s <-> In t acc \/
                          exists c, In c pre /\
                                    (t = c \/ (In t (tags db) /\
                                               is_ancestor db (id c) (id t)))) ->
    NoDup (map id s) ->
    for_each body cs s = Some res ->
    (forall t, In t res <-> In t acc \/
                            exists c, In c (pre ++ cs) /\
                                      (t = c \/ (In t (tags db) /\
                                                 is_ancestor db (id c) (id t)))) /\
    NoDup (map id res).
Proof.
  intros Htag Hacc Hbody. induction cs as [|x cs IH]; intros pre s res Hsplit Hs Hnd H.
  - simpl in H. injection H as <-. rewrite app_nil_r. auto.
  - simpl in H. destruct (body s x) as [s1|] eqn:Eb; [|discriminate].
    assert (Hxin : In x (children db tag))
      by (rewrite <- Hsplit; apply in_or_app; right; now left).
    pose proof (child_parent_ref _ _ _ Hpk Htag Hxin) as Hxp.
    assert (Hkids : NoDup (map id (children db tag)))
      by (apply NoDup_map_filter; exact Hpk).
    assert (Hpre : forall c, In c pre -> id c <> id x /\ parent_ref db (id c) = Some (id tag)).
    { intros c Hc. split.
      - rewrite <- Hsplit, map_app in Hkids. simpl in Hkids.
        apply NoDup_remove_2 in Hkids. intro E. apply Hkids.
        apply in_or_app. left. rewrite <- E. now apply in_map.
      - apply (child_parent_ref _ _ _ Hpk Htag).
        rewrite <- Hsplit. apply in_or_app. now left. }
    assert (Hfresh : forall a, In a s -> id a <> id x /\ ~ is_ancestor db (id x) (id a)).
    { intros a Ha. apply Hs in Ha. destruct Ha as [Ha|(c & Hc & Hor)].
      - split.
        + intro E. apply (Hacc a Ha). rewrite E. now apply ancestor_parent.
        + intro Hx. apply (Hacc a Ha).
          eapply ancestor_trans; [|exact Hx]. now apply ancestor_parent.
      - destruct (Hpre c Hc) as [Hne Hcp].
        assert (Hin_c : id a = id c \/ ancestor (parent_ref db) (id c) (id a))
          by (destruct Hor as [->|[_ Hor]]; auto).
        split.
        + intro E.
          apply (siblings_apart (parent_ref db) (id c) (id x) (id tag) (id a) Hacy Hcp Hxp Hne
                   Hin_c). now left.
        + intro Hx.
          apply (siblings_apart (parent_ref db) (id c) (id x) (id tag) (id a) Hacy Hcp Hxp Hne
                   Hin_c). now right. }
    destruct (Hbody x s s1 Hxin) as [Hs1 Hnd1]; [| |exact Eb|].
    + rewrite map_app. simpl. apply NoDup_snoc; [exact Hnd|].
      intro Hin. apply in_map_iff in Hin. destruct Hin as (a & E & Ha).
      now destruct (Hfresh a Ha).
    + intros a Ha. apply in_app_or in Ha. destruct Ha as [Ha|[<-|[]]].
      * now destruct (Hfresh a Ha).
      * apply Hacy.
    + destruct (IH (pre ++ [x]) s1 res) as [Hres Hndres]; auto.
      * now rewrite <- app_assoc.
      * intro t. rewrite Hs1, in_app_iff, Hs. simpl. split.
        -- intros [[[Ha|(c & Hc & Hor)]|[<-|[]]]|Hb]; auto; right.
           ++ exists c. split; [apply in_or_app; now left|exact Hor].
           ++ exists x. split; [apply in_or_app; right; now left|now left].
           ++ exists x. split; [apply in_or_app; right; now left|now right].
        -- intros [Ha|(c & Hc & Hor)]; [now left; left; left|].
           apply in_app_or in Hc. destruct Hc as [Hc|[<-|[]]].
           ++ left. left. right. eauto.
           ++ destruct Hor as [->|Hor]; [left; right; now left|now right].
      * rewrite <- app_assoc in Hres. exact (conj Hres Hndres).
Qed.

Lemma collect_descendants_exact fuel :
  forall tag depth acc res,
    get db (id tag) <> None ->
    collect_descendants fuel db None tag depth acc = Some res ->
    NoDup (map id acc) ->
    (forall a, In a acc -> ~ is_ancestor db (id tag) (id a)) ->
    (forall t, In t res <-> In t acc \/ (In t (tags db) /\ is_ancestor db (id tag) (id t))) /\
    NoDup (map id res).
Proof.
  induction fuel as [|fuel IH]; intros tag depth acc res Htag H Hnd Hacc;
    simpl in H; [discriminate|].
  destruct (collect_descendants_loop tag acc
              (fun ds child => collect_descendants fuel db None child (depth + 1)
                                                   (ds ++ [child]))
              Htag Hacc) with (cs := children db tag) (pre := @nil Tag) (s := acc) (res := res)
    as [Hres Hndres]; auto.
  - intros x s s1 Hx Hnds Hfresh Hb.
    apply (IH x (depth + 1)%Z (s ++ [x]) s1); auto.
    apply children_In in Hx. destruct Hx as [Hin _].
    rewrite (pk_unique_get _ _ Hpk Hin). discriminate.
  - intro t. split; [now left|]. intros [Ha|(c & [] & _)]. exact Ha.
  - split; [|exact Hndres]. intro t. rewrite Hres. simpl.
    rewrite (below_children tag t Htag). reflexivity.
Qed.

Lemma collect_descendants_returns fuel :
  forall tag depth acc visited,
    get db (id tag) <> None ->
    NoDup visited ->
    (forall v, In v visited -> is_ancestor db v (id tag)) ->
    incl visited (map id (tags db)) ->
    (List.length (tags db) < List.length visited + fuel)%nat ->
    exists res, collect_descendants fuel db None tag depth acc = Some res.
Proof.
  induction fuel as [|fuel IH]; intros tag depth acc visited Htag Hnd Hv Hincl Hlen.
  - exfalso.
    assert (Hnd' : NoDup (id tag :: visited)).
    { constructor; [|exact Hnd]. intro Hin. exact (Hacy _ (Hv _ Hin)). }
    assert (Hincl' : incl (id tag :: visited) (map id (tags db))).
    { intros x [<-|Hx]; [now apply get_In_ids|auto]. }
    pose proof (NoDup_incl_length Hnd' Hincl') as Hle.
    rewrite length_map in Hle. simpl in Hle. lia.
  - simpl. apply (for_each_total _ (fun _ => True)); [exact I|].
    intros x s Hx _.
    pose proof (child_parent_ref _ _ _ Hpk Htag Hx) as Hxp.
    apply children_In in Hx. destruct Hx as [Hin _].
    destruct (IH x (depth + 1)%Z (s ++ [x]) (id tag :: visited)) as (res & Hres).
    + rewrite (pk_unique_get _ _ Hpk Hin). discriminate.
    + constructor; [|exact Hnd]. intro Hin'. exact (Hacy _ (Hv _ Hin')).
    + intros v [<-|Hv']; [now apply ancestor_parent|].
      eapply ancestor_trans; [apply Hv, Hv'|now apply ancestor_parent].
    + intros v [<-|Hv']; [now apply get_In_ids|auto].
    + simpl. lia.
    + exists res. auto.
Qed.
End Descendants.

(** X25. In a table with unique keys and no cycle, [get_descendants] without
    a depth bound returns (as soon as the fuel exceeds the number of tags) the
    stored tags below the tag and nothing else, each once; the tag itself is
    not among them. *)
Theorem get_descendants_exact db fuel self :
  pk_unique db -> (forall i, ~ is_ancestor db i i) ->
  In self (tags db) -> (List.length (tags db) < fuel)%nat ->
  exists ds,
    get_descendants fuel db self None = Some ds /\
    (forall t, In t ds <-> In t (tags db) /\ is_ancestor db (id self) (id t)) /\
    NoDup (map id ds) /\
    ~ In self ds.
Proof.
  intros Hpk Hacy Hin Hlen. unfold get_descendants.
  assert (Hself : get db (id self) <> None)
    by (rewrite (pk_unique_get _ _ Hpk Hin); discriminate).
  destruct (collect_descendants_returns db Hpk Hacy fuel self 0%Z [] []) as (ds & Hds); auto.
  - constructor.
  - intros v [].
  - intros v [].
  - exists ds. split; [exact Hds|].
    destruct (collect_descendants_exact db Hpk Hacy fuel self 0%Z [] ds Hself Hds)
      as [Hiff Hnd]; [constructor|intros a []|].
    assert (Hiff' : forall t, In t ds <-> In t (tags db) /\ is_ancestor db (id self) (id t)).
    { intro t. rewrite Hiff. simpl. tauto. }
    split; [exact Hiff'|]. split; [exact Hnd|].
    intro Hs. apply Hiff' in Hs. exact (Hacy _ (proj2 Hs)).
Qed.

Lemma get_descendants_exact_witness :
  exists ds,
    get_descendants 4 family_db animal_row None = Some ds /\
    (forall t, In t ds <-> In t (tags family_db) /\
                           is_ancestor family_db (id animal_row) (id t)) /\
    NoDup (map id ds) /\
    ~ In animal_row ds.
Proof.
  apply (get_descendants_exact family_db 4 animal_row).
  - exact (wf_pk _ family_db_well_formed).
  - exact (wf_acyclic _ family_db_well_formed).
  - simpl. tauto.
  - simpl. lia.
Defined.

Lemma collect_descendants_zero db fuel :
  forall tag depth acc,
    collect_descendants fuel db (Some 0%Z) tag depth acc
    = collect_descendants fuel db None tag depth acc.
Proof.
  induction fuel as [|fuel IH]; intros tag depth acc; simpl; [reflexivity|].
  apply for_each_ext. intros s x. apply IH.
Qed.

(** X26. The depth bound of [get_descendants]: a bound of 0 is no bound at
    all, the answer being that of the call without a bound, and a bound of 1
    gives the children of the tag, whatever their status, in table order. *)
Theorem get_descendants_depth_bound db fuel self :
  get_descendants fuel db self (Some 0%Z) = get_descendants fuel db self None /\
  get_descendants (S (S fuel)) db self (Some 1%Z) = Some (children db self).
Proof.
  unfold get_descendants. split; [apply collect_descendants_zero|].
  cbn [collect_descendants]. simpl depth_reached. cbv iota.
  rewrite (for_each_ext _ (fun ds c => Some (ds ++ [c]))) by reflexivity.
  apply for_each_append.
Qed.

(** ** The checks of the name ([create_tag]) *)



(** A parent key that is the empty string passes the check of the service,
    being false, and fails the foreign key when the row is flushed: nothing is
    created and nothing is moved. *)
Example empty_parent_key_is_refused :
  create_tag 2 scenario_db kitten_id "Kitten" "u1" (Some "") "" "" "biological" "general"
             false [] []
  = Some (false, CreateIntegrityError, None, scenario_db) /\
  move_tag 3 scenario_db cat_id (Some "") "u1" = Some (false, MoveFailed, scenario_db).
Proof. split; reflexivity. Qed.
